(** * SR-IOV token pool and token client: a shallow embedding

    Source files:
    - [pkg/sriov/token/pool.go]: the token pool ([Pool], [NewPool], [Restore],
      [AddListener], [Tokens], [Find], [Allocate], [Free], [Use],
      [StopUsing]);
    - the [multitoken] token client ([tokenClient.Request],
      [tokenClient.Close]).

    Go's [*token] pointers are shared between the three indices of the pool,
    so the pool is modelled with an explicit arena ([heap]) of token records
    and the indices hold addresses into it.  The mutex held by every public
    operation makes the operations atomic; they are modelled as functions on
    the pool state. *)

From Stdlib Require Import Ascii.
From stdpp Require Import gmap strings list fin_maps pretty.

Open Scope string_scope.
Open Scope list_scope.

Module Token.

(** ** Data model *)

(** [const ( free state = iota; allocated; inUse; closed )] *)
Inductive state := free | allocated | inUse | closed.

#[global] Instance state_eq_dec : EqDecision state.
Proof. solve_decision. Defined.

(** [type token struct { id, name string; state state }] *)
Record token := mkToken {
  tok_id : string;
  tok_name : string;
  tok_state : state
}.

(** A [*token] is an address into the arena of token records. *)
Abbreviation addr := nat (only parsing).

(** Listeners are [func()] values; only their identity matters here. *)
Abbreviation listener := nat (only parsing).

(** [type Pool struct]; [heap] is the arena the [*token] pointers of the
    three maps point into.  The [lock] is not modelled: every operation
    below is one critical section. *)
Record Pool := mkPool {
  heap : list token;
  tokens : gmap string addr;
  tokensByNames : gmap string (list addr);
  closedTokens : gmap string (list addr);
  listeners : list listener;
  dirty : bool
}.

(** The errors built by [errors.New] and [errors.Errorf] in [pool.go], with
    the arguments of their format strings. *)
Inductive error :=
| ErrAccessed                                        (* "token pool has already been accessed" *)
| ErrNotExist (i : string)                           (* "token doesn't exist: %s" *)
| ErrClosed (n i : string)                           (* "token is closed: %s:%s" *)
| ErrIs (s : state) (n i : string)                   (* "token is %v: %s:%s" *)
| ErrNotInUse (n i : string) (s : state).            (* "token is not in use: %s:%s - %v" *)

(** The design-level error kinds of the specification. *)
Inductive errkind := AlreadyDirty | InvalidId | ClosedToken | BadState.

Definition kind (e : error) : errkind :=
  match e with
  | ErrAccessed => AlreadyDirty
  | ErrNotExist _ => InvalidId
  | ErrClosed _ _ => ClosedToken
  | ErrIs _ _ _ => BadState
  | ErrNotInUse _ _ _ => BadState
  end.

(** What a call hands back: the pool after the call, the returned [error]
    ([None] is [nil]) and the listeners launched with [go listener()]. *)
Record Ret := mkRet {
  pool_of : Pool;
  err_of : option error;
  fired_of : list listener
}.

(** ** Field updates *)

Definition set_heap (h : list token) (p : Pool) : Pool :=
  mkPool h (tokens p) (tokensByNames p) (closedTokens p) (listeners p) (dirty p).
Definition set_tokens (m : gmap string addr) (p : Pool) : Pool :=
  mkPool (heap p) m (tokensByNames p) (closedTokens p) (listeners p) (dirty p).
Definition set_tokensByNames (m : gmap string (list addr)) (p : Pool) : Pool :=
  mkPool (heap p) (tokens p) m (closedTokens p) (listeners p) (dirty p).
Definition set_closedTokens (m : gmap string (list addr)) (p : Pool) : Pool :=
  mkPool (heap p) (tokens p) (tokensByNames p) m (listeners p) (dirty p).
Definition set_listeners (l : list listener) (p : Pool) : Pool :=
  mkPool (heap p) (tokens p) (tokensByNames p) (closedTokens p) l (dirty p).
Definition set_dirty (b : bool) (p : Pool) : Pool :=
  mkPool (heap p) (tokens p) (tokensByNames p) (closedTokens p) (listeners p) b.

(** Reading through a pointer.  Every address stored in an index is live
    (see [wf_tokens], [wf_byName]); the zero token is only read at an
    address outside the arena. *)
Definition deref (h : list token) (a : addr) : token :=
  default (mkToken "" "" free) (h !! a).

(** [tok.state = s] through the pointer [a]. *)
Definition set_state (a : addr) (s : state) (p : Pool) : Pool :=
  set_heap (alter (fun t => mkToken (tok_id t) (tok_name t) s) a (heap p)) p.

(** A Go slice read from a map: a missing key reads as the [nil] slice. *)
Definition slice_at (m : gmap string (list addr)) (k : string) : list addr :=
  default [] (m !! k).

(** ** Configuration *)

(** Modelled from the spec: the [config] package is not part of the sources
    at hand.  A configuration is an ordered list of physical functions, each
    with its service domains, its capabilities and its virtual functions (of
    which [NewPool] only takes the number). *)
Record PhysicalFunction := mkPF {
  ServiceDomains : list string;
  Capabilities : list string;
  VirtualFunctions : list string
}.

Record Config := mkConfig {
  PhysicalFunctions : list PhysicalFunction
}.

(** ** Construction *)

Section Construction.

(** [path.Join] of the Go standard library and [sriovtokens.NewTokenID] of
    the [tokens] package: [NewTokenID k] is the identifier returned by the
    call number [k] (from 0) made while the pool is built. *)
Variable pathJoin : string -> string -> string.
Variable NewTokenID : nat -> string.

(** The body of the innermost loop of [NewPool]: a fresh record, entered
    in [tokens] and appended to [tokensByNames]. One identifier has been
    drawn per record of the arena so far. *)
Definition addToken (n : string) (p : Pool) : Pool :=
  let a := length (heap p) in
  let tok := mkToken (NewTokenID a) n free in
  mkPool (heap p ++ [tok])
         (<[tok_id tok := a]> (tokens p))
         (<[tok_name tok := slice_at (tokensByNames p) (tok_name tok) ++ [a]]>
            (tokensByNames p))
         (closedTokens p) (listeners p) (dirty p).

Definition addPF (p : Pool) (pfCfg : PhysicalFunction) : Pool :=
  foldl (fun p serviceDomain =>
    foldl (fun p capability =>
      let n := pathJoin serviceDomain capability in
      Nat.iter (length (VirtualFunctions pfCfg)) (addToken n) p)
      p (Capabilities pfCfg))
    p (ServiceDomains pfCfg).

Definition emptyPool : Pool := mkPool [] ∅ ∅ ∅ [] false.

Definition NewPool (cfg : Config) : Pool :=
  foldl addPF emptyPool (PhysicalFunctions cfg).

End Construction.

(** ** Operations *)

(** [Restore]'s inner loop over [i < len(ids) && i < len(toks)]. *)
Fixpoint restoreIds (toks : list addr) (ids : list string) (p : Pool) : Pool :=
  match toks, ids with
  | a :: toks', i :: ids' =>
      let tok := deref (heap p) a in
      let p1 := set_tokens (delete (tok_id tok) (tokens p)) p in
      let p2 := set_heap (<[a := mkToken i (tok_name tok) allocated]> (heap p1)) p1 in
      restoreIds toks' ids' (set_tokens (<[i := a]> (tokens p2)) p2)
  | _, _ => p
  end.

Definition restoreName (p : Pool) (e : string * list string) : Pool :=
  match tokensByNames p !! e.1 with
  | None => p
  | Some toks => restoreIds toks e.2 p
  end.

(** [Restore]: the argument is the Go map [tokens] as the list of its
    entries in the order the [range] loop visits them. *)
Definition Restore (toks : list (string * list string)) (p : Pool) : Ret :=
  if dirty p then mkRet p (Some ErrAccessed) []
  else mkRet (foldl restoreName (set_dirty true p) toks) None [].

Definition AddListener (l : listener) (p : Pool) : Pool :=
  set_listeners (listeners p ++ [l]) p.

(** [Tokens]: the availability map, and the pool with [dirty] set. *)
Definition tokensOf (p : Pool) : gmap string (gmap string bool) :=
  (fun toks =>
     foldl (fun m a => let tok := deref (heap p) a in
                       <[tok_id tok := bool_decide (tok_state tok ≠ closed)]> m)
           ∅ toks) <$> tokensByNames p.

Definition Tokens (p : Pool) : Pool * gmap string (gmap string bool) :=
  (set_dirty true p, tokensOf p).

(** [find] *)
Definition find (p : Pool) (i : string) : error + addr :=
  match tokens p !! i with
  | Some a => inr a
  | None => inl (ErrNotExist i)
  end.

(** [Find]: the pool with [dirty] set and the name or the error. *)
Definition Find (i : string) (p : Pool) : Pool * (error + string) :=
  let p := set_dirty true p in
  match find p i with
  | inl e => (p, inl e)
  | inr a => (p, inr (tok_name (deref (heap p) a)))
  end.

(** The loop [for _, t := range p.closedTokens[tok.id] { t.state = free }]
    of [stopUsing]. *)
Definition freeAll (l : list addr) (p : Pool) : Pool :=
  foldl (fun p t => set_state t free p) p l.

(** [stopUsing] *)
Definition stopUsing (i : string) (p : Pool) : Ret :=
  match find p i with
  | inl e => mkRet p (Some e) []
  | inr a =>
      let tok := deref (heap p) a in
      if decide (tok_state tok ≠ inUse)
      then mkRet p (Some (ErrNotInUse (tok_name tok) (tok_id tok) (tok_state tok))) []
      else
        let p1 := set_state a allocated p in
        let p2 := freeAll (slice_at (closedTokens p1) (tok_id tok)) p1 in
        let p3 := set_closedTokens (delete (tok_id tok) (closedTokens p2)) p2 in
        mkRet p3 None (listeners p3)
  end.

Definition StopUsing (i : string) (p : Pool) : Ret :=
  stopUsing i (set_dirty true p).

Definition Allocate (i : string) (p : Pool) : Ret :=
  let p := set_dirty true p in
  match find p i with
  | inl e => mkRet p (Some e) []
  | inr a =>
      let tok := deref (heap p) a in
      match tok_state tok with
      | inUse => stopUsing i p
      | closed => mkRet p (Some (ErrClosed (tok_name tok) (tok_id tok))) []
      | _ => mkRet (set_state a allocated p) None []
      end
  end.

Definition Free (i : string) (p : Pool) : Ret :=
  let p := set_dirty true p in
  match find p i with
  | inl e => mkRet p (Some e) []
  | inr a =>
      let tok := deref (heap p) a in
      match tok_state tok with
      | inUse =>
          let r := stopUsing i p in
          mkRet (set_state a free (pool_of r)) None (fired_of r)
      | closed => mkRet p None []
      | _ => mkRet (set_state a free p) None []
      end
  end.

(** One [for _, tok := range] scan of [findToClose]: the first token of the
    slice in state [s]. *)
Fixpoint firstInState (h : list token) (s : state) (toks : list addr) : option addr :=
  match toks with
  | [] => None
  | a :: toks' =>
      if decide (tok_state (deref h a) = s) then Some a
      else firstInState h s toks'
  end.

(** [findToClose] *)
Definition findToClose (p : Pool) (n : string) : option addr :=
  let toks := slice_at (tokensByNames p) n in
  match firstInState (heap p) free toks with
  | Some a => Some a
  | None => firstInState (heap p) allocated toks
  end.

(** The body of the [for i := range names] loop of [Use], for the token at
    [a]. *)
Definition closeFor (a : addr) (p : Pool) (n : string) : Pool :=
  let tok := deref (heap p) a in
  if decide (n = tok_name tok) then p
  else
    match findToClose p n with
    | None => p
    | Some c =>
        let p1 := set_state c closed p in
        set_closedTokens
          (<[tok_id tok := slice_at (closedTokens p1) (tok_id tok) ++ [c]]>
             (closedTokens p1)) p1
    end.

Definition Use (i : string) (names : list string) (p : Pool) : Ret :=
  let p := set_dirty true p in
  match find p i with
  | inl e => mkRet p (Some e) []
  | inr a =>
      let tok := deref (heap p) a in
      if decide (tok_state tok = inUse ∨ tok_state tok = closed)
      then mkRet p (Some (ErrIs (tok_state tok) (tok_name tok) (tok_id tok))) []
      else
        let p1 := set_state a inUse p in
        let p2 := foldl (closeFor a) p1 names in
        mkRet p2 None (listeners p2)
  end.

(** ** Runs of public operations *)

Inductive op :=
| OpRestore (toks : list (string * list string))
| OpAddListener (l : listener)
| OpTokens
| OpFind (i : string)
| OpAllocate (i : string)
| OpFree (i : string)
| OpUse (i : string) (names : list string)
| OpStopUsing (i : string).

Definition step (p : Pool) (o : op) : Pool :=
  match o with
  | OpRestore toks => pool_of (Restore toks p)
  | OpAddListener l => AddListener l p
  | OpTokens => (Tokens p).1
  | OpFind i => (Find i p).1
  | OpAllocate i => pool_of (Allocate i p)
  | OpFree i => pool_of (Free i p)
  | OpUse i names => pool_of (Use i names p)
  | OpStopUsing i => pool_of (StopUsing i p)
  end.

Definition run (p : Pool) (ops : list op) : Pool := foldl step p ops.

(** A pool is reachable when public operations lead to it from a freshly
    built pool. *)
Inductive reachable : Pool -> Prop :=
| reach_new pathJoin NewTokenID cfg : reachable (NewPool pathJoin NewTokenID cfg)
| reach_step p o : reachable p -> reachable (step p o).

(** ** Reading tokens through pointers *)

Definition state_at (p : Pool) (a : addr) : state := tok_state (deref (heap p) a).
Definition id_at (p : Pool) (a : addr) : string := tok_id (deref (heap p) a).
Definition name_at (p : Pool) (a : addr) : string := tok_name (deref (heap p) a).

(** The tokens closed on account of the in-use token [i]. *)
Definition closedBy (p : Pool) (i : string) : list addr := slice_at (closedTokens p) i.

Definition live (p : Pool) (a : addr) : Prop := a < length (heap p).

Lemma deref_alter_eq (f : token -> token) h a :
  a < length h -> deref (alter f a h) a = f (deref h a).
Proof.
  intros Hlt. unfold deref. rewrite list_lookup_alter_eq.
  destruct (lookup_lt_is_Some_2 h a Hlt) as [t Ht]. rewrite Ht. reflexivity.
Qed.

Lemma deref_alter_ne (f : token -> token) h a b :
  a ≠ b -> deref (alter f a h) b = deref h b.
Proof. intros Hne. unfold deref. rewrite list_lookup_alter_ne; auto. Qed.

Lemma deref_alter_ge (f : token -> token) (h : list token) a :
  length h <= a -> alter f a h = h.
Proof.
  intros Hge. apply list_eq. intros j. destruct (decide (a = j)) as [<-|Hne].
  - rewrite list_lookup_alter_eq. rewrite (lookup_ge_None_2 h a Hge). reflexivity.
  - apply list_lookup_alter_ne; auto.
Qed.

Lemma state_at_set_state_eq a s p : live p a -> state_at (set_state a s p) a = s.
Proof. intros H. unfold state_at. simpl. rewrite deref_alter_eq; auto. Qed.

Lemma state_at_set_state_ne a b s p : a ≠ b -> state_at (set_state a s p) b = state_at p b.
Proof. intros H. unfold state_at. simpl. rewrite deref_alter_ne; auto. Qed.

Lemma id_at_set_state a b s p : id_at (set_state a s p) b = id_at p b.
Proof.
  unfold id_at. simpl. destruct (decide (a = b)) as [<-|Hne].
  - destruct (decide (a < length (heap p))) as [Hlt|Hge].
    + rewrite deref_alter_eq; auto.
    + rewrite deref_alter_ge; auto. lia.
  - rewrite deref_alter_ne; auto.
Qed.

Lemma name_at_set_state a b s p : name_at (set_state a s p) b = name_at p b.
Proof.
  unfold name_at. simpl. destruct (decide (a = b)) as [<-|Hne].
  - destruct (decide (a < length (heap p))) as [Hlt|Hge].
    + rewrite deref_alter_eq; auto.
    + rewrite deref_alter_ge; auto. lia.
  - rewrite deref_alter_ne; auto.
Qed.

Lemma live_set_state a b s p : live (set_state a s p) b <-> live p b.
Proof. unfold live. simpl. rewrite length_alter. reflexivity. Qed.

Lemma state_at_dead p a : ¬ live p a -> state_at p a = free.
Proof.
  unfold live, state_at, deref. intros H.
  rewrite lookup_ge_None_2; [reflexivity | lia].
Qed.

Lemma state_at_live p a : state_at p a ≠ free -> live p a.
Proof.
  intros H. unfold live. destruct (decide (a < length (heap p))); auto.
  exfalso. apply H. apply state_at_dead; auto.
Qed.

Lemma freeAll_cons c l p : freeAll (c :: l) p = freeAll l (set_state c free p).
Proof. reflexivity. Qed.

Lemma freeAll_fields l p :
  tokens (freeAll l p) = tokens p /\
  tokensByNames (freeAll l p) = tokensByNames p /\
  closedTokens (freeAll l p) = closedTokens p /\
  listeners (freeAll l p) = listeners p /\
  dirty (freeAll l p) = dirty p /\
  length (heap (freeAll l p)) = length (heap p).
Proof.
  revert p. induction l as [|c l IH]; intros p; [cbn; tauto|].
  rewrite freeAll_cons.
  destruct (IH (set_state c free p)) as (-> & -> & -> & -> & -> & ->).
  cbn. rewrite length_alter. tauto.
Qed.

Lemma id_at_freeAll l p b : id_at (freeAll l p) b = id_at p b.
Proof.
  revert p. induction l as [|c l IH]; intros p; [reflexivity|].
  rewrite freeAll_cons, IH. apply id_at_set_state.
Qed.

Lemma name_at_freeAll l p b : name_at (freeAll l p) b = name_at p b.
Proof.
  revert p. induction l as [|c l IH]; intros p; [reflexivity|].
  rewrite freeAll_cons, IH. apply name_at_set_state.
Qed.

Lemma state_at_freeAll_notin l p b : b ∉ l -> state_at (freeAll l p) b = state_at p b.
Proof.
  revert p. induction l as [|c l IH]; intros p Hnin; [reflexivity|].
  apply not_elem_of_cons in Hnin as [Hne Hl].
  rewrite freeAll_cons, IH; auto.
  apply state_at_set_state_ne. auto.
Qed.

Lemma state_at_set_free c p : state_at (set_state c free p) c = free.
Proof.
  destruct (decide (c < length (heap p))) as [Hlv|Hlv].
  - apply state_at_set_state_eq; auto.
  - apply state_at_dead. rewrite live_set_state. auto.
Qed.

Lemma state_at_freeAll_in l p b : b ∈ l -> state_at (freeAll l p) b = free.
Proof.
  revert p. induction l as [|c l IH]; intros p Hin.
  - inversion Hin.
  - rewrite freeAll_cons. destruct (decide (b ∈ l)) as [Hl|Hl].
    + apply IH; auto.
    + apply elem_of_cons in Hin as [->|]; [|contradiction].
      rewrite state_at_freeAll_notin; auto. apply state_at_set_free.
Qed.

(** ** Well-formed pools *)

(** The shape every reachable pool has: the indices point at live records
    carrying the key they are filed under, and the closure sets are exactly
    the closed tokens, each owned by one in-use token. *)
Record wf (p : Pool) : Prop := mkWf {
  wf_tokens : forall k a, tokens p !! k = Some a -> live p a /\ id_at p a = k;
  wf_byName : forall n l a,
    tokensByNames p !! n = Some l -> a ∈ l -> live p a /\ name_at p a = n;
  wf_byName_nodup : forall n l, tokensByNames p !! n = Some l -> NoDup l;
  wf_owner : forall k l,
    closedTokens p !! k = Some l ->
    exists a, tokens p !! k = Some a /\ state_at p a = inUse;
  wf_closed : forall k l c,
    closedTokens p !! k = Some l -> c ∈ l -> state_at p c = closed;
  wf_closed_nodup : forall k l, closedTokens p !! k = Some l -> NoDup l;
  wf_closed_disj : forall k1 k2 l1 l2 c,
    closedTokens p !! k1 = Some l1 -> closedTokens p !! k2 = Some l2 ->
    c ∈ l1 -> c ∈ l2 -> k1 = k2;
  wf_closed_owned : forall c,
    state_at p c = closed -> exists k l, closedTokens p !! k = Some l /\ c ∈ l;
  wf_clean : dirty p = false ->
    closedTokens p = ∅ /\ forall a, state_at p a = free
}.

Lemma tokens_set_state a s p : tokens (set_state a s p) = tokens p.
Proof. reflexivity. Qed.
Lemma byNames_set_state a s p : tokensByNames (set_state a s p) = tokensByNames p.
Proof. reflexivity. Qed.
Lemma closed_set_state a s p : closedTokens (set_state a s p) = closedTokens p.
Proof. reflexivity. Qed.
Lemma dirty_set_state a s p : dirty (set_state a s p) = dirty p.
Proof. reflexivity. Qed.
Lemma listeners_set_state a s p : listeners (set_state a s p) = listeners p.
Proof. reflexivity. Qed.

Create Rewrite HintDb pool.
#[local] Hint Rewrite tokens_set_state byNames_set_state closed_set_state
  dirty_set_state listeners_set_state id_at_set_state name_at_set_state
  live_set_state : pool.

Lemma state_at_set_closed m p a : state_at (set_closedTokens m p) a = state_at p a.
Proof. reflexivity. Qed.
Lemma id_at_set_closed m p a : id_at (set_closedTokens m p) a = id_at p a.
Proof. reflexivity. Qed.
Lemma name_at_set_closed m p a : name_at (set_closedTokens m p) a = name_at p a.
Proof. reflexivity. Qed.
Lemma live_set_closed m p a : live (set_closedTokens m p) a = live p a.
Proof. reflexivity. Qed.
Lemma tokens_set_closed m p : tokens (set_closedTokens m p) = tokens p.
Proof. reflexivity. Qed.
Lemma byNames_set_closed m p : tokensByNames (set_closedTokens m p) = tokensByNames p.
Proof. reflexivity. Qed.
Lemma closed_set_closed m p : closedTokens (set_closedTokens m p) = m.
Proof. reflexivity. Qed.
Lemma dirty_set_closed m p : dirty (set_closedTokens m p) = dirty p.
Proof. reflexivity. Qed.
Lemma listeners_set_closed m p : listeners (set_closedTokens m p) = listeners p.
Proof. reflexivity. Qed.

#[local] Hint Rewrite state_at_set_closed id_at_set_closed name_at_set_closed
  live_set_closed tokens_set_closed byNames_set_closed closed_set_closed
  dirty_set_closed listeners_set_closed : pool.

Ltac pool_simpl := intros; autorewrite with pool in *.

Lemma wf_set_dirty p : wf p -> wf (set_dirty true p).
Proof.
  intros [Ht Hn Hnd Ho Hc Hcn Hcd Hco Hcl].
  constructor; auto. cbn. discriminate.
Qed.

Lemma wf_set_listeners l p : wf p -> wf (set_listeners l p).
Proof. intros [Ht Hn Hnd Ho Hc Hcn Hcd Hco Hcl]. constructor; auto. Qed.

(** A token that is neither in use nor closed may move to any state but
    [closed] without disturbing the closure sets. *)
Lemma wf_set_state_plain a s p :
  wf p -> dirty p = true ->
  state_at p a ≠ inUse -> state_at p a ≠ closed -> s ≠ closed ->
  wf (set_state a s p).
Proof.
  intros [Ht Hn Hnd Ho Hc Hcn Hcd Hco Hcl] Hd Hnu Hnc Hs.
  constructor.
  - pool_simpl. eauto.
  - pool_simpl. eauto.
  - pool_simpl. eauto.
  - pool_simpl. destruct (Ho k l) as (b & Hb & Hst); auto.
    exists b. split; auto. rewrite state_at_set_state_ne; auto. congruence.
  - pool_simpl. pose proof (Hc k l c) as Hst.
    rewrite state_at_set_state_ne; auto. intros ->. apply Hnc. auto.
  - pool_simpl. eauto.
  - pool_simpl. eauto.
  - pool_simpl. apply Hco. destruct (decide (a = c)) as [<-|Hne].
    + destruct (decide (a < length (heap p))) as [Hlv|Hlv].
      * rewrite state_at_set_state_eq in H; auto. congruence.
      * rewrite state_at_dead in H; [discriminate|].
        rewrite live_set_state. auto.
    + rewrite state_at_set_state_ne in H; auto.
  - pool_simpl. congruence.
Qed.

(** *** The scans of [findToClose] *)

Lemma firstInState_Some h s l a :
  firstInState h s l = Some a ->
  exists k, l !! k = Some a /\ tok_state (deref h a) = s /\
            forall j b, j < k -> l !! j = Some b -> tok_state (deref h b) ≠ s.
Proof.
  induction l as [|b l IH]; cbn; [discriminate|].
  destruct (decide (tok_state (deref h b) = s)) as [Hb|Hb].
  - intros [= <-]. exists 0. split; [reflexivity|]. split; [assumption|].
    intros j c Hj. lia.
  - intros Hf. destruct (IH Hf) as (k & Hk & Hs & Hbefore).
    exists (S k). split; [exact Hk|]. split; [assumption|].
    intros [|j] c Hj Hc; cbn in Hc.
    + injection Hc as <-. assumption.
    + apply (Hbefore j); [lia | assumption].
Qed.

Lemma firstInState_None h s l :
  firstInState h s l = None <-> forall a, a ∈ l -> tok_state (deref h a) ≠ s.
Proof.
  induction l as [|b l IH]; cbn.
  - split; [|reflexivity]. intros _ a Ha. inversion Ha.
  - destruct (decide (tok_state (deref h b) = s)) as [Hb|Hb].
    + split; [discriminate|]. intros Hall. exfalso.
      apply (Hall b); [left | assumption].
    + rewrite IH. split.
      * intros Hall a Ha. apply elem_of_cons in Ha as [->|Ha]; auto.
      * intros Hall a Ha. apply Hall. right. assumption.
Qed.

Lemma elem_of_slice_at (m : gmap string (list nat)) k x :
  x ∈ slice_at m k <-> exists l, m !! k = Some l /\ x ∈ l.
Proof.
  unfold slice_at. destruct (m !! k) as [l|]; cbn.
  - split; [eauto|]. intros (l' & [= <-] & Hx). assumption.
  - split; [intros Hx; inversion Hx|]. intros (l' & [=] & _).
Qed.

Lemma findToClose_Some p n c :
  findToClose p n = Some c ->
  c ∈ slice_at (tokensByNames p) n /\
  (state_at p c = free \/ state_at p c = allocated).
Proof.
  unfold findToClose, state_at.
  destruct (firstInState (heap p) free _) as [a|] eqn:Hfree.
  - intros [= <-]. destruct (firstInState_Some _ _ _ _ Hfree) as (k & Hk & Hs & _).
    split; [eapply list_elem_of_lookup_2; eassumption | left; assumption].
  - intros Hal. destruct (firstInState_Some _ _ _ _ Hal) as (k & Hk & Hs & _).
    split; [eapply list_elem_of_lookup_2; eassumption | right; assumption].
Qed.

Lemma findToClose_None p n :
  findToClose p n = None <->
  forall a, a ∈ slice_at (tokensByNames p) n ->
            state_at p a ≠ free /\ state_at p a ≠ allocated.
Proof.
  unfold findToClose, state_at.
  destruct (firstInState (heap p) free _) as [a|] eqn:Hfree.
  - split; [discriminate|]. intros Hall. exfalso.
    destruct (firstInState_Some _ _ _ _ Hfree) as (k & Hk & Hs & _).
    destruct (Hall a) as [Hnf _].
    + eapply list_elem_of_lookup_2; eassumption.
    + apply Hnf. exact Hs.
  - rewrite firstInState_None in Hfree. rewrite firstInState_None.
    split; intros Hall a Ha; [split|]; auto. apply Hall. assumption.
Qed.

(** *** One closure step of [Use] *)

(** Closing the token [c] on account of the in-use token filed under [i]. *)
Definition closeOne (i : string) (c : addr) (p : Pool) : Pool :=
  let p1 := set_state c closed p in
  set_closedTokens (<[i := slice_at (closedTokens p1) i ++ [c]]> (closedTokens p1)) p1.

Lemma closeFor_cases a p n :
  (closeFor a p n = p /\
   (n = name_at p a \/ (n ≠ name_at p a /\ findToClose p n = None))) \/
  (exists c, n ≠ name_at p a /\ findToClose p n = Some c /\
             closeFor a p n = closeOne (id_at p a) c p).
Proof.
  unfold closeFor, name_at, id_at.
  destruct (decide (n = tok_name (deref (heap p) a))) as [Heq|Hne]; [auto|].
  destruct (findToClose p n) as [c|] eqn:Hf; [|auto].
  right. exists c. auto.
Qed.

Lemma wf_closeOne i a c p :
  wf p -> dirty p = true ->
  tokens p !! i = Some a -> state_at p a = inUse ->
  live p c -> (state_at p c = free \/ state_at p c = allocated) ->
  wf (closeOne i c p).
Proof.
  intros [Ht Hn Hnd Ho Hc Hcn Hcd Hco Hcl] Hd Hi Ha Hlc Hsc.
  assert (Hca : c ≠ a) by (intros ->; destruct Hsc; congruence).
  assert (Hcold : forall k l, closedTokens p !! k = Some l -> c ∉ l).
  { intros k l Hk Hin. pose proof (Hc k l c Hk Hin). destruct Hsc; congruence. }
  unfold closeOne. constructor.
  - pool_simpl. eauto.
  - pool_simpl. eauto.
  - pool_simpl. eauto.
  - intros k l. autorewrite with pool.
    destruct (decide (i = k)) as [<-|Hne].
    + intros _. exists a. autorewrite with pool. split; auto.
      rewrite state_at_set_state_ne; auto.
    + rewrite lookup_insert_ne by assumption. intros Hk.
      destruct (Ho k l Hk) as (b & Hb & Hst). exists b.
      autorewrite with pool. split; auto.
      rewrite state_at_set_state_ne; auto. intros ->. destruct Hsc; congruence.
  - intros k l x. autorewrite with pool.
    destruct (decide (i = k)) as [<-|Hne].
    + rewrite lookup_insert_eq. intros [= <-] Hx.
      apply elem_of_app in Hx as [Hx|Hx].
      * apply elem_of_slice_at in Hx as (l & Hl & Hx).
        rewrite state_at_set_state_ne; eauto. intros ->. eapply Hcold; eauto.
      * apply list_elem_of_singleton in Hx as ->.
        apply state_at_set_state_eq; auto.
    + rewrite lookup_insert_ne by assumption. intros Hk Hx.
      rewrite state_at_set_state_ne; eauto. intros ->. eapply Hcold; eauto.
  - intros k l. autorewrite with pool.
    destruct (decide (i = k)) as [<-|Hne].
    + rewrite lookup_insert_eq. intros [= <-].
      apply NoDup_app. split; [|split].
      * unfold slice_at. destruct (closedTokens p !! i) eqn:E; cbn; eauto.
        constructor.
      * intros x Hx Hx'. apply list_elem_of_singleton in Hx' as ->.
        apply elem_of_slice_at in Hx as (l & Hl & Hx). eapply Hcold; eauto.
      * apply NoDup_singleton.
    + rewrite lookup_insert_ne by assumption. eauto.
  - intros k1 k2 l1 l2 x. autorewrite with pool.
    destruct (decide (i = k1)) as [<-|Hne1]; destruct (decide (i = k2)) as [<-|Hne2];
      auto.
    + rewrite lookup_insert_eq, lookup_insert_ne by assumption.
      intros [= <-] H2 Hx1 Hx2.
      apply elem_of_app in Hx1 as [Hx1|Hx1].
      * apply elem_of_slice_at in Hx1 as (l & Hl & Hx1). eauto.
      * apply list_elem_of_singleton in Hx1 as ->. exfalso. eapply Hcold; eauto.
    + rewrite lookup_insert_eq, lookup_insert_ne by assumption.
      intros H1 [= <-] Hx1 Hx2.
      apply elem_of_app in Hx2 as [Hx2|Hx2].
      * apply elem_of_slice_at in Hx2 as (l & Hl & Hx2). eauto.
      * apply list_elem_of_singleton in Hx2 as ->. exfalso. eapply Hcold; eauto.
    + rewrite !lookup_insert_ne by assumption. eauto.
  - intros x. autorewrite with pool. intros Hx.
    destruct (decide (c = x)) as [<-|Hne].
    + exists i, (slice_at (closedTokens p) i ++ [c]).
      rewrite lookup_insert_eq. split; auto. apply elem_of_app. right. left.
    + rewrite state_at_set_state_ne in Hx by assumption.
      destruct (Hco x Hx) as (k & l & Hk & Hin).
      destruct (decide (i = k)) as [<-|Hnk].
      * exists i, (slice_at (closedTokens p) i ++ [c]).
        rewrite lookup_insert_eq. split; auto. apply elem_of_app. left.
        apply elem_of_slice_at. eauto.
      * exists k, l. rewrite lookup_insert_ne by assumption. auto.
  - pool_simpl. congruence.
Qed.

(** *** Unwinding a closure set *)

(** What [stopUsing] does to the pool once the token at [a], filed under
    [i], is known to be in use. *)
Definition unwind (i : string) (a : addr) (p : Pool) : Pool :=
  let p1 := set_state a allocated p in
  let p2 := freeAll (closedBy p1 i) p1 in
  set_closedTokens (delete i (closedTokens p2)) p2.

Lemma unwind_fields i a p :
  tokens (unwind i a p) = tokens p /\
  tokensByNames (unwind i a p) = tokensByNames p /\
  closedTokens (unwind i a p) = delete i (closedTokens p) /\
  listeners (unwind i a p) = listeners p /\
  dirty (unwind i a p) = dirty p /\
  length (heap (unwind i a p)) = length (heap p).
Proof.
  unfold unwind.
  destruct (freeAll_fields (closedBy (set_state a allocated p) i)
              (set_state a allocated p)) as (Ht & Hn & Hc & Hl & Hd & Hlen).
  autorewrite with pool. rewrite Ht, Hn, Hc, Hl, Hd.
  repeat split; try reflexivity.
  change (length (heap (freeAll (closedBy (set_state a allocated p) i)
                                (set_state a allocated p)))
          = length (heap p)).
  rewrite Hlen. cbn. apply length_alter.
Qed.

Lemma id_at_unwind i a p b : id_at (unwind i a p) b = id_at p b.
Proof.
  unfold unwind. autorewrite with pool.
  rewrite id_at_freeAll. apply id_at_set_state.
Qed.

Lemma name_at_unwind i a p b : name_at (unwind i a p) b = name_at p b.
Proof.
  unfold unwind. autorewrite with pool.
  rewrite name_at_freeAll. apply name_at_set_state.
Qed.

Lemma live_unwind i a p b : live (unwind i a p) b <-> live p b.
Proof.
  unfold live. destruct (unwind_fields i a p) as (_ & _ & _ & _ & _ & ->).
  reflexivity.
Qed.

Lemma state_at_unwind_closed i a p c :
  c ∈ closedBy p i -> state_at (unwind i a p) c = free.
Proof.
  intros Hc. unfold unwind. autorewrite with pool.
  apply state_at_freeAll_in. exact Hc.
Qed.

Lemma state_at_unwind_self i a p :
  live p a -> a ∉ closedBy p i -> state_at (unwind i a p) a = allocated.
Proof.
  intros Hlv Hc. unfold unwind. autorewrite with pool.
  rewrite state_at_freeAll_notin by exact Hc.
  apply state_at_set_state_eq. exact Hlv.
Qed.

Lemma state_at_unwind_other i a p b :
  b ≠ a -> b ∉ closedBy p i -> state_at (unwind i a p) b = state_at p b.
Proof.
  intros Hne Hc. unfold unwind. autorewrite with pool.
  rewrite state_at_freeAll_notin by exact Hc.
  apply state_at_set_state_ne. auto.
Qed.

Lemma closedBy_closed p i c : wf p -> c ∈ closedBy p i -> state_at p c = closed.
Proof.
  intros Hwf Hc. apply elem_of_slice_at in Hc as (l & Hl & Hc).
  eapply wf_closed; eauto.
Qed.

Lemma wf_unwind i a p :
  wf p -> dirty p = true -> tokens p !! i = Some a -> state_at p a = inUse ->
  wf (unwind i a p).
Proof.
  intros Hwf Hd Hi Ha.
  pose proof (fun c => closedBy_closed p i c Hwf) as HL.
  destruct Hwf as [Ht Hn Hnd Ho Hc Hcn Hcd Hco Hcl].
  destruct (unwind_fields i a p) as (Et & En & Ec & El & Ed & Elen).
  assert (HaL : a ∉ closedBy p i) by (intros Hin; apply HL in Hin; congruence).
  constructor; rewrite ?Et, ?En, ?Ec, ?Ed.
  - intros k b Hk. rewrite live_unwind, id_at_unwind. eauto.
  - intros n l b Hk Hb. rewrite live_unwind, name_at_unwind. eauto.
  - eauto.
  - intros k l Hk. apply lookup_delete_Some in Hk as [Hne Hk].
    destruct (Ho k l Hk) as (b & Hb & Hst). exists b. split; auto.
    rewrite state_at_unwind_other; auto.
    + intros ->. destruct (Ht _ _ Hb) as [_ E1]. destruct (Ht _ _ Hi) as [_ E2].
      congruence.
    + intros Hin. apply HL in Hin. congruence.
  - intros k l c Hk Hin. apply lookup_delete_Some in Hk as [Hne Hk].
    pose proof (Hc k l c Hk Hin) as Hst.
    rewrite state_at_unwind_other; auto.
    + intros ->. congruence.
    + intros Hin'. apply elem_of_slice_at in Hin' as (l' & Hl' & Hin').
      apply Hne. eapply Hcd; eauto.
  - intros k l Hk. apply lookup_delete_Some in Hk as [Hne Hk]. eauto.
  - intros k1 k2 l1 l2 c H1 H2.
    apply lookup_delete_Some in H1 as [_ H1].
    apply lookup_delete_Some in H2 as [_ H2]. eauto.
  - intros c Hst.
    destruct (decide (c ∈ closedBy p i)) as [Hin|Hin].
    { rewrite state_at_unwind_closed in Hst by assumption. discriminate. }
    destruct (decide (c = a)) as [->|Hne].
    { rewrite state_at_unwind_self in Hst; [discriminate| |assumption].
      destruct (Ht _ _ Hi). assumption. }
    rewrite state_at_unwind_other in Hst by assumption.
    destruct (Hco c Hst) as (k & l & Hk & Hc').
    exists k, l. split; auto. apply lookup_delete_Some. split; auto.
    intros <-. apply Hin. apply elem_of_slice_at. eauto.
  - congruence.
Qed.

Lemma stopUsing_inUse i a p :
  tokens p !! i = Some a -> id_at p a = i -> state_at p a = inUse ->
  stopUsing i p = mkRet (unwind i a p) None (listeners p).
Proof.
  intros Hi Hid Ha. unfold stopUsing, find. rewrite Hi.
  fold (state_at p a) (id_at p a) (name_at p a). rewrite Ha, Hid.
  destruct (decide (inUse ≠ inUse)) as [Hne|_]; [congruence|].
  destruct (unwind_fields i a p) as (_ & _ & _ & El & _ & _).
  unfold unwind in *. unfold closedBy. cbn [closedTokens set_state set_heap] in *.
  f_equal. exact El.
Qed.

Lemma stopUsing_not_inUse i a p :
  tokens p !! i = Some a -> state_at p a ≠ inUse ->
  stopUsing i p =
  mkRet p (Some (ErrNotInUse (name_at p a) (id_at p a) (state_at p a))) [].
Proof.
  intros Hi Ha. unfold stopUsing, find. rewrite Hi.
  fold (state_at p a) (id_at p a) (name_at p a).
  destruct (decide (state_at p a ≠ inUse)) as [_|Hn]; [reflexivity|contradiction].
Qed.

Lemma stopUsing_unknown i p :
  tokens p !! i = None -> stopUsing i p = mkRet p (Some (ErrNotExist i)) [].
Proof. intros Hi. unfold stopUsing, find. rewrite Hi. reflexivity. Qed.

(** *** The loop of [Use] *)

(** What holds of the pool all along the loop of [Use] for the token at [a],
    filed under [i]. *)
Record holding (i : string) (a : addr) (p : Pool) : Prop := mkHolding {
  holding_wf : wf p;
  holding_dirty : dirty p = true;
  holding_tok : tokens p !! i = Some a;
  holding_state : state_at p a = inUse
}.

Lemma closeOne_fields i c p :
  tokens (closeOne i c p) = tokens p /\
  tokensByNames (closeOne i c p) = tokensByNames p /\
  listeners (closeOne i c p) = listeners p /\
  dirty (closeOne i c p) = dirty p /\
  closedTokens (closeOne i c p) = <[i := closedBy p i ++ [c]]> (closedTokens p).
Proof. repeat split; reflexivity. Qed.

Lemma id_at_closeOne i c p b : id_at (closeOne i c p) b = id_at p b.
Proof. unfold closeOne. autorewrite with pool. reflexivity. Qed.

Lemma name_at_closeOne i c p b : name_at (closeOne i c p) b = name_at p b.
Proof. unfold closeOne. autorewrite with pool. reflexivity. Qed.

Lemma state_at_closeOne_eq i c p : live p c -> state_at (closeOne i c p) c = closed.
Proof.
  intros Hlv. unfold closeOne. autorewrite with pool.
  apply state_at_set_state_eq. exact Hlv.
Qed.

Lemma state_at_closeOne_ne i c p b : c ≠ b -> state_at (closeOne i c p) b = state_at p b.
Proof.
  intros Hne. unfold closeOne. autorewrite with pool.
  apply state_at_set_state_ne. exact Hne.
Qed.

Lemma closedBy_closeOne_eq i c p : closedBy (closeOne i c p) i = closedBy p i ++ [c].
Proof.
  unfold closedBy at 1, slice_at.
  destruct (closeOne_fields i c p) as (_ & _ & _ & _ & ->).
  rewrite lookup_insert_eq. reflexivity.
Qed.

Lemma closedBy_closeOne_ne i k c p : i ≠ k -> closedBy (closeOne i c p) k = closedBy p k.
Proof.
  intros Hne. unfold closedBy, slice_at.
  destruct (closeOne_fields i c p) as (_ & _ & _ & _ & ->).
  rewrite lookup_insert_ne by exact Hne. reflexivity.
Qed.

Lemma findToClose_live p n c :
  wf p -> findToClose p n = Some c ->
  live p c /\ name_at p c = n /\ (state_at p c = free \/ state_at p c = allocated).
Proof.
  intros Hwf Hf. apply findToClose_Some in Hf as [Hin Hst].
  apply elem_of_slice_at in Hin as (l & Hl & Hin).
  destruct (wf_byName p Hwf n l c Hl Hin). auto.
Qed.

Lemma holding_closeOne i a c p :
  holding i a p -> live p c -> (state_at p c = free \/ state_at p c = allocated) ->
  holding i a (closeOne i c p).
Proof.
  intros [Hwf Hd Hi Ha] Hlv Hst. constructor.
  - eapply wf_closeOne; eauto.
  - exact Hd.
  - exact Hi.
  - rewrite state_at_closeOne_ne; auto. intros ->. destruct Hst; congruence.
Qed.

Lemma holding_closeFor i a n p : holding i a p -> holding i a (closeFor a p n).
Proof.
  intros Hu. destruct (closeFor_cases a p n) as [[-> _]|(c & Hne & Hf & ->)]; auto.
  destruct (wf_tokens p (holding_wf _ _ _ Hu) i a (holding_tok _ _ _ Hu)) as [_ ->].
  destruct (findToClose_live p n c (holding_wf _ _ _ Hu) Hf) as (Hlv & _ & Hst).
  apply holding_closeOne; auto.
Qed.

Lemma holding_closeAll i a names p :
  holding i a p -> holding i a (foldl (closeFor a) p names).
Proof.
  revert p. induction names as [|n names IH]; intros p Hu; cbn; auto.
  apply IH. apply holding_closeFor. exact Hu.
Qed.

Lemma holding_start i a p :
  wf p -> dirty p = true -> tokens p !! i = Some a ->
  state_at p a ≠ inUse -> state_at p a ≠ closed ->
  holding i a (set_state a inUse p).
Proof.
  intros Hwf Hd Hi Hnu Hnc. constructor.
  - apply wf_set_state_plain; auto; discriminate.
  - exact Hd.
  - exact Hi.
  - apply state_at_set_state_eq. destruct (wf_tokens p Hwf i a Hi). assumption.
Qed.

(** The three ways [Use] can go. *)
Lemma Use_unknown i names p :
  tokens p !! i = None ->
  Use i names p = mkRet (set_dirty true p) (Some (ErrNotExist i)) [].
Proof. intros Hi. unfold Use, find. cbn. rewrite Hi. reflexivity. Qed.

Lemma Use_bad i a names p :
  tokens p !! i = Some a -> state_at p a = inUse \/ state_at p a = closed ->
  Use i names p =
  mkRet (set_dirty true p)
        (Some (ErrIs (state_at p a) (name_at p a) (id_at p a))) [].
Proof.
  intros Hi Hst. unfold Use, find. cbn [tokens set_dirty]. rewrite Hi.
  cbn [heap set_dirty]. fold (state_at p a) (id_at p a) (name_at p a).
  destruct (decide _) as [_|Hn]; [reflexivity|contradiction].
Qed.

Lemma Use_good i a names p :
  tokens p !! i = Some a -> state_at p a ≠ inUse -> state_at p a ≠ closed ->
  Use i names p =
  let p2 := foldl (closeFor a) (set_state a inUse (set_dirty true p)) names in
  mkRet p2 None (listeners p2).
Proof.
  intros Hi Hnu Hnc. unfold Use, find. cbn [tokens set_dirty]. rewrite Hi.
  cbn [heap set_dirty]. fold (state_at p a) (id_at p a) (name_at p a).
  destruct (decide _) as [[H|H]|_]; [contradiction|contradiction|reflexivity].
Qed.

Lemma wf_Use i names p : wf p -> wf (pool_of (Use i names p)).
Proof.
  intros Hwf. destruct (tokens p !! i) as [a|] eqn:Hi.
  - destruct (decide (state_at p a = inUse \/ state_at p a = closed)) as [Hb|Hg].
    + rewrite (Use_bad i a) by assumption. cbn. apply wf_set_dirty. exact Hwf.
    + rewrite (Use_good i a) by tauto. cbn.
      eapply holding_wf. apply holding_closeAll.
      apply (holding_start i a (set_dirty true p)).
      * apply wf_set_dirty. exact Hwf.
      * reflexivity.
      * exact Hi.
      * exact (fun H => Hg (or_introl H)).
      * exact (fun H => Hg (or_intror H)).
  - rewrite Use_unknown by assumption. cbn. apply wf_set_dirty. exact Hwf.
Qed.

Lemma wf_stopUsing i p : wf p -> dirty p = true -> wf (pool_of (stopUsing i p)).
Proof.
  intros Hwf Hd. destruct (tokens p !! i) as [a|] eqn:Hi.
  - destruct (decide (state_at p a = inUse)) as [Ha|Ha].
    + rewrite (stopUsing_inUse i a); auto.
      * cbn. apply wf_unwind; auto.
      * destruct (wf_tokens p Hwf i a Hi). assumption.
    + rewrite (stopUsing_not_inUse i a); auto.
  - rewrite stopUsing_unknown; auto.
Qed.

(** *** [Allocate] and [Free], case by case *)

Lemma Allocate_unknown i p :
  tokens p !! i = None ->
  Allocate i p = mkRet (set_dirty true p) (Some (ErrNotExist i)) [].
Proof. intros Hi. unfold Allocate, find. cbn. rewrite Hi. reflexivity. Qed.

Lemma Allocate_plain i a p :
  tokens p !! i = Some a -> state_at p a = free \/ state_at p a = allocated ->
  Allocate i p = mkRet (set_state a allocated (set_dirty true p)) None [].
Proof.
  intros Hi Hst. unfold Allocate, find. cbn [tokens set_dirty]. rewrite Hi.
  cbn [heap set_dirty]. fold (state_at p a).
  destruct Hst as [-> | ->]; reflexivity.
Qed.

Lemma Allocate_inUse i a p :
  tokens p !! i = Some a -> state_at p a = inUse ->
  Allocate i p = stopUsing i (set_dirty true p).
Proof.
  intros Hi Hst. unfold Allocate, find. cbn [tokens set_dirty]. rewrite Hi.
  cbn [heap set_dirty]. fold (state_at p a). rewrite Hst. reflexivity.
Qed.

Lemma Allocate_closed i a p :
  tokens p !! i = Some a -> state_at p a = closed ->
  Allocate i p =
  mkRet (set_dirty true p) (Some (ErrClosed (name_at p a) (id_at p a))) [].
Proof.
  intros Hi Hst. unfold Allocate, find. cbn [tokens set_dirty]. rewrite Hi.
  cbn [heap set_dirty]. fold (state_at p a). rewrite Hst. reflexivity.
Qed.

Lemma Free_unknown i p :
  tokens p !! i = None ->
  Free i p = mkRet (set_dirty true p) (Some (ErrNotExist i)) [].
Proof. intros Hi. unfold Free, find. cbn. rewrite Hi. reflexivity. Qed.

Lemma Free_plain i a p :
  tokens p !! i = Some a -> state_at p a = free \/ state_at p a = allocated ->
  Free i p = mkRet (set_state a free (set_dirty true p)) None [].
Proof.
  intros Hi Hst. unfold Free, find. cbn [tokens set_dirty]. rewrite Hi.
  cbn [heap set_dirty]. fold (state_at p a).
  destruct Hst as [-> | ->]; reflexivity.
Qed.

Lemma Free_inUse i a p :
  tokens p !! i = Some a -> state_at p a = inUse ->
  Free i p =
  let r := stopUsing i (set_dirty true p) in
  mkRet (set_state a free (pool_of r)) None (fired_of r).
Proof.
  intros Hi Hst. unfold Free, find. cbn [tokens set_dirty]. rewrite Hi.
  cbn [heap set_dirty]. fold (state_at p a). rewrite Hst. reflexivity.
Qed.

Lemma Free_closed i a p :
  tokens p !! i = Some a -> state_at p a = closed ->
  Free i p = mkRet (set_dirty true p) None [].
Proof.
  intros Hi Hst. unfold Free, find. cbn [tokens set_dirty]. rewrite Hi.
  cbn [heap set_dirty]. fold (state_at p a). rewrite Hst. reflexivity.
Qed.

Lemma state_cases (s : state) :
  (s = free \/ s = allocated) \/ s = inUse \/ s = closed.
Proof. destruct s; auto. Qed.

(** [stopUsing] on an in-use token of a well-formed pool. *)
Lemma stopUsing_wf_inUse i a p :
  wf p -> tokens p !! i = Some a -> state_at p a = inUse ->
  stopUsing i p = mkRet (unwind i a p) None (listeners p).
Proof.
  intros Hwf Hi Ha. apply stopUsing_inUse; auto.
  destruct (wf_tokens p Hwf i a Hi). assumption.
Qed.

Lemma not_in_closedBy p i a :
  wf p -> state_at p a ≠ closed -> a ∉ closedBy p i.
Proof. intros Hwf Hn Hin. apply Hn. eapply closedBy_closed; eauto. Qed.

Lemma wf_Allocate i p : wf p -> wf (pool_of (Allocate i p)).
Proof.
  intros Hwf. pose proof (wf_set_dirty p Hwf) as Hwd.
  destruct (tokens p !! i) as [a|] eqn:Hi.
  - destruct (state_cases (state_at p a)) as [Hst|[Hst|Hst]].
    + rewrite (Allocate_plain i a) by assumption. cbn.
      apply wf_set_state_plain; auto.
      all: change (state_at (set_dirty true p) a) with (state_at p a).
      all: destruct Hst; congruence.
    + rewrite (Allocate_inUse i a) by assumption.
      apply wf_stopUsing; auto.
    + rewrite (Allocate_closed i a) by assumption. exact Hwd.
  - rewrite Allocate_unknown by assumption. exact Hwd.
Qed.

Lemma wf_Free i p : wf p -> wf (pool_of (Free i p)).
Proof.
  intros Hwf. pose proof (wf_set_dirty p Hwf) as Hwd.
  destruct (tokens p !! i) as [a|] eqn:Hi.
  - destruct (state_cases (state_at p a)) as [Hst|[Hst|Hst]].
    + rewrite (Free_plain i a) by assumption. cbn.
      apply wf_set_state_plain; auto.
      all: change (state_at (set_dirty true p) a) with (state_at p a).
      all: destruct Hst; congruence.
    + rewrite (Free_inUse i a) by assumption. cbn zeta.
      rewrite (stopUsing_wf_inUse i a) by assumption. cbn [pool_of].
      assert (Hself : state_at (unwind i a (set_dirty true p)) a = allocated).
      { apply state_at_unwind_self.
        - destruct (wf_tokens p Hwf i a Hi). assumption.
        - apply not_in_closedBy; auto.
          change (state_at (set_dirty true p) a) with (state_at p a). congruence. }
      apply wf_set_state_plain; try congruence.
      * apply wf_unwind; auto.
      * destruct (unwind_fields i a (set_dirty true p)) as (_ & _ & _ & _ & -> & _).
        reflexivity.
    + rewrite (Free_closed i a) by assumption. exact Hwd.
  - rewrite Free_unknown by assumption. exact Hwd.
Qed.

(** *** The indices alone *)

(** The part of [wf] that only speaks of [tokens] and [tokensByNames]. *)
Definition indexed (p : Pool) : Prop :=
  (forall k a, tokens p !! k = Some a -> live p a /\ id_at p a = k) /\
  (forall n l a, tokensByNames p !! n = Some l -> a ∈ l ->
                 live p a /\ name_at p a = n) /\
  (forall n l, tokensByNames p !! n = Some l -> NoDup l).

(** No token is in use or closed, and no closure set is recorded. *)
Definition quiet (p : Pool) : Prop :=
  closedTokens p = ∅ /\
  forall b, state_at p b = free \/ state_at p b = allocated.

Lemma wf_indexed p : wf p -> indexed p.
Proof. intros [Ht Hn Hnd _ _ _ _ _ _]. split; [exact Ht | split; [exact Hn | exact Hnd]]. Qed.

Lemma wf_of_quiet p :
  indexed p -> quiet p -> (dirty p = false -> forall a, state_at p a = free) -> wf p.
Proof.
  intros (Ht & Hn & Hnd) [Hc Hst] Hcl.
  constructor; auto; try (rewrite Hc; intros; simplify_map_eq; fail).
  intros c Hcst. destruct (Hst c); congruence.
Qed.

(** One round of the inner loop of [Restore]. *)
Definition restoreStep (a : addr) (i : string) (p : Pool) : Pool :=
  set_tokens (<[i := a]> (delete (id_at p a) (tokens p)))
    (set_heap (<[a := mkToken i (name_at p a) allocated]> (heap p)) p).

Lemma restoreIds_cons a toks i ids p :
  restoreIds (a :: toks) (i :: ids) p = restoreIds toks ids (restoreStep a i p).
Proof. reflexivity. Qed.

Lemma deref_insert_eq (h : list token) a t : a < length h -> deref (<[a := t]> h) a = t.
Proof. intros Hlt. unfold deref. rewrite list_lookup_insert_eq by exact Hlt. reflexivity. Qed.

Lemma deref_insert_ne (h : list token) a b t : a ≠ b -> deref (<[a := t]> h) b = deref h b.
Proof. intros Hne. unfold deref. rewrite list_lookup_insert_ne by exact Hne. reflexivity. Qed.

Lemma in_take (x : nat) n (l : list nat) : x ∈ take n l -> x ∈ l.
Proof. apply subseteq_take. Qed.

Lemma restoreStep_fields a i p :
  tokensByNames (restoreStep a i p) = tokensByNames p /\
  closedTokens (restoreStep a i p) = closedTokens p /\
  listeners (restoreStep a i p) = listeners p /\
  dirty (restoreStep a i p) = dirty p /\
  length (heap (restoreStep a i p)) = length (heap p).
Proof. repeat split; try reflexivity. cbn. apply length_insert. Qed.

Lemma live_restoreStep a i p b : live (restoreStep a i p) b <-> live p b.
Proof. unfold live. cbn. rewrite length_insert. reflexivity. Qed.

Lemma heap_restoreStep_eq a i p :
  live p a -> heap (restoreStep a i p) !! a = Some (mkToken i (name_at p a) allocated).
Proof. intros Hlv. cbn. apply list_lookup_insert_eq. exact Hlv. Qed.

Lemma heap_restoreStep_ne a i p b :
  a ≠ b -> heap (restoreStep a i p) !! b = heap p !! b.
Proof. intros Hne. cbn. apply list_lookup_insert_ne. exact Hne. Qed.

Lemma name_at_restoreStep a i p b : name_at (restoreStep a i p) b = name_at p b.
Proof.
  unfold name_at at 1. cbn [heap restoreStep set_tokens set_heap].
  destruct (decide (a = b)) as [<-|Hne].
  - destruct (decide (a < length (heap p))) as [Hlt|Hge].
    + rewrite deref_insert_eq by exact Hlt. reflexivity.
    + rewrite list_insert_ge by lia. reflexivity.
  - rewrite deref_insert_ne by exact Hne. reflexivity.
Qed.

Lemma id_at_restoreStep_ne a i p b : a ≠ b -> id_at (restoreStep a i p) b = id_at p b.
Proof.
  intros Hne. unfold id_at at 1. cbn [heap restoreStep set_tokens set_heap].
  rewrite deref_insert_ne by exact Hne. reflexivity.
Qed.

Lemma id_at_restoreStep_eq a i p : live p a -> id_at (restoreStep a i p) a = i.
Proof.
  intros Hlv. unfold id_at. cbn [heap restoreStep set_tokens set_heap].
  rewrite deref_insert_eq by exact Hlv. reflexivity.
Qed.

Lemma state_at_restoreStep a i p b :
  state_at (restoreStep a i p) b = state_at p b \/
  state_at (restoreStep a i p) b = allocated.
Proof.
  unfold state_at at 1 3. cbn [heap restoreStep set_tokens set_heap].
  destruct (decide (a = b)) as [<-|Hne].
  - destruct (decide (a < length (heap p))) as [Hlt|Hge].
    + rewrite deref_insert_eq by exact Hlt. right. reflexivity.
    + rewrite list_insert_ge by lia. left. reflexivity.
  - rewrite deref_insert_ne by exact Hne. left. reflexivity.
Qed.

Lemma indexed_restoreStep a i p :
  indexed p -> live p a -> indexed (restoreStep a i p).
Proof.
  intros (Ht & Hn & Hnd) Hlv. split; [|split].
  - intros k b. cbn [tokens restoreStep set_tokens].
    rewrite live_restoreStep. destruct (decide (i = k)) as [<-|Hne].
    + rewrite lookup_insert_eq. intros [= <-]. split; auto.
      apply id_at_restoreStep_eq. exact Hlv.
    + rewrite lookup_insert_ne by exact Hne. intros Hk.
      apply lookup_delete_Some in Hk as [Hold Hk].
      destruct (Ht k b Hk) as [Hlb Hid]. split; auto.
      rewrite id_at_restoreStep_ne; auto. intros <-. congruence.
  - intros n l b Hl Hb. rewrite live_restoreStep, name_at_restoreStep. eauto.
  - exact Hnd.
Qed.

Lemma quiet_restoreStep a i p : quiet p -> quiet (restoreStep a i p).
Proof.
  intros [Hc Hst]. split; [exact Hc|].
  intros b. destruct (state_at_restoreStep a i p b) as [-> | ->]; auto.
Qed.

Lemma restoreIds_keeps toks ids p :
  indexed p -> quiet p -> (forall a, a ∈ toks -> live p a) ->
  let p' := restoreIds toks ids p in
  indexed p' /\ quiet p' /\
  tokensByNames p' = tokensByNames p /\ listeners p' = listeners p /\
  dirty p' = dirty p /\
  (forall b, live p' b <-> live p b) /\
  (forall b, name_at p' b = name_at p b) /\
  (forall b, b ∉ take (length ids) toks -> heap p' !! b = heap p !! b).
Proof.
  revert ids p. induction toks as [|a toks IH]; intros ids p Hix Hq Hlv.
  { cbn. split_and!; done. }
  destruct ids as [|i ids].
  { cbn. split_and!; done. }
  rewrite restoreIds_cons. cbn zeta.
  assert (Hla : live p a) by (apply Hlv; left).
  destruct (IH ids (restoreStep a i p)) as (H1 & H2 & H3 & H4 & H5 & H6 & H7 & H8).
  - apply indexed_restoreStep; auto.
  - apply quiet_restoreStep; auto.
  - intros b Hb. rewrite live_restoreStep. apply Hlv. right. exact Hb.
  - split_and!; try done.
    + intros b. rewrite H6. apply live_restoreStep.
    + intros b. rewrite H7. apply name_at_restoreStep.
    + intros b Hb. apply not_elem_of_cons in Hb as [Hne Hb].
      rewrite H8 by exact Hb. apply heap_restoreStep_ne. auto.
Qed.

Lemma restoreIds_sets toks ids p k a i :
  NoDup toks -> (forall b, b ∈ toks -> live p b) -> indexed p -> quiet p ->
  toks !! k = Some a -> ids !! k = Some i ->
  heap (restoreIds toks ids p) !! a = Some (mkToken i (name_at p a) allocated).
Proof.
  revert ids p k. induction toks as [|b toks IH]; intros ids p k Hnd Hlv Hix Hq Ha Hi.
  { discriminate. }
  destruct ids as [|j ids]; [discriminate|].
  rewrite restoreIds_cons. apply NoDup_cons in Hnd as [Hb Hnd].
  destruct k as [|k]; cbn in Ha, Hi.
  - injection Ha as ->. injection Hi as ->.
    destruct (restoreIds_keeps toks ids (restoreStep a i p)) as (_ & _ & _ & _ & _ & _ & _ & H8).
    + apply indexed_restoreStep; auto. apply Hlv. left.
    + apply quiet_restoreStep; auto.
    + intros c Hc. rewrite live_restoreStep. apply Hlv. right. exact Hc.
    + rewrite H8; [apply heap_restoreStep_eq; apply Hlv; left|].
      intros Hin. apply Hb. eapply in_take; eauto.
  - rewrite (IH ids (restoreStep b j p) k); auto.
    + rewrite name_at_restoreStep. reflexivity.
    + intros c Hc. rewrite live_restoreStep. apply Hlv. right. exact Hc.
    + apply indexed_restoreStep; auto. apply Hlv. left.
    + apply quiet_restoreStep; auto.
Qed.

Lemma restoreName_keeps e p :
  indexed p -> quiet p ->
  let p' := restoreName p e in
  indexed p' /\ quiet p' /\
  tokensByNames p' = tokensByNames p /\ listeners p' = listeners p /\
  dirty p' = dirty p /\
  (forall b, live p' b <-> live p b) /\
  (forall b, name_at p' b = name_at p b) /\
  (forall b, name_at p b ≠ e.1 -> heap p' !! b = heap p !! b).
Proof.
  intros Hix Hq. unfold restoreName.
  destruct (tokensByNames p !! e.1) as [l|] eqn:Hl; [|cbn; split_and!; done].
  destruct Hix as (Ht & Hn & Hnd).
  destruct (restoreIds_keeps l e.2 p) as (H1 & H2 & H3 & H4 & H5 & H6 & H7 & H8).
  - split_and!; assumption.
  - exact Hq.
  - intros a Ha. destruct (Hn _ _ _ Hl Ha). assumption.
  - cbn zeta. split_and!; try done.
    intros b Hb. apply H8. intros Hin. apply Hb.
    apply in_take in Hin. destruct (Hn _ _ _ Hl Hin). assumption.
Qed.

Lemma restoreAll_keeps toks p :
  indexed p -> quiet p ->
  let p' := foldl restoreName p toks in
  indexed p' /\ quiet p' /\
  tokensByNames p' = tokensByNames p /\ listeners p' = listeners p /\
  dirty p' = dirty p /\
  (forall b, live p' b <-> live p b) /\
  (forall b, name_at p' b = name_at p b) /\
  (forall b, name_at p b ∉ toks.*1 -> heap p' !! b = heap p !! b).
Proof.
  revert p. induction toks as [|e toks IH]; intros p Hix Hq.
  { cbn. split_and!; done. }
  cbn zeta.
  change (foldl restoreName p (e :: toks))
    with (foldl restoreName (restoreName p e) toks).
  destruct (restoreName_keeps e p Hix Hq) as (H1 & H2 & H3 & H4 & H5 & H6 & H7 & H8).
  destruct (IH (restoreName p e) H1 H2) as (K1 & K2 & K3 & K4 & K5 & K6 & K7 & K8).
  split_and!; try done; try congruence.
  - intros b. rewrite K6. apply H6.
  - intros b Hb. rewrite fmap_cons in Hb. apply not_elem_of_cons in Hb as [Hne Hb].
    rewrite K8 by (rewrite H7; exact Hb). apply H8. exact Hne.
Qed.

(** The tokens [Restore] rewrites, and those it leaves alone. *)
Lemma restoreAll_sets toks p n ids l k a :
  indexed p -> quiet p -> NoDup toks.*1 ->
  (n, ids) ∈ toks -> tokensByNames p !! n = Some l -> l !! k = Some a ->
  (forall i, ids !! k = Some i ->
     heap (foldl restoreName p toks) !! a = Some (mkToken i n allocated)) /\
  (length ids <= k -> heap (foldl restoreName p toks) !! a = heap p !! a).
Proof.
  revert p. induction toks as [|e toks IH]; intros p Hix Hq Hnd Hin Hl Ha.
  { inversion Hin. }
  rewrite fmap_cons in Hnd. apply NoDup_cons in Hnd as [Hfresh Hnd].
  cbn [foldl].
  destruct (restoreName_keeps e p Hix Hq) as (H1 & H2 & H3 & H4 & H5 & H6 & H7 & H8).
  pose proof Hix as (Ht & Hn & Hndl).
  destruct (Hn _ _ _ Hl (list_elem_of_lookup_2 _ _ _ Ha)) as [Hlv Hname].
  apply elem_of_cons in Hin as [<-|Hin].
  - destruct (restoreAll_keeps toks (restoreName p (n, ids)) H1 H2)
      as (_ & _ & _ & _ & _ & _ & _ & K8).
    rewrite K8 by (rewrite H7, Hname; exact Hfresh).
    unfold restoreName. cbn [fst snd]. rewrite Hl. split.
    + intros i Hi. rewrite <- Hname.
      eapply restoreIds_sets; eauto.
      intros b Hb. destruct (Hn _ _ _ Hl Hb). assumption.
    + intros Hk.
      destruct (restoreIds_keeps l ids p) as (_ & _ & _ & _ & _ & _ & _ & R8); auto.
      { intros b Hb. destruct (Hn _ _ _ Hl Hb). assumption. }
      apply R8. intros Hin. apply list_elem_of_lookup in Hin as (j & Hj).
      apply lookup_take_Some in Hj as [Hj Hlt].
      pose proof (NoDup_lookup _ _ _ _ (Hndl _ _ Hl) Ha Hj). lia.
  - assert (Hne : e.1 ≠ n).
    { intros <-. apply Hfresh. apply list_elem_of_fmap. exists (e.1, ids). auto. }
    destruct (IH (restoreName p e)) as [I1 I2]; auto; [congruence|].
    rewrite <- (H8 a) by congruence. auto.
Qed.

Lemma Restore_clean toks p :
  dirty p = false ->
  Restore toks p = mkRet (foldl restoreName (set_dirty true p) toks) None [].
Proof. intros Hd. unfold Restore. rewrite Hd. reflexivity. Qed.

Lemma Restore_dirty toks p :
  dirty p = true -> Restore toks p = mkRet p (Some ErrAccessed) [].
Proof. intros Hd. unfold Restore. rewrite Hd. reflexivity. Qed.

Lemma wf_quiet p : wf p -> dirty p = false -> quiet p.
Proof.
  intros Hwf Hd. destruct (wf_clean p Hwf Hd) as [Hc Hst].
  split; auto.
Qed.

Lemma wf_Restore toks p : wf p -> wf (pool_of (Restore toks p)).
Proof.
  intros Hwf. destruct (dirty p) eqn:Hd.
  - rewrite Restore_dirty by exact Hd. exact Hwf.
  - rewrite Restore_clean by exact Hd. cbn [pool_of].
    destruct (restoreAll_keeps toks (set_dirty true p))
      as (H1 & H2 & _ & _ & H5 & _).
    + apply (wf_indexed _ (wf_set_dirty p Hwf)).
    + apply (wf_quiet p Hwf Hd).
    + apply wf_of_quiet; auto. rewrite H5. discriminate.
Qed.

(** *** Freshly built pools *)

(** What [NewPool] returns: indices in order, every token free, nothing
    closed, no listener, not dirty. *)
Definition fresh (p : Pool) : Prop :=
  indexed p /\ closedTokens p = ∅ /\ (forall b, state_at p b = free) /\
  dirty p = false /\ listeners p = [].

Lemma fresh_empty : fresh emptyPool.
Proof.
  split; [|split_and!; reflexivity].
  split_and!; intros *; cbn; intros H; simplify_map_eq.
Qed.

Section Construction_facts.

Variable pathJoin : string -> string -> string.
Variable NewTokenID : nat -> string.

Lemma deref_addToken_old n p b :
  live p b -> deref (heap (addToken NewTokenID n p)) b = deref (heap p) b.
Proof.
  intros Hlv. unfold deref. cbn. rewrite lookup_app_l by exact Hlv. reflexivity.
Qed.

Lemma deref_addToken_new n p :
  deref (heap (addToken NewTokenID n p)) (length (heap p))
  = mkToken (NewTokenID (length (heap p))) n free.
Proof.
  unfold deref. cbn. rewrite lookup_app_r by lia.
  rewrite Nat.sub_diag. reflexivity.
Qed.

Lemma live_addToken n p b :
  live (addToken NewTokenID n p) b <-> live p b \/ b = length (heap p).
Proof. unfold live. cbn. rewrite length_app. cbn. lia. Qed.

Lemma fresh_addToken n p : fresh p -> fresh (addToken NewTokenID n p).
Proof.
  intros ((Ht & Hn & Hnd) & Hc & Hst & Hd & Hl).
  split; [|split_and!; try assumption].
  - split_and!.
    + intros k b. cbn [tokens addToken tok_id].
      destruct (decide (NewTokenID (length (heap p)) = k)) as [<-|Hne].
      * rewrite lookup_insert_eq. intros [= <-]. split.
        -- apply live_addToken. right. reflexivity.
        -- unfold id_at. rewrite deref_addToken_new. reflexivity.
      * rewrite lookup_insert_ne by exact Hne. intros Hk.
        destruct (Ht k b Hk) as [Hlv Hid]. split.
        -- apply live_addToken. left. exact Hlv.
        -- unfold id_at. rewrite deref_addToken_old by exact Hlv. exact Hid.
    + intros m l b. cbn [tokensByNames addToken tok_name].
      destruct (decide (n = m)) as [<-|Hne].
      * rewrite lookup_insert_eq. intros [= <-] Hb.
        apply elem_of_app in Hb as [Hb|Hb].
        -- apply elem_of_slice_at in Hb as (l & Hl' & Hb).
           destruct (Hn n l b Hl' Hb) as [Hlv Hname]. split.
           ++ apply live_addToken. left. exact Hlv.
           ++ unfold name_at. rewrite deref_addToken_old by exact Hlv. exact Hname.
        -- apply list_elem_of_singleton in Hb as ->. split.
           ++ apply live_addToken. right. reflexivity.
           ++ unfold name_at. rewrite deref_addToken_new. reflexivity.
      * rewrite lookup_insert_ne by exact Hne. intros Hl' Hb.
        destruct (Hn m l b Hl' Hb) as [Hlv Hname]. split.
        -- apply live_addToken. left. exact Hlv.
        -- unfold name_at. rewrite deref_addToken_old by exact Hlv. exact Hname.
    + intros m l. cbn [tokensByNames addToken tok_name].
      destruct (decide (n = m)) as [<-|Hne].
      * rewrite lookup_insert_eq. intros [= <-].
        apply NoDup_app. split_and!.
        -- unfold slice_at. destruct (tokensByNames p !! n) as [l|] eqn:E; cbn.
           ++ eapply Hnd; eauto.
           ++ constructor.
        -- intros b Hb Hb'. apply list_elem_of_singleton in Hb' as ->.
           apply elem_of_slice_at in Hb as (l & Hl' & Hb).
           destruct (Hn n l _ Hl' Hb) as [Hlv _]. unfold live in Hlv. lia.
        -- apply NoDup_singleton.
      * rewrite lookup_insert_ne by exact Hne. apply Hnd.
  - intros b. unfold state_at.
    destruct (lt_eq_lt_dec b (length (heap p))) as [[Hlt| ->]|Hgt].
    + rewrite deref_addToken_old by exact Hlt. apply Hst.
    + rewrite deref_addToken_new. reflexivity.
    + unfold deref. cbn. rewrite lookup_ge_None_2; [reflexivity|].
      rewrite length_app. cbn. lia.
Qed.

Lemma fresh_addPF p pf : fresh p -> fresh (addPF pathJoin NewTokenID p pf).
Proof.
  unfold addPF. generalize (ServiceDomains pf) as sds. intros sds. revert p.
  induction sds as [|sd sds IH]; intros p Hp; cbn [foldl]; auto.
  apply IH. clear IH.
  generalize (Capabilities pf) as caps. intros caps. revert p Hp.
  induction caps as [|cap caps IH]; intros p Hp; cbn [foldl]; auto.
  apply IH. clear IH.
  induction (length (VirtualFunctions pf)) as [|k IH]; cbn [Nat.iter nat_rect]; auto.
  apply fresh_addToken. exact IH.
Qed.

Lemma fresh_NewPool cfg : fresh (NewPool pathJoin NewTokenID cfg).
Proof.
  unfold NewPool. generalize fresh_empty. generalize emptyPool as p.
  induction (PhysicalFunctions cfg) as [|pf pfs IH]; intros p Hp; cbn [foldl]; auto.
  apply IH. apply fresh_addPF. exact Hp.
Qed.

End Construction_facts.

Lemma wf_fresh p : fresh p -> wf p.
Proof.
  intros (Hix & Hc & Hst & Hd & Hl). apply wf_of_quiet; auto.
  split; auto.
Qed.

Lemma wf_step p o : wf p -> wf (step p o).
Proof.
  intros Hwf. destruct o; cbn [step].
  - apply wf_Restore. exact Hwf.
  - apply wf_set_listeners. exact Hwf.
  - apply wf_set_dirty. exact Hwf.
  - unfold Find. cbn zeta. destruct (find _ _); apply wf_set_dirty; exact Hwf.
  - apply wf_Allocate. exact Hwf.
  - apply wf_Free. exact Hwf.
  - apply wf_Use. exact Hwf.
  - unfold StopUsing. apply wf_stopUsing; [apply wf_set_dirty; exact Hwf | reflexivity].
Qed.

Lemma reachable_wf p : reachable p -> wf p.
Proof.
  induction 1 as [pj nid cfg | p o Hr IH].
  - apply wf_fresh. apply fresh_NewPool.
  - apply wf_step. exact IH.
Qed.

(** *** Counting what [Use] closes *)

(** The tokens of name [n] a call may still close. *)
Definition available (p : Pool) (n : string) : nat :=
  length (filter (fun c => state_at p c = free \/ state_at p c = allocated)
                 (slice_at (tokensByNames p) n)).

(** The tokens of name [n] closed on account of [i]. *)
Definition closedNamed (p : Pool) (i n : string) : nat :=
  length (filter (fun c => name_at p c = n) (closedBy p i)).

Definition occurrences (n : string) (names : list string) : nat :=
  length (filter (fun m => m = n) names).

Lemma filter_length_same (P Q : nat -> Prop)
      `{forall x, Decision (P x)} `{forall x, Decision (Q x)} (l : list nat) :
  (forall x, x ∈ l -> P x <-> Q x) ->
  length (filter P l) = length (filter Q l).
Proof.
  induction l as [|x l IH]; intros Hpq; [reflexivity|].
  rewrite !filter_cons.
  assert (Hx : P x <-> Q x) by (apply Hpq; left).
  assert (Hl : length (filter P l) = length (filter Q l)).
  { apply IH. intros y Hy. apply Hpq. right. exact Hy. }
  destruct (decide (P x)), (decide (Q x)); cbn; try tauto; congruence.
Qed.

Lemma filter_length_drop (P Q : nat -> Prop)
      `{forall x, Decision (P x)} `{forall x, Decision (Q x)} (l : list nat) c :
  NoDup l -> c ∈ l -> P c -> ¬ Q c ->
  (forall x, x ∈ l -> x ≠ c -> P x <-> Q x) ->
  length (filter P l) = S (length (filter Q l)).
Proof.
  induction l as [|x l IH]; intros Hnd Hc Hp Hq Hpq; [inversion Hc|].
  apply NoDup_cons in Hnd as [Hx Hnd]. rewrite !filter_cons.
  destruct (decide (x = c)) as [->|Hne].
  - destruct (decide (P c)); [|contradiction].
    destruct (decide (Q c)); [contradiction|]. cbn. f_equal.
    apply filter_length_same. intros y Hy. apply Hpq; [right; exact Hy|].
    intros ->. contradiction.
  - apply elem_of_cons in Hc as [->|Hc]; [congruence|].
    assert (Hl : length (filter P l) = S (length (filter Q l))).
    { apply IH; auto. intros y Hy. apply Hpq. right. exact Hy. }
    assert (Hx' : P x <-> Q x) by (apply Hpq; [left|exact Hne]).
    destruct (decide (P x)), (decide (Q x)); cbn; try tauto; congruence.
Qed.

Lemma available_none p n :
  findToClose p n = None -> available p n = 0.
Proof.
  intros Hf. rewrite findToClose_None in Hf. unfold available.
  rewrite (filter_length_same _ (fun _ => False)).
  - clear Hf. induction (slice_at (tokensByNames p) n) as [|x l IH]; [reflexivity|].
    rewrite filter_cons. destruct (decide False); [contradiction|exact IH].
  - intros x Hx. destruct (Hf x Hx). tauto.
Qed.

Lemma available_closeOne i c p m n :
  wf p -> findToClose p m = Some c ->
  available p n = available (closeOne i c p) n + (if decide (n = m) then 1 else 0).
Proof.
  intros Hwf Hf. pose proof (findToClose_live p m c Hwf Hf) as (Hlv & Hname & Hst).
  apply findToClose_Some in Hf as [Hin _].
  unfold available.
  destruct (closeOne_fields i c p) as (_ & -> & _ & _ & _).
  destruct (decide (n = m)) as [->|Hne].
  - rewrite Nat.add_1_r.
    apply elem_of_slice_at in Hin as (l & Hl & Hin).
    apply (filter_length_drop _ _ _ c); auto.
    + unfold slice_at. rewrite Hl. cbn. eapply wf_byName_nodup; eauto.
    + apply elem_of_slice_at. eauto.
    + rewrite state_at_closeOne_eq by exact Hlv. intros [?|?]; discriminate.
    + intros x _ Hx. rewrite state_at_closeOne_ne by auto. reflexivity.
  - rewrite Nat.add_0_r. apply filter_length_same.
    intros x Hx. rewrite state_at_closeOne_ne; [reflexivity|].
    intros <-. apply elem_of_slice_at in Hx as (l & Hl & Hx).
    destruct (wf_byName p Hwf n l c Hl Hx) as [_ Hn']. congruence.
Qed.

Lemma closedNamed_closeOne i c p n :
  closedNamed (closeOne i c p) i n
  = closedNamed p i n + (if decide (name_at p c = n) then 1 else 0).
Proof.
  unfold closedNamed. rewrite closedBy_closeOne_eq.
  rewrite (filter_length_same _ (fun c => name_at p c = n))
    by (intros x _; rewrite name_at_closeOne; reflexivity).
  rewrite filter_app, length_app. f_equal.
  rewrite filter_cons, filter_nil.
  destruct (decide (name_at p c = n)); reflexivity.
Qed.

(** Along the loop of [Use], the number of tokens of name [n] closed for
    [i] grows by the smaller of the occurrences of [n] in [names] and the
    tokens of name [n] still free or allocated; never for the own name. *)
Lemma closeAll_count i a names p n :
  holding i a p ->
  closedNamed (foldl (closeFor a) p names) i n
  = closedNamed p i n +
    (if decide (n = name_at p a) then 0
     else Nat.min (occurrences n names) (available p n)).
Proof.
  revert p. induction names as [|m names IH]; intros p Hh.
  { cbn [foldl]. unfold occurrences. cbn. destruct (decide _); lia. }
  cbn [foldl]. rewrite (IH _ (holding_closeFor i a m p Hh)). clear IH.
  pose proof (holding_wf _ _ _ Hh) as Hwf.
  unfold occurrences. rewrite filter_cons.
  destruct (closeFor_cases a p m) as [[-> Hc]|(c & Hne & Hf & ->)].
  - destruct (decide (n = name_at p a)) as [Hn|Hn]; [reflexivity|].
    destruct Hc as [->|[_ Hf]].
    + destruct (decide (name_at p a = n)); [congruence|reflexivity].
    + destruct (decide (m = n)) as [->|Hmn]; [|reflexivity].
      rewrite (available_none p n Hf). cbn [length]. lia.
  - destruct (wf_tokens p Hwf i a (holding_tok _ _ _ Hh)) as [_ Hid]. rewrite Hid.
    rewrite name_at_closeOne, closedNamed_closeOne.
    pose proof (findToClose_live p m c Hwf Hf) as (_ & Hname & _).
    rewrite (available_closeOne i c p m n Hwf Hf). rewrite Hname.
    destruct (decide (n = name_at p a)) as [Hn|Hn].
    + destruct (decide (m = n)); [congruence|lia].
    + destruct (decide (m = n)) as [->|Hmn].
      * destruct (decide (n = n)); [|congruence]. cbn [length]. lia.
      * destruct (decide (n = m)); [congruence|]. lia.
Qed.

(** ** The operations on reachable pools *)

Lemma reachable_live p i a : reachable p -> tokens p !! i = Some a -> live p a.
Proof.
  intros Hr Hi. destruct (wf_tokens p (reachable_wf p Hr) i a Hi). assumption.
Qed.

(** Whoever holds a token that is not free has touched the pool. *)
Lemma reachable_dirty p a : reachable p -> state_at p a ≠ free -> dirty p = true.
Proof.
  intros Hr Hst. destruct (dirty p) eqn:Hd; [reflexivity|].
  destruct (wf_clean p (reachable_wf p Hr) Hd) as [_ Hfree].
  exfalso. apply Hst. apply Hfree.
Qed.

Lemma set_dirty_id p : dirty p = true -> set_dirty true p = p.
Proof. destruct p. cbn. intros ->. reflexivity. Qed.

(** What a successful [stopUsing] leaves behind, for the private call and
    the three public ones built on it. *)
Record unwound (i : string) (a : addr) (p q : Pool) : Prop := mkUnwound {
  unwound_self : state_at q a = allocated;
  unwound_siblings : forall c, c ∈ closedBy p i -> state_at q c = free;
  unwound_entry : closedTokens q = delete i (closedTokens p);
  unwound_others : forall b, b ≠ a -> b ∉ closedBy p i -> state_at q b = state_at p b;
  unwound_ids : forall b, id_at q b = id_at p b /\ name_at q b = name_at p b;
  unwound_indices : tokens q = tokens p /\ tokensByNames q = tokensByNames p
}.

Lemma unwound_unwind i a p :
  wf p -> tokens p !! i = Some a -> state_at p a = inUse ->
  unwound i a p (unwind i a (set_dirty true p)).
Proof.
  intros Hwf Hi Ha.
  destruct (unwind_fields i a (set_dirty true p)) as (Et & En & Ec & _ & _ & _).
  constructor.
  - apply (state_at_unwind_self i a (set_dirty true p)).
    + destruct (wf_tokens p Hwf i a Hi). assumption.
    + apply (not_in_closedBy p i a Hwf). congruence.
  - intros c Hc. exact (state_at_unwind_closed i a (set_dirty true p) c Hc).
  - exact Ec.
  - intros b Hne Hb. exact (state_at_unwind_other i a (set_dirty true p) b Hne Hb).
  - intros b. split.
    + exact (id_at_unwind i a (set_dirty true p) b).
    + exact (name_at_unwind i a (set_dirty true p) b).
  - split; assumption.
Qed.

(** C5: [StopUsing] on a known id succeeds exactly when the token is in use;
    then the token ends allocated, every token of its closure set ends free
    whatever it was before being closed, the closure set is removed and the
    listeners are fired; from any other state it fails with a bad-state
    error and only sets the dirty flag. *)
Theorem StopUsing_transitions p i a :
  reachable p -> tokens p !! i = Some a ->
  let r := StopUsing i p in
  (err_of r = None <-> state_at p a = inUse) /\
  (state_at p a = inUse ->
     unwound i a p (pool_of r) /\ closedTokens (pool_of r) !! i = None /\
     fired_of r = listeners p) /\
  (state_at p a ≠ inUse ->
     (exists e, err_of r = Some e /\ kind e = BadState) /\
     pool_of r = set_dirty true p /\ fired_of r = []).
Proof.
  intros Hr Hi r. pose proof (reachable_wf p Hr) as Hwf.
  pose proof (wf_set_dirty p Hwf) as Hwd. subst r. unfold StopUsing.
  destruct (decide (state_at p a = inUse)) as [Ha|Ha].
  - rewrite (stopUsing_wf_inUse i a (set_dirty true p) Hwd Hi Ha).
    cbn [pool_of err_of fired_of].
    split_and!; try tauto. intros _. split_and!; try reflexivity.
    + apply unwound_unwind; assumption.
    + destruct (unwind_fields i a (set_dirty true p)) as (_ & _ & -> & _).
      apply lookup_delete_eq.
  - rewrite (stopUsing_not_inUse i a (set_dirty true p) Hi Ha).
    cbn [pool_of err_of fired_of].
    split_and!.
    + split; [discriminate | intros H; contradiction].
    + intros H. contradiction.
    + intros _. split_and!; try reflexivity. eexists. split; reflexivity.
Qed.

(** C3: [Allocate] on a known id: a free or allocated token ends allocated
    and the call succeeds; an in-use token is stopped first (its closure set
    is freed and removed) and ends allocated, with success; a closed token
    makes the call fail with the closed-token error and nothing but the
    dirty flag changes. *)
Theorem Allocate_transitions p i a :
  reachable p -> tokens p !! i = Some a ->
  let r := Allocate i p in
  (state_at p a = free \/ state_at p a = allocated ->
     err_of r = None /\ state_at (pool_of r) a = allocated /\
     (forall b, b ≠ a -> state_at (pool_of r) b = state_at p b) /\
     closedTokens (pool_of r) = closedTokens p) /\
  (state_at p a = inUse ->
     err_of r = None /\ unwound i a p (pool_of r) /\
     closedTokens (pool_of r) !! i = None) /\
  (state_at p a = closed ->
     (exists e, err_of r = Some e /\ kind e = ClosedToken) /\
     pool_of r = set_dirty true p).
Proof.
  intros Hr Hi r. pose proof (reachable_wf p Hr) as Hwf.
  pose proof (wf_set_dirty p Hwf) as Hwd.
  pose proof (reachable_live p i a Hr Hi) as Hlv. subst r.
  split_and!.
  - intros Hst. rewrite (Allocate_plain i a p Hi Hst). cbn [pool_of err_of fired_of]. split_and!; try reflexivity.
    + apply (state_at_set_state_eq a allocated (set_dirty true p)). exact Hlv.
    + intros b Hne. apply (state_at_set_state_ne a b allocated (set_dirty true p)). auto.
  - intros Hst. rewrite (Allocate_inUse i a p Hi Hst).
    rewrite (stopUsing_wf_inUse i a (set_dirty true p) Hwd Hi Hst).
    cbn [pool_of err_of fired_of].
    split_and!; try reflexivity.
    + apply unwound_unwind; assumption.
    + destruct (unwind_fields i a (set_dirty true p)) as (_ & _ & -> & _).
      apply lookup_delete_eq.
  - intros Hst. rewrite (Allocate_closed i a p Hi Hst). cbn [pool_of err_of fired_of].
    split; [|reflexivity]. eexists. split; reflexivity.
Qed.

(** C4: [Free] on a known id always succeeds: a free or allocated token ends
    free; an in-use token is stopped first (its closure set is freed and
    removed) and then ends free; a closed token stays closed and the pool is
    left exactly as it was. *)
Theorem Free_transitions p i a :
  reachable p -> tokens p !! i = Some a ->
  let r := Free i p in
  err_of r = None /\
  (state_at p a = free \/ state_at p a = allocated ->
     state_at (pool_of r) a = free /\
     (forall b, b ≠ a -> state_at (pool_of r) b = state_at p b) /\
     closedTokens (pool_of r) = closedTokens p) /\
  (state_at p a = inUse ->
     state_at (pool_of r) a = free /\
     (forall c, c ∈ closedBy p i -> state_at (pool_of r) c = free) /\
     closedTokens (pool_of r) = delete i (closedTokens p) /\
     closedTokens (pool_of r) !! i = None /\
     (forall b, b ≠ a -> b ∉ closedBy p i -> state_at (pool_of r) b = state_at p b)) /\
  (state_at p a = closed ->
     state_at (pool_of r) a = closed /\ pool_of r = p).
Proof.
  intros Hr Hi r. pose proof (reachable_wf p Hr) as Hwf.
  pose proof (wf_set_dirty p Hwf) as Hwd.
  pose proof (reachable_live p i a Hr Hi) as Hlv. subst r.
  destruct (state_cases (state_at p a)) as [Hst|[Hst|Hst]].
  - rewrite (Free_plain i a p Hi Hst). cbn [pool_of err_of fired_of].
    split_and!; try reflexivity; try (intros; destruct Hst; congruence).
    intros _. split_and!; try reflexivity.
    + apply (state_at_set_state_eq a free (set_dirty true p)). exact Hlv.
    + intros b Hne. apply (state_at_set_state_ne a b free (set_dirty true p)). auto.
  - rewrite (Free_inUse i a p Hi Hst). cbn zeta.
    rewrite (stopUsing_wf_inUse i a (set_dirty true p) Hwd Hi Hst). cbn [pool_of err_of].
    destruct (unwound_unwind i a p Hwf Hi Hst) as [U1 U2 U3 U4 U5 U6].
    assert (Hla : live (unwind i a (set_dirty true p)) a) by (apply live_unwind; exact Hlv).
    assert (HaL : forall c, c ∈ closedBy p i -> a ≠ c).
    { intros c Hc ->. apply (closedBy_closed p i c Hwf) in Hc. congruence. }
    split_and!; try reflexivity; try (intros [?|?]; congruence);
      try (intros; congruence).
    intros _. split_and!.
    + apply state_at_set_state_eq. exact Hla.
    + intros c Hc. rewrite state_at_set_state_ne by auto. apply U2. exact Hc.
    + rewrite closed_set_state. exact U3.
    + rewrite closed_set_state, U3. apply lookup_delete_eq.
    + intros b Hne Hb. rewrite state_at_set_state_ne by auto. apply U4; assumption.
  - rewrite (Free_closed i a p Hi Hst). cbn [pool_of err_of fired_of].
    assert (Hd : dirty p = true) by (apply (reachable_dirty p a Hr); congruence).
    rewrite (set_dirty_id p Hd).
    split_and!; try reflexivity; try (intros; destruct_or?; congruence).
    intros _. split; [exact Hst | reflexivity].
Qed.

(** *** What the loop of [Use] leaves alone *)

Lemma closeAll_frame i a names p :
  id_at p a = i ->
  let q := foldl (closeFor a) p names in
  tokens q = tokens p /\ tokensByNames q = tokensByNames p /\
  listeners q = listeners p /\ dirty q = dirty p /\
  delete i (closedTokens q) = delete i (closedTokens p) /\
  (forall b, id_at q b = id_at p b /\ name_at q b = name_at p b).
Proof.
  revert p. induction names as [|n names IH]; intros p Hid.
  { cbn. split_and!; auto. }
  cbn zeta. cbn [foldl].
  destruct (closeFor_cases a p n) as [[-> _]|(c & _ & _ & ->)]; [apply IH; exact Hid|].
  rewrite Hid.
  destruct (IH (closeOne i c p)) as (H1 & H2 & H3 & H4 & H5 & H6).
  { rewrite id_at_closeOne. exact Hid. }
  destruct (closeOne_fields i c p) as (E1 & E2 & E3 & E4 & E5).
  split_and!; try congruence.
  - rewrite H5, E5. apply delete_insert_eq.
  - intros b. destruct (H6 b) as [-> ->].
    rewrite id_at_closeOne, name_at_closeOne. auto.
Qed.

(** C7: from a free or allocated token, [Use] followed by [StopUsing]
    succeeds twice, leaves the token allocated (also when it was free),
    frees every token that [Use] put in its closure set (also those that
    were allocated before), and leaves no closure set for the id; the
    closure sets of the other tokens are as before. *)
Theorem Use_StopUsing_round_trip p i a names :
  reachable p -> tokens p !! i = Some a ->
  state_at p a = free \/ state_at p a = allocated ->
  let r1 := Use i names p in
  let r2 := StopUsing i (pool_of r1) in
  err_of r1 = None /\ state_at (pool_of r1) a = inUse /\
  err_of r2 = None /\ state_at (pool_of r2) a = allocated /\
  (forall c, c ∈ closedBy (pool_of r1) i -> state_at (pool_of r2) c = free) /\
  closedTokens (pool_of r2) !! i = None /\
  closedTokens (pool_of r2) = closedTokens p.
Proof.
  intros Hr Hi Hst r1 r2. pose proof (reachable_wf p Hr) as Hwf.
  assert (Hnu : state_at p a ≠ inUse) by (destruct Hst; congruence).
  assert (Hnc : state_at p a ≠ closed) by (destruct Hst; congruence).
  assert (Hh : holding i a (pool_of r1)).
  { subst r1. rewrite (Use_good i a names p Hi Hnu Hnc). cbn [pool_of].
    apply holding_closeAll.
    apply (holding_start i a (set_dirty true p)); auto using wf_set_dirty. }
  destruct Hh as [Hwf1 Hd1 Hi1 Ha1].
  assert (E2 : r2 = mkRet (unwind i a (set_dirty true (pool_of r1))) None
                          (listeners (pool_of r1))).
  { subst r2. unfold StopUsing.
    apply (stopUsing_wf_inUse i a (set_dirty true (pool_of r1)));
      auto using wf_set_dirty. }
  destruct (unwound_unwind i a (pool_of r1) Hwf1 Hi1 Ha1) as [U1 U2 U3 _ _ _].
  rewrite E2. cbn [pool_of err_of].
  split_and!; auto.
  - subst r1. rewrite (Use_good i a names p Hi Hnu Hnc). reflexivity.
  - rewrite U3. apply lookup_delete_eq.
  - rewrite U3. subst r1. rewrite (Use_good i a names p Hi Hnu Hnc). cbn [pool_of].
    destruct (closeAll_frame i a names (set_state a inUse (set_dirty true p)))
      as (_ & _ & _ & _ & -> & _).
    + rewrite id_at_set_state. destruct (wf_tokens p Hwf i a Hi). assumption.
    + apply delete_id. destruct (closedTokens p !! i) as [l|] eqn:Hl; [|reflexivity].
      destruct (wf_owner p Hwf i l Hl) as (b & Hb & Hbs). congruence.
Qed.

(** C9: a call of [Find], [Allocate], [Free], [Use] or [StopUsing] that
    returns an error leaves the pool as it found it but for the dirty flag,
    which it sets: no token, index or closure set changes, and no listener
    is fired. *)
Theorem errors_change_nothing p i names :
  (forall e, (Find i p).2 = inl e -> (Find i p).1 = set_dirty true p) /\
  (forall e, err_of (Allocate i p) = Some e ->
     pool_of (Allocate i p) = set_dirty true p /\ fired_of (Allocate i p) = []) /\
  (forall e, err_of (Free i p) = Some e ->
     pool_of (Free i p) = set_dirty true p /\ fired_of (Free i p) = []) /\
  (forall e, err_of (Use i names p) = Some e ->
     pool_of (Use i names p) = set_dirty true p /\ fired_of (Use i names p) = []) /\
  (forall e, err_of (StopUsing i p) = Some e ->
     pool_of (StopUsing i p) = set_dirty true p /\ fired_of (StopUsing i p) = []).
Proof.
  assert (Hstop : forall q e, err_of (stopUsing i q) = Some e ->
            pool_of (stopUsing i q) = q /\ fired_of (stopUsing i q) = []).
  { intros q e. unfold stopUsing. destruct (find q i) as [e'|a]; [auto|].
    destruct (decide _); [auto|discriminate]. }
  split_and!.
  - intros e. unfold Find. cbn zeta. destruct (find _ i); reflexivity.
  - intros e. unfold Allocate. cbn zeta.
    destruct (find (set_dirty true p) i) as [e'|a]; [auto|].
    destruct (tok_state _); try discriminate; auto. apply Hstop.
  - intros e. unfold Free. cbn zeta.
    destruct (find (set_dirty true p) i) as [e'|a]; [auto|].
    destruct (tok_state _); discriminate.
  - intros e. unfold Use. cbn zeta.
    destruct (find (set_dirty true p) i) as [e'|a]; [auto|].
    destruct (decide _); [auto|discriminate].
  - intros e. unfold StopUsing. apply Hstop.
Qed.

(** *** The dirty flag along a run *)

Definition is_AddListener (o : op) : bool :=
  match o with OpAddListener _ => true | _ => false end.

Lemma dirty_stopUsing i p : dirty p = true -> dirty (pool_of (stopUsing i p)) = true.
Proof.
  intros Hd. unfold stopUsing. destruct (find p i) as [e|a]; [exact Hd|].
  destruct (decide _); [exact Hd|]. cbn [pool_of].
  change (dirty (unwind (id_at p a) a p) = true).
  destruct (unwind_fields (id_at p a) a p) as (_ & _ & _ & _ & -> & _). exact Hd.
Qed.

Lemma dirty_step p o :
  dirty (step p o) = if is_AddListener o then dirty p else true.
Proof.
  destruct o as [toks|l| |i|i|i|i names|i]; cbn [step is_AddListener]; try reflexivity.
  - unfold Restore. destruct (dirty p) eqn:Hd; cbn [pool_of]; [exact Hd|].
    clear Hd. generalize (eq_refl : dirty (set_dirty true p) = true).
    generalize (set_dirty true p) as q. induction toks as [|e toks IH]; intros q Hq.
    + exact Hq.
    + cbn [foldl]. apply IH. unfold restoreName.
      destruct (tokensByNames q !! e.1) as [l|]; [|exact Hq].
      revert q Hq. generalize (e.2) as ids.
      induction l as [|a l IHl]; intros [|j ids] q Hq; try exact Hq.
      rewrite restoreIds_cons. apply IHl. exact Hq.
  - unfold Find. cbn zeta. destruct (find _ i); reflexivity.
  - unfold Allocate. cbn zeta.
    destruct (find (set_dirty true p) i) as [e|a]; [reflexivity|].
    destruct (tok_state _); try reflexivity. apply dirty_stopUsing. reflexivity.
  - unfold Free. cbn zeta.
    destruct (find (set_dirty true p) i) as [e|a]; [reflexivity|].
    destruct (tok_state _); try reflexivity. cbn [pool_of].
    rewrite dirty_set_state. apply dirty_stopUsing. reflexivity.
  - unfold Use. cbn zeta.
    destruct (find (set_dirty true p) i) as [e|a]; [reflexivity|].
    destruct (decide _); [reflexivity|]. cbn [pool_of].
    destruct (closeAll_frame _ a names (set_state a inUse (set_dirty true p)) eq_refl)
      as (_ & _ & _ & -> & _). reflexivity.
  - unfold StopUsing. apply dirty_stopUsing. reflexivity.
Qed.

Lemma dirty_run p ops :
  dirty (run p ops) = dirty p || negb (forallb is_AddListener ops).
Proof.
  unfold run. revert p. induction ops as [|o ops IH]; intros p; cbn [foldl forallb].
  - destruct (dirty p); reflexivity.
  - rewrite IH, dirty_step. destruct (is_AddListener o), (dirty p); cbn;
      try reflexivity; destruct (forallb _ _); reflexivity.
Qed.

Lemma reachable_run p ops : reachable p -> reachable (run p ops).
Proof.
  unfold run. revert p. induction ops as [|o ops IH]; intros p Hr; cbn [foldl]; auto.
  apply IH. apply reach_step. exact Hr.
Qed.

(** C10: [AddListener] appends to the listener list and touches nothing
    else, in particular not the dirty flag; so [Restore] still succeeds on a
    new pool after any number of [AddListener] calls. *)
Theorem AddListener_frame pathJoin NewTokenID cfg (ls : list listener) toks l p :
  (heap (AddListener l p) = heap p /\
   tokens (AddListener l p) = tokens p /\
   tokensByNames (AddListener l p) = tokensByNames p /\
   closedTokens (AddListener l p) = closedTokens p /\
   dirty (AddListener l p) = dirty p /\
   listeners (AddListener l p) = listeners p ++ [l]) /\
  let q := run (NewPool pathJoin NewTokenID cfg) (OpAddListener <$> ls) in
  dirty q = false /\ listeners q = ls /\ err_of (Restore toks q) = None.
Proof.
  split; [split_and!; reflexivity|]. cbn zeta.
  destruct (fresh_NewPool pathJoin NewTokenID cfg) as (_ & _ & _ & Hd & Hl).
  assert (Hq : forall p0,
            dirty (run p0 (OpAddListener <$> ls)) = dirty p0 /\
            listeners (run p0 (OpAddListener <$> ls)) = listeners p0 ++ ls).
  { unfold run. induction ls as [|x ls IH]; intros p0; cbn [fmap list_fmap foldl].
    - rewrite app_nil_r. auto.
    - destruct (IH (step p0 (OpAddListener x))) as [-> ->]. cbn.
      rewrite <- app_assoc. auto. }
  destruct (Hq (NewPool pathJoin NewTokenID cfg)) as [Eq1 Eq2].
  rewrite Hd in Eq1. rewrite Hl in Eq2. split_and!; auto.
  unfold Restore. rewrite Eq1. reflexivity.
Qed.

(** ** The selection policy of [Use], in the words of the specification *)

(** [c] is the first token of [l] in state [s]. *)
Definition first_in_state (p : Pool) (s : state) (l : list addr) (c : addr) : Prop :=
  exists k, l !! k = Some c /\ state_at p c = s /\
            forall j b, j < k -> l !! j = Some b -> state_at p b ≠ s.

(** [c] is the sibling to close for the name [n]: the first free token of
    [tokensByNames n] in insertion order, else the first allocated one. *)
Definition selected (p : Pool) (n : string) (c : addr) : Prop :=
  let l := slice_at (tokensByNames p) n in
  first_in_state p free l c \/
  ((forall b, b ∈ l -> state_at p b ≠ free) /\ first_in_state p allocated l c).

(** No token of name [n] is free or allocated (in particular when the name
    is unknown). *)
Definition nothing_to_close (p : Pool) (n : string) : Prop :=
  forall b, b ∈ slice_at (tokensByNames p) n ->
            state_at p b ≠ free /\ state_at p b ≠ allocated.

(** The pool after the names were gone through for the token filed under
    [i], of name [tn]: the own name is passed over, a name with nothing to
    close is skipped, and otherwise the selected sibling is closed and pushed
    on the closure set of [i]. *)
Inductive closes (i tn : string) : Pool -> list string -> Pool -> Prop :=
| closes_done p : closes i tn p [] p
| closes_own p names q :
    closes i tn p names q -> closes i tn p (tn :: names) q
| closes_skip p n names q :
    n ≠ tn -> nothing_to_close p n ->
    closes i tn p names q -> closes i tn p (n :: names) q
| closes_pick p n c names q :
    n ≠ tn -> selected p n c ->
    closes i tn (closeOne i c p) names q -> closes i tn p (n :: names) q.

Lemma firstInState_complete p s l c :
  first_in_state p s l c -> firstInState (heap p) s l = Some c.
Proof.
  intros (k & Hk & Hs & Hbefore). revert k Hk Hbefore.
  induction l as [|b l IH]; intros k Hk Hbefore; [discriminate|].
  cbn [firstInState]. destruct k as [|k]; cbn in Hk.
  - injection Hk as ->. fold (state_at p c).
    destruct (decide (state_at p c = s)); [reflexivity|contradiction].
  - fold (state_at p b). destruct (decide (state_at p b = s)) as [Hb|Hb].
    + exfalso. apply (Hbefore 0 b); [lia|reflexivity|exact Hb].
    + apply (IH k Hk). intros j d Hj Hd. apply (Hbefore (S j) d); [lia|exact Hd].
Qed.

Lemma findToClose_selected p n c : findToClose p n = Some c <-> selected p n c.
Proof.
  unfold findToClose, selected. cbn zeta. split.
  - destruct (firstInState (heap p) free _) as [x|] eqn:Hfree.
    + intros [= <-]. left. apply firstInState_Some in Hfree. exact Hfree.
    + intros Hal. right. split.
      * apply firstInState_None. exact Hfree.
      * apply firstInState_Some in Hal. exact Hal.
  - intros [Hf|[Hnone Ha]].
    + rewrite (firstInState_complete p free _ c Hf). reflexivity.
    + apply firstInState_None in Hnone. unfold state_at in Hnone. rewrite Hnone.
      apply firstInState_complete. exact Ha.
Qed.

Lemma closes_closeAll i tn a names p :
  id_at p a = i -> name_at p a = tn ->
  closes i tn p names (foldl (closeFor a) p names).
Proof.
  revert p. induction names as [|n names IH]; intros p Hid Hname; cbn [foldl].
  { constructor. }
  destruct (closeFor_cases a p n) as [[-> Hc]|(c & Hne & Hf & ->)].
  - destruct Hc as [->|[Hne Hf]].
    + rewrite Hname. apply closes_own. apply IH; assumption.
    + apply closes_skip; [congruence| |apply IH; assumption].
      exact (proj1 (findToClose_None p n) Hf).
  - rewrite Hid. apply (closes_pick i tn p n c); [congruence| |].
    + apply findToClose_selected. exact Hf.
    + apply IH; [rewrite id_at_closeOne | rewrite name_at_closeOne]; assumption.
Qed.

Lemma closes_functional i tn a names p q :
  id_at p a = i -> name_at p a = tn ->
  closes i tn p names q -> q = foldl (closeFor a) p names.
Proof.
  intros Hid Hname Hc. induction Hc as [p|p names q Hc IH|p n names q Hne Hn Hc IH
                                       |p n c names q Hne Hs Hc IH]; cbn [foldl].
  - reflexivity.
  - rewrite (IH Hid Hname). f_equal. unfold closeFor.
    fold (name_at p a). rewrite Hname.
    destruct (decide (tn = tn)); [reflexivity|congruence].
  - rewrite (IH Hid Hname). f_equal. unfold closeFor.
    fold (name_at p a). rewrite Hname.
    destruct (decide (n = tn)); [congruence|].
    rewrite (proj2 (findToClose_None p n) Hn). reflexivity.
  - rewrite IH.
    + f_equal. unfold closeFor. fold (name_at p a) (id_at p a). rewrite Hname, Hid.
      destruct (decide (n = tn)); [congruence|].
      apply findToClose_selected in Hs. rewrite Hs. reflexivity.
    + rewrite id_at_closeOne. exact Hid.
    + rewrite name_at_closeOne. exact Hname.
Qed.

(** C2: [Use] on a known id fails with a bad-state error when the token is
    in use or closed, and then only the dirty flag is set; otherwise it
    succeeds, the token is in use afterwards, and the pool is the one
    obtained by marking the token in use and going through [names] as
    [closes] describes: for each name other than the token's own at most one
    sibling is closed, the first free one, else the first allocated one, else
    none, and each closed sibling is pushed on the closure set of the id. *)
Theorem Use_closes_siblings p i a names :
  reachable p -> tokens p !! i = Some a ->
  let r := Use i names p in
  let p1 := set_state a inUse (set_dirty true p) in
  (state_at p a = inUse \/ state_at p a = closed ->
     (exists e, err_of r = Some e /\ kind e = BadState) /\
     pool_of r = set_dirty true p /\ fired_of r = []) /\
  (state_at p a ≠ inUse -> state_at p a ≠ closed ->
     err_of r = None /\ state_at (pool_of r) a = inUse /\
     fired_of r = listeners p /\
     closes i (name_at p a) p1 names (pool_of r) /\
     forall q, closes i (name_at p a) p1 names q -> q = pool_of r).
Proof.
  intros Hr Hi r p1. pose proof (reachable_wf p Hr) as Hwf.
  destruct (wf_tokens p Hwf i a Hi) as [Hlv Hid].
  assert (Hid1 : id_at p1 a = i).
  { unfold p1. rewrite id_at_set_state. exact Hid. }
  assert (Hn1 : name_at p1 a = name_at p a).
  { unfold p1. exact (name_at_set_state a a inUse (set_dirty true p)). }
  split.
  - intros Hst. subst r. rewrite (Use_bad i a names p Hi Hst). cbn [pool_of err_of fired_of].
    split_and!; try reflexivity. eexists. split; reflexivity.
  - intros Hnu Hnc. subst r. rewrite (Use_good i a names p Hi Hnu Hnc).
    cbn zeta. cbn [pool_of err_of fired_of]. fold p1.
    assert (Hh : holding i a (foldl (closeFor a) p1 names)).
    { apply holding_closeAll.
      apply (holding_start i a (set_dirty true p)); auto using wf_set_dirty. }
    split_and!.
    + reflexivity.
    + apply (holding_state _ _ _ Hh).
    + destruct (closeAll_frame i a names p1 Hid1) as (_ & _ & -> & _). reflexivity.
    + apply closes_closeAll; assumption.
    + intros q Hq. apply (closes_functional i (name_at p a) a); assumption.
Qed.

(** ** The closure sets of reachable pools *)

(** The three public operations that take a token out of use. *)
Definition leaves (i : string) (o : op) : Prop :=
  o = OpStopUsing i \/ o = OpFree i \/ o = OpAllocate i.

Lemma leave_inUse i a o p :
  wf p -> tokens p !! i = Some a -> state_at p a = inUse -> leaves i o ->
  state_at (step p o) a ≠ inUse /\
  (forall c, c ∈ closedBy p i -> state_at (step p o) c = free) /\
  closedTokens (step p o) !! i = None.
Proof.
  intros Hwf Hi Ha Ho.
  pose proof (wf_set_dirty p Hwf) as Hwd.
  destruct (unwound_unwind i a p Hwf Hi Ha) as [U1 U2 U3 _ _ _].
  assert (Hstop : stopUsing i (set_dirty true p)
                  = mkRet (unwind i a (set_dirty true p)) None (listeners p)).
  { apply (stopUsing_wf_inUse i a (set_dirty true p)); assumption. }
  destruct Ho as [->|[->| ->]]; cbn [step].
  - unfold StopUsing. rewrite Hstop. cbn [pool_of].
    split_and!; [congruence | exact U2 | rewrite U3; apply lookup_delete_eq].
  - rewrite (Free_inUse i a p Hi Ha). cbn zeta. rewrite Hstop. cbn [pool_of].
    split_and!.
    + rewrite state_at_set_state_eq; [discriminate|].
      apply live_unwind. destruct (wf_tokens p Hwf i a Hi). assumption.
    + intros c Hc. rewrite state_at_set_state_ne; [exact (U2 c Hc)|].
      intros ->. apply (closedBy_closed p i c Hwf) in Hc. congruence.
    + rewrite closed_set_state, U3. apply lookup_delete_eq.
  - rewrite (Allocate_inUse i a p Hi Ha), Hstop. cbn [pool_of].
    split_and!; [congruence | exact U2 | rewrite U3; apply lookup_delete_eq].
Qed.

Lemma Use_ok_state i a names p :
  tokens p !! i = Some a -> err_of (Use i names p) = None ->
  state_at p a ≠ inUse /\ state_at p a ≠ closed.
Proof.
  intros Hi Herr.
  destruct (decide (state_at p a = inUse \/ state_at p a = closed)) as [Hb|Hg].
  - rewrite (Use_bad i a names p Hi Hb) in Herr. discriminate.
  - tauto.
Qed.

Lemma no_closure_unless_inUse i a p :
  wf p -> tokens p !! i = Some a -> state_at p a ≠ inUse -> closedTokens p !! i = None.
Proof.
  intros Hwf Hi Ha. destruct (closedTokens p !! i) as [l|] eqn:Hl; [|reflexivity].
  destruct (wf_owner p Hwf i l Hl) as (b & Hb & Hbs). congruence.
Qed.

(** C1, as the code has it: in every reachable pool the tokens recorded in
    the closure set of an in-use token are closed, every closed token is in
    the closure set of exactly one id, and in it once.  A successful
    [Use i names] puts the token in use and closes, for each name [n] other
    than its own, as many tokens of name [n] as [n] occurs in [names] or as
    are free or allocated, whichever is less (so none when nothing of that
    name is free or allocated), all recorded in the closure set of [i].
    When the token leaves the in-use state through [StopUsing], [Free] or
    [Allocate], every token of its closure set is free again and the set is
    gone. *)
Theorem closure_invariant p :
  reachable p ->
  (forall a c, state_at p a = inUse -> c ∈ closedBy p (id_at p a) ->
               state_at p c = closed) /\
  (forall c, state_at p c = closed ->
     exists k, c ∈ closedBy p k /\ forall k', c ∈ closedBy p k' -> k' = k) /\
  (forall k, NoDup (closedBy p k)) /\
  (forall i a names,
     tokens p !! i = Some a -> err_of (Use i names p) = None ->
     let q := pool_of (Use i names p) in
     state_at q a = inUse /\
     (forall c, c ∈ closedBy q i -> state_at q c = closed) /\
     (forall n, closedNamed q i n =
                if decide (n = name_at p a) then 0
                else Nat.min (occurrences n names) (available p n))) /\
  (forall i a o,
     tokens p !! i = Some a -> state_at p a = inUse -> leaves i o ->
     state_at (step p o) a ≠ inUse /\
     (forall c, c ∈ closedBy p i -> state_at (step p o) c = free) /\
     closedTokens (step p o) !! i = None).
Proof.
  intros Hr. pose proof (reachable_wf p Hr) as Hwf. split_and!.
  - intros a c _ Hc. eapply closedBy_closed; eauto.
  - intros c Hc. destruct (wf_closed_owned p Hwf c Hc) as (k & l & Hk & Hin).
    exists k. split; [apply elem_of_slice_at; eauto|].
    intros k' Hin'. apply elem_of_slice_at in Hin' as (l' & Hk' & Hin').
    eapply wf_closed_disj; eauto.
  - intros k. unfold closedBy, slice_at.
    destruct (closedTokens p !! k) as [l|] eqn:Hk; cbn; [|constructor].
    eapply wf_closed_nodup; eauto.
  - intros i a names Hi Herr q.
    destruct (Use_ok_state i a names p Hi Herr) as [Hnu Hnc].
    destruct (wf_tokens p Hwf i a Hi) as [Hlv Hid].
    set (p1 := set_state a inUse (set_dirty true p)).
    assert (Hh1 : holding i a p1).
    { apply (holding_start i a (set_dirty true p)); auto using wf_set_dirty. }
    assert (Eq : q = foldl (closeFor a) p1 names).
    { unfold q. rewrite (Use_good i a names p Hi Hnu Hnc). reflexivity. }
    pose proof (holding_closeAll i a names p1 Hh1) as Hh. rewrite <- Eq in Hh.
    split_and!.
    + apply (holding_state _ _ _ Hh).
    + intros c Hc. apply (closedBy_closed q i c (holding_wf _ _ _ Hh) Hc).
    + intros n. rewrite Eq, (closeAll_count i a names p1 n Hh1).
      assert (E0 : closedNamed p1 i n = 0).
      { unfold closedNamed, closedBy, slice_at, p1. rewrite closed_set_state.
        change (closedTokens (set_dirty true p)) with (closedTokens p).
        rewrite (no_closure_unless_inUse i a p Hwf Hi Hnu). reflexivity. }
      assert (Hn1 : name_at p1 a = name_at p a).
      { exact (name_at_set_state a a inUse (set_dirty true p)). }
      rewrite E0, Hn1.
      destruct (decide (n = name_at p a)) as [Hn|Hn]; [reflexivity|].
      cbn [Nat.add]. f_equal. unfold available, p1.
      rewrite byNames_set_state.
      change (tokensByNames (set_dirty true p)) with (tokensByNames p).
      apply filter_length_same. intros x Hx.
      rewrite state_at_set_state_ne; [reflexivity|].
      intros <-. apply elem_of_slice_at in Hx as (l & Hl & Hx).
      destruct (wf_byName p Hwf n l a Hl Hx) as [_ Hname]. congruence.
  - intros i a o Hi Ha Ho. apply leave_inUse; assumption.
Qed.

(** ** Worked pools *)

(** [path.Join] on two plain segments, and identifiers [t0], [t1], ... *)
Definition demoJoin (d c : string) : string := d +:+ "/" +:+ c.
Definition demoID (k : nat) : string := "t" +:+ pretty k.

(** One physical function with two virtual functions, capabilities
    [intel] and [10G], service domains [d1] and [d2]: eight tokens. *)
Definition demoCfg : Config :=
  mkConfig [mkPF ["d1"; "d2"] ["intel"; "10G"] ["0000:01:00.1"; "0000:01:00.2"]].

Definition demoNames : list string := ["d1/intel"; "d1/10G"; "d2/intel"; "d2/10G"].

Definition demoNew : Pool := NewPool demoJoin demoID demoCfg.

(** [t0] allocated, then used under all four names: [t2], [t4] and [t6]
    are closed on its account. *)
Definition demoUsed : Pool :=
  step (step demoNew (OpAllocate "t0")) (OpUse "t0" demoNames).

(** One physical function with a single virtual function, advertised under
    the names [d/x] and [d/y]: two tokens, [t0] and [t1], for one slot. *)
Definition oneVF : Config := mkConfig [mkPF ["d"] ["x"; "y"] ["0000:01:00.1"]].

(** [t1] of name [d/y] is put in use with no names given. *)
Definition oneVFUsed : Pool :=
  step (NewPool demoJoin demoID oneVF) (OpUse "t1" []).

(** The number of physical VF slots of a configuration. *)
Definition vfSlots (cfg : Config) : nat :=
  foldr (fun pf k => length (VirtualFunctions pf) + k) 0 (PhysicalFunctions cfg).

(** The number of tokens in use. *)
Definition inUseCount (p : Pool) : nat :=
  length (filter (fun t => tok_state t = inUse) (heap p)).

(** C1, counterexample: with a single virtual function advertised as [d/x]
    and [d/y], once [t1] is in use, [Use t0 [d/x; d/y]] succeeds although no
    token of the other name [d/y] is closed or recorded for [t0] (not
    exactly one), and both tokens of the one slot are in use. *)
Lemma closure_exactly_one_counterexample :
  let r := Use "t0" ["d/x"; "d/y"] oneVFUsed in
  reachable oneVFUsed /\
  tokens oneVFUsed !! "t0" = Some 0 /\
  err_of r = None /\
  state_at (pool_of r) 0 = inUse /\
  name_at (pool_of r) 0 = "d/x" /\
  slice_at (tokensByNames (pool_of r)) "d/y" = [1] /\
  state_at (pool_of r) 1 = inUse /\
  closedBy (pool_of r) "t0" = [] /\
  closedNamed (pool_of r) "t0" "d/y" ≠ 1 /\
  vfSlots oneVF = 1 /\
  inUseCount (pool_of r) = 2.
Proof.
  cbn zeta. split; [exact (reach_step _ _ (reach_new demoJoin demoID oneVF))|].
  split_and!; try (vm_compute; reflexivity).
  vm_compute. discriminate.
Qed.

(** ** The theorems at the worked pools *)

Ltac demo_reach :=
  first [ exact (reach_new demoJoin demoID demoCfg)
        | exact (reach_step _ _ (reach_step _ _ (reach_new demoJoin demoID demoCfg))) ].

(** [closure_invariant] at [demoUsed]: the closure set of [t0]. *)
Lemma closure_invariant_witness :
  reachable demoUsed /\
  (forall c, c ∈ closedBy demoUsed "t0" -> state_at demoUsed c = closed) /\
  NoDup (closedBy demoUsed "t0").
Proof.
  split; [demo_reach|].
  destruct (closure_invariant demoUsed ltac:(demo_reach)) as (H1 & _ & H3 & _).
  split; [exact (fun c => H1 0 c eq_refl) | exact (H3 "t0")].
Defined.

(** [Use_closes_siblings] at the new pool, for the free token [t0]. *)
Lemma Use_closes_siblings_witness :
  reachable demoNew /\ tokens demoNew !! "t0" = Some 0 /\
  state_at demoNew 0 ≠ inUse /\ state_at demoNew 0 ≠ closed /\
  err_of (Use "t0" demoNames demoNew) = None /\
  state_at (pool_of (Use "t0" demoNames demoNew)) 0 = inUse.
Proof.
  assert (H1 : state_at demoNew 0 ≠ inUse) by (vm_compute; discriminate).
  assert (H2 : state_at demoNew 0 ≠ closed) by (vm_compute; discriminate).
  split; [demo_reach|]. split; [reflexivity|]. split; [exact H1|]. split; [exact H2|].
  destruct (Use_closes_siblings demoNew "t0" 0 demoNames ltac:(demo_reach) eq_refl)
    as [_ Hgood].
  destruct (Hgood H1 H2) as (E1 & E2 & _). split; [exact E1 | exact E2].
Defined.

(** [Allocate_transitions] at [demoUsed], for the closed token [t2]. *)
Lemma Allocate_transitions_witness :
  reachable demoUsed /\ tokens demoUsed !! "t2" = Some 2 /\
  state_at demoUsed 2 = closed /\
  pool_of (Allocate "t2" demoUsed) = set_dirty true demoUsed.
Proof.
  split; [demo_reach|]. split; [reflexivity|]. split; [reflexivity|].
  destruct (Allocate_transitions demoUsed "t2" 2 ltac:(demo_reach) eq_refl)
    as (_ & _ & Hclosed).
  destruct (Hclosed eq_refl) as [_ E]. exact E.
Defined.

(** [Free_transitions] at [demoUsed], for the in-use token [t0]. *)
Lemma Free_transitions_witness :
  reachable demoUsed /\ tokens demoUsed !! "t0" = Some 0 /\
  state_at demoUsed 0 = inUse /\
  err_of (Free "t0" demoUsed) = None /\
  state_at (pool_of (Free "t0" demoUsed)) 0 = free.
Proof.
  split; [demo_reach|]. split; [reflexivity|]. split; [reflexivity|].
  destruct (Free_transitions demoUsed "t0" 0 ltac:(demo_reach) eq_refl)
    as (E & _ & Hused & _).
  destruct (Hused eq_refl) as [E' _]. split; [exact E | exact E'].
Defined.

(** [StopUsing_transitions] at [demoUsed], for the in-use token [t0]. *)
Lemma StopUsing_transitions_witness :
  reachable demoUsed /\ tokens demoUsed !! "t0" = Some 0 /\
  state_at demoUsed 0 = inUse /\
  unwound "t0" 0 demoUsed (pool_of (StopUsing "t0" demoUsed)).
Proof.
  split; [demo_reach|]. split; [reflexivity|]. split; [reflexivity|].
  destruct (StopUsing_transitions demoUsed "t0" 0 ltac:(demo_reach) eq_refl)
    as (_ & Hused & _).
  destruct (Hused eq_refl) as [U _]. exact U.
Defined.

(** [Use_StopUsing_round_trip] at the new pool, for the free token [t0]. *)
Lemma Use_StopUsing_round_trip_witness :
  reachable demoNew /\ tokens demoNew !! "t0" = Some 0 /\
  (state_at demoNew 0 = free \/ state_at demoNew 0 = allocated) /\
  state_at (pool_of (StopUsing "t0" (pool_of (Use "t0" demoNames demoNew)))) 0
  = allocated /\
  closedTokens (pool_of (StopUsing "t0" (pool_of (Use "t0" demoNames demoNew))))
  = closedTokens demoNew.
Proof.
  split; [demo_reach|]. split; [reflexivity|]. split; [left; reflexivity|].
  destruct (Use_StopUsing_round_trip demoNew "t0" 0 demoNames
              ltac:(demo_reach) eq_refl (or_introl eq_refl))
    as (_ & _ & _ & E & _ & _ & E').
  split; [exact E | exact E'].
Defined.

(** [errors_change_nothing] at [demoUsed]: [Allocate] of the closed token [t2]. *)
Lemma errors_change_nothing_witness :
  err_of (Allocate "t2" demoUsed) = Some (ErrClosed "d1/10G" "t2") /\
  pool_of (Allocate "t2" demoUsed) = set_dirty true demoUsed /\
  fired_of (Allocate "t2" demoUsed) = [].
Proof.
  assert (E : err_of (Allocate "t2" demoUsed) = Some (ErrClosed "d1/10G" "t2")).
  { vm_compute. reflexivity. }
  split; [exact E|].
  destruct (errors_change_nothing demoUsed "t2" []) as (_ & Halloc & _).
  exact (Halloc _ E).
Defined.

(** ** What no operation does *)

Lemma restoreIds_frame toks ids p :
  let q := restoreIds toks ids p in
  length (heap q) = length (heap p) /\
  tokensByNames q = tokensByNames p /\
  closedTokens q = closedTokens p /\
  listeners q = listeners p /\
  (forall b, name_at q b = name_at p b).
Proof.
  revert ids p. induction toks as [|a toks IH]; intros ids p.
  { cbn. split_and!; done. }
  destruct ids as [|i ids].
  { cbn. split_and!; done. }
  rewrite restoreIds_cons. cbn zeta.
  destruct (IH ids (restoreStep a i p)) as (H1 & H2 & H3 & H4 & H5).
  destruct (restoreStep_fields a i p) as (E1 & E2 & E3 & _ & E5).
  split_and!; try congruence.
  intros b. rewrite H5. apply name_at_restoreStep.
Qed.

Lemma restoreAll_frame toks p :
  let q := foldl restoreName p toks in
  length (heap q) = length (heap p) /\
  tokensByNames q = tokensByNames p /\
  closedTokens q = closedTokens p /\
  listeners q = listeners p /\
  (forall b, name_at q b = name_at p b).
Proof.
  revert p. induction toks as [|e toks IH]; intros p.
  { cbn. split_and!; done. }
  cbn zeta.
  change (foldl restoreName p (e :: toks))
    with (foldl restoreName (restoreName p e) toks).
  destruct (IH (restoreName p e)) as (H1 & H2 & H3 & H4 & H5).
  assert (He : length (heap (restoreName p e)) = length (heap p) /\
               tokensByNames (restoreName p e) = tokensByNames p /\
               closedTokens (restoreName p e) = closedTokens p /\
               listeners (restoreName p e) = listeners p /\
               (forall b, name_at (restoreName p e) b = name_at p b)).
  { unfold restoreName. destruct (tokensByNames p !! e.1) as [l|].
    - apply restoreIds_frame.
    - split_and!; done. }
  destruct He as (E1 & E2 & E3 & E4 & E5).
  split_and!; try congruence.
Qed.

Lemma closeAll_length a names p :
  length (heap (foldl (closeFor a) p names)) = length (heap p).
Proof.
  revert p. induction names as [|n names IH]; intros p; [reflexivity|].
  cbn [foldl]. rewrite IH.
  destruct (closeFor_cases a p n) as [[-> _]|(c & _ & _ & ->)]; [reflexivity|].
  cbn. apply length_alter.
Qed.

(** The part of the pool no call of [stopUsing] changes. *)
Record same_tokens (p q : Pool) : Prop := mkSame {
  same_length : length (heap q) = length (heap p);
  same_names : forall b, name_at q b = name_at p b;
  same_ids : forall b, id_at q b = id_at p b;
  same_byId : tokens q = tokens p;
  same_byName : tokensByNames q = tokensByNames p
}.

Lemma same_tokens_refl p : same_tokens p p.
Proof. constructor; reflexivity. Qed.

Lemma same_tokens_trans p q r : same_tokens p q -> same_tokens q r -> same_tokens p r.
Proof.
  intros [A1 A2 A3 A4 A5] [B1 B2 B3 B4 B5].
  constructor; congruence.
Qed.

Lemma same_tokens_set_state a s p : same_tokens p (set_state a s p).
Proof.
  constructor; try reflexivity.
  - cbn. apply length_alter.
  - intros b. apply name_at_set_state.
  - intros b. apply id_at_set_state.
Qed.

Lemma same_tokens_set_dirty b p : same_tokens p (set_dirty b p).
Proof. constructor; reflexivity. Qed.

Lemma same_tokens_unwind i a p : same_tokens p (unwind i a p).
Proof.
  destruct (unwind_fields i a p) as (Et & En & _ & _ & _ & El).
  constructor; auto.
  - intros b. apply name_at_unwind.
  - intros b. apply id_at_unwind.
Qed.

Lemma same_tokens_stopUsing i p : same_tokens p (pool_of (stopUsing i p)).
Proof.
  unfold stopUsing. destruct (find p i) as [e|a]; [apply same_tokens_refl|].
  destruct (decide _); [apply same_tokens_refl|]. cbn [pool_of].
  exact (same_tokens_unwind (id_at p a) a p).
Qed.

Lemma same_tokens_closeAll a names p :
  same_tokens p (foldl (closeFor a) p names).
Proof.
  destruct (closeAll_frame (id_at p a) a names p eq_refl) as (H1 & H2 & _ & _ & _ & H6).
  constructor; auto.
  - apply closeAll_length.
  - intros b. apply (H6 b).
  - intros b. apply (H6 b).
Qed.

Definition is_Restore (o : op) : bool :=
  match o with OpRestore _ => true | _ => false end.

Lemma same_tokens_step p o : is_Restore o = false -> same_tokens p (step p o).
Proof.
  destruct o as [toks|l| |i|i|i|i names|i]; cbn [is_Restore step]; intros Ho;
    try discriminate.
  - constructor; reflexivity.
  - apply same_tokens_set_dirty.
  - unfold Find. cbn zeta. destruct (find _ i); apply same_tokens_set_dirty.
  - unfold Allocate. cbn zeta.
    apply (same_tokens_trans _ _ _ (same_tokens_set_dirty true p)).
    destruct (find (set_dirty true p) i) as [e|a]; [apply same_tokens_refl|].
    destruct (tok_state _); cbn [pool_of];
      first [ apply same_tokens_set_state | apply same_tokens_stopUsing
            | apply same_tokens_refl ].
  - unfold Free. cbn zeta.
    apply (same_tokens_trans _ _ _ (same_tokens_set_dirty true p)).
    destruct (find (set_dirty true p) i) as [e|a]; [apply same_tokens_refl|].
    destruct (tok_state _); cbn [pool_of];
      first [ apply same_tokens_set_state | apply same_tokens_refl | idtac ].
    eapply same_tokens_trans; [apply same_tokens_stopUsing | apply same_tokens_set_state].
  - unfold Use. cbn zeta.
    apply (same_tokens_trans _ _ _ (same_tokens_set_dirty true p)).
    destruct (find (set_dirty true p) i) as [e|a]; [apply same_tokens_refl|].
    destruct (decide _); cbn [pool_of]; [apply same_tokens_refl|].
    eapply same_tokens_trans; [apply same_tokens_set_state | apply same_tokens_closeAll].
  - unfold StopUsing.
    apply (same_tokens_trans _ _ _ (same_tokens_set_dirty true p)).
    apply same_tokens_stopUsing.
Qed.

(** X1: tokens are never created, destroyed, renamed or moved between names
    by any public operation, on any pool; and every operation other than
    [Restore] also leaves each token's id and the index by id as they
    were. *)
Theorem tokens_are_stable p o :
  length (heap (step p o)) = length (heap p) /\
  (forall b, name_at (step p o) b = name_at p b) /\
  tokensByNames (step p o) = tokensByNames p /\
  (is_Restore o = false ->
     (forall b, id_at (step p o) b = id_at p b) /\ tokens (step p o) = tokens p).
Proof.
  destruct (is_Restore o) eqn:Ho.
  - destruct o as [toks| | | | | | |]; try discriminate. cbn [step].
    unfold Restore. destruct (dirty p); cbn [pool_of].
    + split_and!; try reflexivity. discriminate.
    + destruct (restoreAll_frame toks (set_dirty true p)) as (H1 & H2 & _ & _ & H5).
      split_and!; auto. discriminate.
  - destruct (same_tokens_step p o Ho) as [H1 H2 H3 H4 H5].
    split_and!; auto.
Qed.

(** ** The pool [NewPool] builds *)

(** The tokens a configuration asks for under the name [m], and in all. *)
Definition tokensFor (pathJoin : string -> string -> string) (m : string)
           (pf : PhysicalFunction) : nat :=
  sum_list ((fun sd =>
     sum_list ((fun cap =>
        if decide (pathJoin sd cap = m) then length (VirtualFunctions pf) else 0)
        <$> Capabilities pf))
     <$> ServiceDomains pf).

Definition tokensOfPF (pf : PhysicalFunction) : nat :=
  length (ServiceDomains pf) * (length (Capabilities pf) * length (VirtualFunctions pf)).

Section NewPool_shape.

Variable pathJoin : string -> string -> string.
Variable NewTokenID : nat -> string.

Lemma addToken_counts n m p :
  length (heap (addToken NewTokenID n p)) = S (length (heap p)) /\
  length (slice_at (tokensByNames (addToken NewTokenID n p)) m)
  = length (slice_at (tokensByNames p) m) + (if decide (n = m) then 1 else 0).
Proof.
  split.
  - cbn. rewrite length_app. cbn. lia.
  - unfold slice_at at 1. cbn [tokensByNames addToken tok_name].
    destruct (decide (n = m)) as [<-|Hne].
    + rewrite lookup_insert_eq. cbn. rewrite length_app. reflexivity.
    + rewrite lookup_insert_ne by exact Hne. unfold slice_at. lia.
Qed.

Lemma iter_addToken_counts k n m p :
  length (heap (Nat.iter k (addToken NewTokenID n) p)) = length (heap p) + k /\
  length (slice_at (tokensByNames (Nat.iter k (addToken NewTokenID n) p)) m)
  = length (slice_at (tokensByNames p) m) + (if decide (n = m) then k else 0).
Proof.
  induction k as [|k [IH1 IH2]].
  - cbn. destruct (decide (n = m)); lia.
  - rewrite Nat.iter_succ.
    destruct (addToken_counts n m (Nat.iter k (addToken NewTokenID n) p)) as [-> ->].
    rewrite IH1, IH2. destruct (decide (n = m)); lia.
Qed.

Lemma addPF_counts m pf p :
  let q := addPF pathJoin NewTokenID p pf in
  length (heap q) = length (heap p) + tokensOfPF pf /\
  length (slice_at (tokensByNames q) m)
  = length (slice_at (tokensByNames p) m) + tokensFor pathJoin m pf.
Proof.
  unfold addPF, tokensOfPF, tokensFor. cbn zeta.
  generalize (VirtualFunctions pf) as vfs. generalize (Capabilities pf) as caps.
  generalize (ServiceDomains pf) as sds. intros sds caps vfs. revert p.
  induction sds as [|sd sds IH]; intros p.
  { cbn. lia. }
  cbn [foldl fmap list_fmap sum_list sum_list_with length].
  match goal with |- context [foldl ?f (foldl ?g p caps) sds] =>
    destruct (IH (foldl g p caps)) as [-> ->] end.
  clear IH.
  assert (Hcaps : forall p0,
     length (heap (foldl (fun p1 capability =>
        Nat.iter (length vfs) (addToken NewTokenID (pathJoin sd capability)) p1) p0 caps))
     = length (heap p0) + length caps * length vfs /\
     length (slice_at (tokensByNames (foldl (fun p1 capability =>
        Nat.iter (length vfs) (addToken NewTokenID (pathJoin sd capability)) p1) p0 caps)) m)
     = length (slice_at (tokensByNames p0) m)
       + sum_list ((fun cap => if decide (pathJoin sd cap = m) then length vfs else 0)
                     <$> caps)).
  { induction caps as [|cap caps IHc]; intros p0.
    - cbn. lia.
    - cbn [foldl fmap list_fmap sum_list sum_list_with length].
      destruct (IHc (Nat.iter (length vfs) (addToken NewTokenID (pathJoin sd cap)) p0))
        as [-> ->].
      destruct (iter_addToken_counts (length vfs) (pathJoin sd cap) m p0) as [-> ->].
      unfold id. split; [nia | lia]. }
  destruct (Hcaps p) as [-> ->]. unfold id. split; [nia | lia].
Qed.

(** X2: [NewPool] creates one token per physical function, service domain,
    capability and virtual function: the arena holds that many tokens, each
    name holds as many as the configuration asks for under it, every token
    is free, no closure set exists, no listener is registered and the pool
    is not dirty. *)
Theorem NewPool_counts cfg m :
  let p := NewPool pathJoin NewTokenID cfg in
  length (heap p) = sum_list (tokensOfPF <$> PhysicalFunctions cfg) /\
  length (slice_at (tokensByNames p) m)
  = sum_list (tokensFor pathJoin m <$> PhysicalFunctions cfg) /\
  (forall a, state_at p a = free) /\
  closedTokens p = ∅ /\ listeners p = [] /\ dirty p = false.
Proof.
  cbn zeta.
  destruct (fresh_NewPool pathJoin NewTokenID cfg) as (_ & Hc & Hst & Hd & Hl).
  split_and!; auto.
  - unfold NewPool.
    assert (H : forall p, length (heap (foldl (addPF pathJoin NewTokenID) p
                                               (PhysicalFunctions cfg)))
                          = length (heap p) + sum_list (tokensOfPF <$> PhysicalFunctions cfg)).
    { induction (PhysicalFunctions cfg) as [|pf pfs IH]; intros p.
      - cbn. lia.
      - cbn [foldl fmap list_fmap sum_list sum_list_with]. rewrite IH.
        destruct (addPF_counts m pf p) as [-> _]. unfold id. lia. }
    rewrite H. reflexivity.
  - unfold NewPool.
    assert (H : forall p,
      length (slice_at (tokensByNames (foldl (addPF pathJoin NewTokenID) p
                                             (PhysicalFunctions cfg))) m)
      = length (slice_at (tokensByNames p) m)
        + sum_list (tokensFor pathJoin m <$> PhysicalFunctions cfg)).
    { induction (PhysicalFunctions cfg) as [|pf pfs IH]; intros p.
      - cbn. lia.
      - cbn [foldl fmap list_fmap sum_list sum_list_with]. rewrite IH.
        destruct (addPF_counts m pf p) as [_ ->]. unfold id. lia. }
    rewrite H. reflexivity.
Qed.

End NewPool_shape.

(** ** [Find] and [Tokens] *)

(** Every token of the arena is filed under its name. *)
Definition listed (p : Pool) : Prop :=
  forall a, live p a -> a ∈ slice_at (tokensByNames p) (name_at p a).

Lemma listed_addToken NewTokenID n p :
  listed p -> listed (addToken NewTokenID n p).
Proof.
  intros Hl a Ha. apply live_addToken in Ha as [Ha| ->].
  - unfold name_at. rewrite deref_addToken_old by exact Ha.
    fold (name_at p a). specialize (Hl a Ha).
    unfold slice_at at 1. cbn [tokensByNames addToken tok_name].
    destruct (decide (n = name_at p a)) as [->|Hne].
    + rewrite lookup_insert_eq. cbn. apply elem_of_app. left. exact Hl.
    + rewrite lookup_insert_ne by exact Hne. exact Hl.
  - unfold name_at. rewrite deref_addToken_new. cbn [tok_name].
    unfold slice_at at 1. cbn [tokensByNames addToken tok_name].
    rewrite lookup_insert_eq. cbn. apply elem_of_app. right. left.
Qed.

Lemma listed_NewPool pathJoin NewTokenID cfg :
  listed (NewPool pathJoin NewTokenID cfg).
Proof.
  unfold NewPool.
  assert (H0 : listed emptyPool).
  { intros a Ha. unfold live in Ha. cbn in Ha. lia. }
  revert H0. generalize emptyPool as p.
  induction (PhysicalFunctions cfg) as [|pf pfs IH]; intros p Hp; cbn [foldl]; auto.
  apply IH. clear IH. unfold addPF.
  revert p Hp. induction (ServiceDomains pf) as [|sd sds IH]; intros p Hp;
    cbn [foldl]; auto.
  apply IH. clear IH.
  revert p Hp. induction (Capabilities pf) as [|cap caps IH]; intros p Hp;
    cbn [foldl]; auto.
  apply IH. clear IH.
  induction (length (VirtualFunctions pf)) as [|k IH]; [exact Hp|].
  rewrite Nat.iter_succ. apply listed_addToken. exact IH.
Qed.

Lemma names_step p o :
  length (heap (step p o)) = length (heap p) /\
  (forall b, name_at (step p o) b = name_at p b) /\
  tokensByNames (step p o) = tokensByNames p.
Proof.
  destruct (is_Restore o) eqn:Ho.
  - destruct o as [toks| | | | | | |]; try discriminate. cbn [step].
    unfold Restore. destruct (dirty p); cbn [pool_of].
    + split_and!; reflexivity.
    + destruct (restoreAll_frame toks (set_dirty true p)) as (H1 & H2 & _ & _ & H5).
      split_and!; auto.
  - destruct (same_tokens_step p o Ho) as [H1 H2 H3 H4 H5].
    split_and!; auto.
Qed.

Lemma reachable_listed p : reachable p -> listed p.
Proof.
  induction 1 as [pj nid cfg | p o Hr IH].
  - apply listed_NewPool.
  - destruct (names_step p o) as (H1 & H2 & H3).
    intros a Ha. unfold live in Ha. rewrite H1 in Ha.
    rewrite H2, H3. apply IH. exact Ha.
Qed.

(** The map [Tokens] builds for one name. *)
Definition availability (p : Pool) (toks : list addr) : gmap string bool :=
  foldl (fun m a => let tok := deref (heap p) a in
                    <[tok_id tok := bool_decide (tok_state tok ≠ closed)]> m)
        ∅ toks.

Lemma tokensOf_lookup p n :
  tokensOf p !! n = availability p <$> tokensByNames p !! n.
Proof. unfold tokensOf. rewrite lookup_fmap. reflexivity. Qed.

Lemma availability_fold p l (m0 : gmap string bool) k :
  let m := foldl (fun m a => let tok := deref (heap p) a in
                    <[tok_id tok := bool_decide (tok_state tok ≠ closed)]> m) m0 l in
  (k ∉ id_at p <$> l -> m !! k = m0 !! k) /\
  (k ∈ id_at p <$> l -> is_Some (m !! k)) /\
  (forall a, NoDup (id_at p <$> l) -> a ∈ l -> k = id_at p a ->
             m !! k = Some (bool_decide (state_at p a ≠ closed))).
Proof.
  cbn zeta. revert m0. induction l as [|b l IH]; intros m0.
  { cbn. split_and!; auto.
    - intros H. inversion H.
    - intros a _ H. inversion H. }
  cbn [foldl]. rewrite fmap_cons.
  fold (id_at p b) (state_at p b).
  destruct (IH (<[id_at p b := bool_decide (state_at p b ≠ closed)]> m0))
    as (I1 & I2 & I3).
  split_and!.
  - intros Hk. apply not_elem_of_cons in Hk as [Hne Hk].
    rewrite (I1 Hk). apply lookup_insert_ne. auto.
  - intros Hk. destruct (decide (k ∈ id_at p <$> l)) as [Hin|Hnin]; [auto|].
    apply elem_of_cons in Hk as [->|Hk]; [|contradiction].
    rewrite (I1 Hnin), lookup_insert_eq. eauto.
  - intros a Hnd Ha ->. apply NoDup_cons in Hnd as [Hb Hnd].
    apply elem_of_cons in Ha as [->|Ha].
    + rewrite (I1 Hb). apply lookup_insert_eq.
    + apply (I3 a Hnd Ha eq_refl).
Qed.

(** X3: in a reachable pool, when [Find] returns a name for an id, the
    token of that id is filed under that name and [Tokens] lists the id
    under that name. *)
Theorem Find_agrees_with_Tokens p i n :
  reachable p -> (Find i p).2 = inr n ->
  exists a l m,
    tokens p !! i = Some a /\ name_at p a = n /\
    tokensByNames p !! n = Some l /\ a ∈ l /\
    (Tokens p).2 !! n = Some m /\ is_Some (m !! i).
Proof.
  intros Hr. unfold Find, find. cbn zeta. cbn [tokens set_dirty heap].
  destruct (tokens p !! i) as [a|] eqn:Hi; cbn [snd]; [|discriminate].
  intros [= Hn]. fold (name_at p a) in Hn.
  destruct (wf_tokens p (reachable_wf p Hr) i a Hi) as [Hlv Hid].
  pose proof (reachable_listed p Hr a Hlv) as Hin. rewrite Hn in Hin.
  apply elem_of_slice_at in Hin as (l & Hl & Hin).
  exists a, l, (availability p l). split_and!; auto.
  - cbn [Tokens snd]. rewrite tokensOf_lookup, Hl. reflexivity.
  - destruct (availability_fold p l ∅ i) as (_ & H2 & _). apply H2.
    rewrite <- Hid. apply list_elem_of_fmap. exists a. auto.
Qed.

(** X4: [Tokens] has an entry exactly for the names of the pool; under a
    name whose tokens carry distinct ids, each token's id is marked
    available exactly when the token is not closed, and no other id is
    listed. *)
Theorem Tokens_availability p n :
  ((Tokens p).2 !! n = None <-> tokensByNames p !! n = None) /\
  (forall l, tokensByNames p !! n = Some l -> NoDup (id_at p <$> l) ->
     exists m, (Tokens p).2 !! n = Some m /\
       (forall a, a ∈ l ->
          m !! id_at p a = Some (bool_decide (state_at p a ≠ closed))) /\
       (forall k, is_Some (m !! k) -> k ∈ id_at p <$> l)).
Proof.
  cbn [Tokens snd]. rewrite tokensOf_lookup. split.
  - destruct (tokensByNames p !! n); cbn; split; intros; congruence.
  - intros l Hl Hnd. rewrite Hl. exists (availability p l). split_and!; auto.
    + intros a Ha. destruct (availability_fold p l ∅ (id_at p a)) as (_ & _ & H3).
      apply (H3 a Hnd Ha eq_refl).
    + intros k Hk. destruct (decide (k ∈ id_at p <$> l)) as [Hin|Hnin]; [exact Hin|].
      destruct (availability_fold p l ∅ k) as (H1 & _ & _).
      pose proof (H1 Hnin : availability p l !! k = (∅ : gmap string bool) !! k) as E.
      destruct Hk as [x Hx]. rewrite E, lookup_empty in Hx. discriminate.
Qed.

(** ** Closed tokens *)

Lemma closeAll_keeps_closed a names p c :
  state_at p c = closed -> state_at (foldl (closeFor a) p names) c = closed.
Proof.
  revert p. induction names as [|n names IH]; intros p Hc; [exact Hc|].
  cbn [foldl]. apply IH.
  destruct (closeFor_cases a p n) as [[-> _]|(x & _ & Hf & ->)]; [exact Hc|].
  rewrite state_at_closeOne_ne; [exact Hc|].
  apply findToClose_Some in Hf as [_ Hx]. intros ->. destruct Hx; congruence.
Qed.

Lemma stopUsing_other i a p c :
  wf p -> tokens p !! i = Some a -> state_at p a = inUse ->
  state_at p c = closed -> c ∉ closedBy p i ->
  state_at (unwind i a (set_dirty true p)) c = closed.
Proof.
  intros Hwf Hi Ha Hc Hnin.
  rewrite (state_at_unwind_other i a (set_dirty true p) c); auto.
  intros ->. congruence.
Qed.

(** X5: in a reachable pool a closed token stays closed through every
    public operation, except that it becomes free when the in-use token on
    whose account it was closed is stopped, freed or allocated. *)
Theorem closed_until_owner_leaves p o c :
  reachable p -> state_at p c = closed ->
  state_at (step p o) c = closed \/
  (state_at (step p o) c = free /\
   exists i a, tokens p !! i = Some a /\ state_at p a = inUse /\
               c ∈ closedBy p i /\ leaves i o).
Proof.
  intros Hr Hc. pose proof (reachable_wf p Hr) as Hwf.
  pose proof (wf_set_dirty p Hwf) as Hwd.
  assert (Hleave : forall i a, tokens p !! i = Some a -> state_at p a = inUse ->
            leaves i o -> c ∈ closedBy p i ->
            state_at (step p o) c = free /\
            exists i a, tokens p !! i = Some a /\ state_at p a = inUse /\
                        c ∈ closedBy p i /\ leaves i o).
  { intros i a Hi Ha Ho Hin.
    destruct (leave_inUse i a o p Hwf Hi Ha Ho) as (_ & Hfree & _).
    split; [apply Hfree; exact Hin|]. exists i, a. auto. }
  destruct o as [toks|l| |i|i|i|i names|i]; cbn [step].
  - left. rewrite Restore_dirty; [exact Hc|].
    apply (reachable_dirty p c Hr). congruence.
  - left. exact Hc.
  - left. exact Hc.
  - left. unfold Find. cbn zeta. destruct (find _ i); exact Hc.
  - destruct (tokens p !! i) as [a|] eqn:Hi.
    + destruct (state_cases (state_at p a)) as [Hst|[Hst|Hst]].
      * left. rewrite (Allocate_plain i a p Hi Hst). cbn [pool_of].
        rewrite state_at_set_state_ne; [exact Hc|]. intros ->. destruct Hst; congruence.
      * destruct (decide (c ∈ closedBy p i)) as [Hin|Hnin].
        -- right. apply (Hleave i a Hi Hst); [right; right; reflexivity | exact Hin].
        -- left. rewrite (Allocate_inUse i a p Hi Hst).
           rewrite (stopUsing_wf_inUse i a (set_dirty true p) Hwd Hi Hst). cbn [pool_of].
           apply stopUsing_other; assumption.
      * left. rewrite (Allocate_closed i a p Hi Hst). exact Hc.
    + left. rewrite (Allocate_unknown i p Hi). exact Hc.
  - destruct (tokens p !! i) as [a|] eqn:Hi.
    + destruct (state_cases (state_at p a)) as [Hst|[Hst|Hst]].
      * left. rewrite (Free_plain i a p Hi Hst). cbn [pool_of].
        rewrite state_at_set_state_ne; [exact Hc|]. intros ->. destruct Hst; congruence.
      * destruct (decide (c ∈ closedBy p i)) as [Hin|Hnin].
        -- right. apply (Hleave i a Hi Hst); [right; left; reflexivity | exact Hin].
        -- left. rewrite (Free_inUse i a p Hi Hst). cbn zeta.
           rewrite (stopUsing_wf_inUse i a (set_dirty true p) Hwd Hi Hst). cbn [pool_of].
           rewrite state_at_set_state_ne; [apply stopUsing_other; assumption|].
           intros ->. congruence.
      * left. rewrite (Free_closed i a p Hi Hst). exact Hc.
    + left. rewrite (Free_unknown i p Hi). exact Hc.
  - left. destruct (tokens p !! i) as [a|] eqn:Hi.
    + destruct (decide (state_at p a = inUse \/ state_at p a = closed)) as [Hb|Hg].
      * rewrite (Use_bad i a names p Hi Hb). exact Hc.
      * rewrite (Use_good i a names p Hi) by tauto. cbn [pool_of].
        apply closeAll_keeps_closed.
        rewrite state_at_set_state_ne; [exact Hc|]. intros ->. tauto.
    + rewrite (Use_unknown i names p Hi). exact Hc.
  - unfold StopUsing. destruct (tokens p !! i) as [a|] eqn:Hi.
    + destruct (decide (state_at p a = inUse)) as [Hst|Hst].
      * destruct (decide (c ∈ closedBy p i)) as [Hin|Hnin].
        -- right. apply (Hleave i a Hi Hst); [left; reflexivity | exact Hin].
        -- left. rewrite (stopUsing_wf_inUse i a (set_dirty true p) Hwd Hi Hst).
           cbn [pool_of]. apply stopUsing_other; assumption.
      * left. rewrite (stopUsing_not_inUse i a (set_dirty true p) Hi Hst). exact Hc.
    + left. rewrite (stopUsing_unknown i (set_dirty true p) Hi). exact Hc.
Qed.

(** ** Laws of [Allocate] and [Free] *)

Lemma set_state_twice a s t p : set_state a t (set_state a s p) = set_state a t p.
Proof.
  unfold set_state, set_heap. cbn. f_equal.
  rewrite list_alter_alter_eq. apply list_alter_ext; reflexivity.
Qed.

(** X6: [Free] is idempotent on a known id of a reachable pool: freeing
    again succeeds and leaves the pool exactly as the first [Free] left
    it. *)
Theorem Free_idempotent p i a :
  reachable p -> tokens p !! i = Some a ->
  let q := pool_of (Free i p) in
  Free i q = mkRet q None [].
Proof.
  intros Hr Hi q. pose proof (reachable_wf p Hr) as Hwf.
  pose proof (wf_set_dirty p Hwf) as Hwd.
  pose proof (reachable_live p i a Hr Hi) as Hlv.
  assert (Hq : tokens q !! i = Some a).
  { destruct (same_tokens_step p (OpFree i) eq_refl) as [_ _ _ Ht _].
    cbn [step] in Ht. unfold q. rewrite Ht. exact Hi. }
  assert (Hd : dirty q = true) by exact (dirty_step p (OpFree i)).
  destruct (state_cases (state_at p a)) as [Hst|[Hst|Hst]].
  - assert (Eq : q = set_state a free (set_dirty true p)).
    { unfold q. rewrite (Free_plain i a p Hi Hst). reflexivity. }
    assert (Hf : state_at q a = free).
    { rewrite Eq. apply (state_at_set_state_eq a free (set_dirty true p)). exact Hlv. }
    rewrite (Free_plain i a q Hq (or_introl Hf)). f_equal.
    rewrite (set_dirty_id q Hd), Eq. apply set_state_twice.
  - assert (Eq : q = set_state a free (unwind i a (set_dirty true p))).
    { unfold q. rewrite (Free_inUse i a p Hi Hst). cbn zeta.
      rewrite (stopUsing_wf_inUse i a (set_dirty true p) Hwd Hi Hst). reflexivity. }
    assert (Hf : state_at q a = free).
    { rewrite Eq. apply state_at_set_state_eq. apply live_unwind. exact Hlv. }
    rewrite (Free_plain i a q Hq (or_introl Hf)). f_equal.
    rewrite (set_dirty_id q Hd), Eq. apply set_state_twice.
  - assert (Eq : q = set_dirty true p).
    { unfold q. rewrite (Free_closed i a p Hi Hst). reflexivity. }
    assert (Hf : state_at q a = closed) by (rewrite Eq; exact Hst).
    rewrite (Free_closed i a q Hq Hf). f_equal. apply set_dirty_id. exact Hd.
Qed.

(** X7: on a known id of a reachable pool whose token is not closed,
    [Allocate] followed by [Free] succeeds twice and leaves the token free,
    with no closure set for the id; and [Allocate] is idempotent. *)
Theorem Allocate_then_Free p i a :
  reachable p -> tokens p !! i = Some a -> state_at p a ≠ closed ->
  let r1 := Allocate i p in
  let r2 := Free i (pool_of r1) in
  err_of r1 = None /\ state_at (pool_of r1) a = allocated /\
  err_of r2 = None /\ state_at (pool_of r2) a = free /\
  closedTokens (pool_of r2) !! i = None /\
  Allocate i (pool_of r1) = mkRet (pool_of r1) None [].
Proof.
  intros Hr Hi Hnc r1 r2. pose proof (reachable_wf p Hr) as Hwf.
  pose proof (wf_set_dirty p Hwf) as Hwd.
  pose proof (reachable_live p i a Hr Hi) as Hlv.
  set (q := pool_of r1).
  assert (Hq : tokens q !! i = Some a).
  { destruct (same_tokens_step p (OpAllocate i) eq_refl) as [_ _ _ Ht _].
    cbn [step] in Ht. unfold q, r1. rewrite Ht. exact Hi. }
  assert (Hd : dirty q = true) by exact (dirty_step p (OpAllocate i)).
  assert (Hlq : live q a).
  { destruct (same_tokens_step p (OpAllocate i) eq_refl) as [Hlen _ _ _ _].
    unfold live, q, r1. cbn [step] in Hlen. rewrite Hlen. exact Hlv. }
  assert (H1 : err_of r1 = None /\ state_at q a = allocated /\
               closedTokens q !! i = None).
  { unfold q, r1. destruct (state_cases (state_at p a)) as [Hst|[Hst|Hst]].
    - rewrite (Allocate_plain i a p Hi Hst). cbn [pool_of err_of]. split_and!; auto.
      + apply (state_at_set_state_eq a allocated (set_dirty true p)). exact Hlv.
      + rewrite closed_set_state.
        apply (no_closure_unless_inUse i a p Hwf Hi). destruct Hst; congruence.
    - rewrite (Allocate_inUse i a p Hi Hst).
      rewrite (stopUsing_wf_inUse i a (set_dirty true p) Hwd Hi Hst).
      cbn [pool_of err_of].
      destruct (unwound_unwind i a p Hwf Hi Hst) as [U1 _ U3 _ _ _].
      split_and!; auto. rewrite U3. apply lookup_delete_eq.
    - contradiction. }
  destruct H1 as (E1 & Ha & Hc).
  split_and!; auto.
  - unfold r2. fold q. rewrite (Free_plain i a q Hq (or_intror Ha)). reflexivity.
  - unfold r2. fold q. rewrite (Free_plain i a q Hq (or_intror Ha)). cbn [pool_of].
    apply (state_at_set_state_eq a free (set_dirty true q)). exact Hlq.
  - unfold r2. fold q. rewrite (Free_plain i a q Hq (or_intror Ha)). cbn [pool_of].
    rewrite closed_set_state. exact Hc.
  - fold q. rewrite (Allocate_plain i a q Hq (or_intror Ha)). f_equal.
    rewrite (set_dirty_id q Hd).
    unfold set_state, set_heap. destruct q as [h t bn ct ls d]. cbn in *. f_equal.
    apply list_eq. intros j. destruct (decide (a = j)) as [<-|Hne].
    + rewrite list_lookup_alter_eq. unfold state_at, deref in Ha. cbn in Ha.
      destruct (h !! a) as [[ti tn ts]|] eqn:E; cbn in *; [|reflexivity].
      rewrite Ha. reflexivity.
    + apply list_lookup_alter_ne. exact Hne.
Qed.

(** ** Listeners *)


(** ** [Restore] and the index by id *)

(** [i] is filed for the token at [a], and no other token carries it. *)
Definition owns (p : Pool) (i : string) (a : addr) : Prop :=
  tokens p !! i = Some a /\ forall b, live p b -> id_at p b = i -> b = a.

(** None of the ids [J] is carried by a token. *)
Definition unused (p : Pool) (J : list string) : Prop :=
  forall j b, j ∈ J -> live p b -> id_at p b ≠ j.

Lemma tokens_restoreStep a i p :
  tokens (restoreStep a i p) = <[i := a]> (delete (id_at p a) (tokens p)).
Proof. reflexivity. Qed.

Lemma owns_restoreStep_keep p i a a' i' :
  owns p i a -> live p a' -> a' ≠ a -> i' ≠ i -> owns (restoreStep a' i' p) i a.
Proof.
  intros [Ht Hu] Hlv Hne Hi. split.
  - rewrite tokens_restoreStep, lookup_insert_ne by exact Hi.
    rewrite lookup_delete_ne; [exact Ht|].
    intros E. apply Hne. apply Hu; assumption.
  - intros b Hb. rewrite live_restoreStep in Hb.
    destruct (decide (a' = b)) as [<-|Hnb].
    + rewrite id_at_restoreStep_eq by exact Hlv. congruence.
    + rewrite id_at_restoreStep_ne by exact Hnb. apply Hu. exact Hb.
Qed.

Lemma owns_restoreStep_set p a i :
  live p a -> (forall b, live p b -> id_at p b ≠ i) -> owns (restoreStep a i p) i a.
Proof.
  intros Hlv Hfresh. split.
  - rewrite tokens_restoreStep. apply lookup_insert_eq.
  - intros b Hb. rewrite live_restoreStep in Hb.
    destruct (decide (a = b)) as [<-|Hnb]; [reflexivity|].
    rewrite id_at_restoreStep_ne by exact Hnb. intros E.
    exfalso. apply (Hfresh b Hb E).
Qed.

Lemma unused_restoreStep p J a i :
  unused p J -> i ∉ J -> unused (restoreStep a i p) J.
Proof.
  intros Hu Hi j b Hj Hb. rewrite live_restoreStep in Hb.
  destruct (decide (a = b)) as [<-|Hnb].
  - rewrite id_at_restoreStep_eq by exact Hb. intros <-. contradiction.
  - rewrite id_at_restoreStep_ne by exact Hnb. apply Hu; assumption.
Qed.

Lemma owns_restoreIds_keep l ids p i a :
  owns p i a -> a ∉ l -> i ∉ ids -> (forall b, b ∈ l -> live p b) ->
  owns (restoreIds l ids p) i a.
Proof.
  revert ids p. induction l as [|a' l IH]; intros ids p Ho Ha Hi Hlv; [exact Ho|].
  destruct ids as [|i' ids]; [exact Ho|].
  rewrite restoreIds_cons.
  apply not_elem_of_cons in Ha as [Hne Ha]. apply not_elem_of_cons in Hi as [Hni Hi].
  apply IH; auto.
  - apply owns_restoreStep_keep; auto. apply Hlv. left.
  - intros b Hb. rewrite live_restoreStep. apply Hlv. right. exact Hb.
Qed.

Lemma unused_restoreIds l ids p J :
  unused p J -> (forall j, j ∈ J -> j ∉ ids) -> unused (restoreIds l ids p) J.
Proof.
  revert ids p. induction l as [|a' l IH]; intros ids p Hu Hd; [exact Hu|].
  destruct ids as [|i' ids]; [exact Hu|].
  rewrite restoreIds_cons. apply IH.
  - apply unused_restoreStep; [exact Hu|]. intros Hin. apply (Hd i' Hin). left.
  - intros j Hj Hin. apply (Hd j Hj). right. exact Hin.
Qed.

Lemma owns_restoreIds_set l ids p k a i :
  NoDup l -> NoDup ids -> (forall b, b ∈ l -> live p b) -> unused p ids ->
  l !! k = Some a -> ids !! k = Some i ->
  owns (restoreIds l ids p) i a.
Proof.
  revert ids p k. induction l as [|a' l IH]; intros ids p k Hnl Hni Hlv Hu Ha Hi;
    [discriminate|].
  destruct ids as [|i' ids]; [discriminate|].
  rewrite restoreIds_cons.
  apply NoDup_cons in Hnl as [Ha' Hnl]. apply NoDup_cons in Hni as [Hi' Hni].
  assert (Hlv' : forall b, b ∈ l -> live (restoreStep a' i' p) b).
  { intros b Hb. rewrite live_restoreStep. apply Hlv. right. exact Hb. }
  destruct k as [|k]; cbn in Ha, Hi.
  - injection Ha as ->. injection Hi as ->.
    apply owns_restoreIds_keep; auto.
    apply owns_restoreStep_set; [apply Hlv; left|].
    intros b Hb. apply (Hu i b); [left | exact Hb].
  - apply (IH ids (restoreStep a' i' p) k); auto.
    apply unused_restoreStep; [|exact Hi'].
    intros j b Hj Hb. apply (Hu j b); [right; exact Hj | exact Hb].
Qed.

Lemma byName_live p n l b :
  indexed p -> tokensByNames p !! n = Some l -> b ∈ l -> live p b /\ name_at p b = n.
Proof. intros (_ & Hn & _) Hl Hb. exact (Hn n l b Hl Hb). Qed.

Lemma owns_restoreAll_keep toks p i a :
  indexed p -> quiet p -> owns p i a ->
  name_at p a ∉ toks.*1 -> i ∉ concat toks.*2 ->
  owns (foldl restoreName p toks) i a.
Proof.
  revert p. induction toks as [|e toks IH]; intros p Hix Hq Ho Hn Hi; [exact Ho|].
  cbn [foldl]. rewrite fmap_cons in Hn. rewrite fmap_cons in Hi. cbn [concat] in Hi.
  apply not_elem_of_cons in Hn as [Hne Hn]. apply not_elem_of_app in Hi as [Hie Hi].
  destruct (restoreName_keeps e p Hix Hq) as (H1 & H2 & _ & _ & _ & _ & H7 & _).
  apply IH; auto; [|rewrite H7; exact Hn].
  unfold restoreName. destruct (tokensByNames p !! e.1) as [l|] eqn:Hl; [|exact Ho].
  apply owns_restoreIds_keep; auto.
  - intros Hin. destruct (byName_live p e.1 l a Hix Hl Hin) as [_ E]. congruence.
  - intros b Hb. destruct (byName_live p e.1 l b Hix Hl Hb). assumption.
Qed.

Lemma unused_restoreName e p J :
  unused p J -> (forall j, j ∈ J -> j ∉ e.2) -> unused (restoreName p e) J.
Proof.
  intros Hu Hd. unfold restoreName.
  destruct (tokensByNames p !! e.1) as [l|]; [|exact Hu].
  apply unused_restoreIds; assumption.
Qed.

Lemma NoDup_app_disjoint (l k : list string) j :
  NoDup (l ++ k) -> j ∈ l -> j ∉ k.
Proof. intros Hnd Hj. apply NoDup_app in Hnd as (_ & Hd & _). apply Hd. exact Hj. Qed.

Lemma owns_restoreAll_set toks p n ids l k a i :
  indexed p -> quiet p -> NoDup toks.*1 -> NoDup (concat toks.*2) ->
  unused p (concat toks.*2) ->
  (n, ids) ∈ toks -> tokensByNames p !! n = Some l ->
  l !! k = Some a -> ids !! k = Some i ->
  owns (foldl restoreName p toks) i a.
Proof.
  revert p. induction toks as [|e toks IH];
    intros p Hix Hq Hnn Hni Hu Hin Hl Ha Hi; [inversion Hin|].
  cbn [foldl]. rewrite fmap_cons in Hnn. rewrite fmap_cons in Hni.
  rewrite fmap_cons in Hu. cbn [concat] in Hni, Hu.
  apply NoDup_cons in Hnn as [Hfresh Hnn].
  destruct (restoreName_keeps e p Hix Hq) as (H1 & H2 & H3 & _ & _ & _ & H7 & _).
  apply elem_of_cons in Hin as [<-|Hin].
  - cbn [fst snd] in *.
    pose proof (byName_live p n l a Hix Hl (list_elem_of_lookup_2 _ _ _ Ha)) as [_ Hname].
    apply owns_restoreAll_keep; auto.
    + unfold restoreName. cbn [fst snd]. rewrite Hl.
      apply (owns_restoreIds_set l ids p k); auto.
      * destruct Hix as (_ & _ & Hnd). eapply Hnd; eauto.
      * apply NoDup_app in Hni as (Hn1 & _). exact Hn1.
      * intros b Hb. destruct (byName_live p n l b Hix Hl Hb). assumption.
      * intros j b Hj Hb. apply (Hu j b); [apply elem_of_app; left; exact Hj | exact Hb].
    + rewrite H7, Hname. exact Hfresh.
    + apply (NoDup_app_disjoint ids _ i Hni). eapply list_elem_of_lookup_2; eauto.
  - apply (IH (restoreName p e)); auto.
    + apply NoDup_app in Hni as (_ & _ & Hn2). exact Hn2.
    + apply unused_restoreName.
      * intros j b Hj Hb. apply (Hu j b); [apply elem_of_app; right; exact Hj | exact Hb].
      * intros j Hj Hje. apply (NoDup_app_disjoint e.2 _ j Hni Hje Hj).
    + rewrite H3. exact Hl.
Qed.

(** X9: on a pool not yet touched, when the ids given to [Restore] are all
    distinct and none of them is carried by a token of the pool, each given
    id that replaces a token's id is then filed for that token alone, and
    [Find] of it returns the token's name. *)
Theorem Restore_then_Find p toks n ids l k a i :
  reachable p -> dirty p = false ->
  NoDup toks.*1 -> NoDup (concat toks.*2) -> unused p (concat toks.*2) ->
  (n, ids) ∈ toks -> tokensByNames p !! n = Some l ->
  l !! k = Some a -> ids !! k = Some i ->
  let q := pool_of (Restore toks p) in
  tokens q !! i = Some a /\
  (forall b, live q b -> id_at q b = i -> b = a) /\
  (Find i q).2 = inr n.
Proof.
  intros Hr Hd Hnn Hni Hu Hin Hl Ha Hi q.
  pose proof (reachable_wf p Hr) as Hwf.
  assert (Hix : indexed (set_dirty true p)) by apply (wf_indexed _ (wf_set_dirty p Hwf)).
  assert (Hq : quiet (set_dirty true p)) by apply (wf_quiet p Hwf Hd).
  assert (Ho : owns q i a).
  { unfold q. rewrite (Restore_clean toks p Hd). cbn [pool_of].
    apply (owns_restoreAll_set toks (set_dirty true p) n ids l k a i); auto. }
  destruct Ho as [Ht Hu']. split_and!; auto.
  unfold Find, find. cbn zeta. cbn [tokens set_dirty heap]. rewrite Ht. cbn [snd].
  f_equal. fold (name_at q a).
  destruct (restoreAll_keeps toks (set_dirty true p) Hix Hq)
    as (_ & _ & _ & _ & _ & _ & H7 & _).
  unfold q. rewrite (Restore_clean toks p Hd). cbn [pool_of]. rewrite H7.
  destruct (byName_live (set_dirty true p) n l a Hix Hl
              (list_elem_of_lookup_2 _ _ _ Ha)) as [_ Hname].
  exact Hname.
Qed.

(** ** [Restore], in full *)

Lemma id_at_restoreStep_cases a i p b :
  id_at (restoreStep a i p) b = id_at p b \/ id_at (restoreStep a i p) b = i.
Proof.
  destruct (decide (a = b)) as [<-|Hne].
  - destruct (decide (a < length (heap p))) as [Hlt|Hge].
    + right. apply id_at_restoreStep_eq. exact Hlt.
    + left. unfold id_at. cbn [heap restoreStep set_tokens set_heap].
      rewrite list_insert_ge by lia. reflexivity.
  - left. apply id_at_restoreStep_ne. exact Hne.
Qed.

Lemma id_at_restoreIds_cases l ids p b :
  id_at (restoreIds l ids p) b = id_at p b \/ id_at (restoreIds l ids p) b ∈ ids.
Proof.
  revert ids p. induction l as [|a l IH]; intros ids p; [left; reflexivity|].
  destruct ids as [|i ids]; [left; reflexivity|].
  rewrite restoreIds_cons.
  destruct (IH ids (restoreStep a i p)) as [->|Hin].
  - destruct (id_at_restoreStep_cases a i p b) as [->| ->]; [left; reflexivity|].
    right. left.
  - right. right. exact Hin.
Qed.

Lemma id_at_restoreAll_cases toks p b :
  id_at (foldl restoreName p toks) b = id_at p b \/
  id_at (foldl restoreName p toks) b ∈ concat toks.*2.
Proof.
  revert p. induction toks as [|e toks IH]; intros p; [left; reflexivity|].
  cbn [foldl]. rewrite fmap_cons. cbn [concat].
  destruct (IH (restoreName p e)) as [->|Hin].
  - unfold restoreName. destruct (tokensByNames p !! e.1) as [l|]; [|left; reflexivity].
    destruct (id_at_restoreIds_cases l e.2 p b) as [->|Hin]; [left; reflexivity|].
    right. apply elem_of_app. left. exact Hin.
  - right. apply elem_of_app. right. exact Hin.
Qed.

Lemma owns_restoreIds_keep_take l ids p i a :
  owns p i a -> a ∉ take (length ids) l -> i ∉ ids ->
  (forall b, b ∈ l -> live p b) ->
  owns (restoreIds l ids p) i a.
Proof.
  revert ids p. induction l as [|a' l IH]; intros ids p Ho Ha Hi Hlv; [exact Ho|].
  destruct ids as [|i' ids]; [exact Ho|].
  rewrite restoreIds_cons. cbn [length take] in Ha.
  apply not_elem_of_cons in Ha as [Hne Ha]. apply not_elem_of_cons in Hi as [Hni Hi].
  apply IH; auto.
  - apply owns_restoreStep_keep; auto. apply Hlv. left.
  - intros b Hb. rewrite live_restoreStep. apply Hlv. right. exact Hb.
Qed.

Lemma elem_of_concat_intro (x : string) (l : list string) (ls : list (list string)) :
  x ∈ l -> l ∈ ls -> x ∈ concat ls.
Proof.
  intros Hx. induction ls as [|l' ls IH]; intros Hl; [inversion Hl|].
  cbn [concat]. apply elem_of_app. apply elem_of_cons in Hl as [<-|Hl]; auto.
Qed.

(** The tokens whose id [Restore] replaces: those within the first
    [length ids] of the list of a given name. *)
Definition restored (p : Pool) (toks : list (string * list string)) (a : addr) : Prop :=
  exists n ids l, (n, ids) ∈ toks /\ tokensByNames p !! n = Some l /\
                  a ∈ take (length ids) l.

Lemma owns_restoreAll_keep_take toks p i a :
  indexed p -> quiet p -> owns p i a ->
  ¬ restored p toks a -> i ∉ concat toks.*2 ->
  owns (foldl restoreName p toks) i a.
Proof.
  revert p. induction toks as [|[n ids] toks IH]; intros p Hix Hq Ho Hnr Hi; [exact Ho|].
  cbn [foldl]. rewrite fmap_cons in Hi. cbn [concat snd] in Hi.
  apply not_elem_of_app in Hi as [Hie Hi].
  destruct (restoreName_keeps (n, ids) p Hix Hq) as (H1 & H2 & H3 & _).
  apply IH; auto.
  - unfold restoreName. cbn [fst snd].
    destruct (tokensByNames p !! n) as [l|] eqn:Hl; [|exact Ho].
    apply owns_restoreIds_keep_take; auto.
    + intros Hin. apply Hnr. exists n, ids, l. split_and!; auto. left.
    + intros b Hb. destruct (byName_live p n l b Hix Hl Hb). assumption.
  - intros (n' & ids' & l' & Hin & Hl' & Ha). apply Hnr.
    exists n', ids', l'. split_and!; auto.
    + right. exact Hin.
    + rewrite <- H3. exact Hl'.
Qed.

(** C6: on a pool built by [NewPool] and then driven by the operations
    [ops], [Restore] succeeds exactly when [ops] holds nothing but
    [AddListener] calls.  When it succeeds, for each entry [(n, ids)] of the
    given map whose name is in the pool, the token at position [k] of
    [tokensByNames n] gets the identifier [ids !! k] and the state allocated
    as long as [k] is below both lengths, and is left as it was from
    [length ids] on; the pool is dirty afterwards.  The index by id follows:
    every entry of it points at a token carrying that id; and when the given
    ids are distinct and carried by no token, each given id that replaced a
    token's id is filed for that token and found by [Find], the id it
    replaced is no longer known (when no other token carried it), and the
    entries of the tokens that were not replaced are kept.  When [Restore]
    fails, the error is the already-accessed one and the pool is unchanged.
    In both cases any further [Restore] fails the same way and changes
    nothing. *)
Theorem Restore_once pathJoin NewTokenID cfg ops toks :
  let p := run (NewPool pathJoin NewTokenID cfg) ops in
  let r := Restore toks p in
  (err_of r = None <-> forallb is_AddListener ops = true) /\
  (err_of r = None ->
     dirty (pool_of r) = true /\
     tokensByNames (pool_of r) = tokensByNames p /\
     (NoDup toks.*1 ->
      forall n ids l k a,
        (n, ids) ∈ toks -> tokensByNames p !! n = Some l -> l !! k = Some a ->
        (forall i, ids !! k = Some i ->
           heap (pool_of r) !! a = Some (mkToken i n allocated)) /\
        (length ids <= k -> heap (pool_of r) !! a = heap p !! a))) /\
  (err_of r = None ->
     (forall k b, tokens (pool_of r) !! k = Some b ->
                  live (pool_of r) b /\ id_at (pool_of r) b = k) /\
     (NoDup toks.*1 -> NoDup (concat toks.*2) -> unused p (concat toks.*2) ->
      (forall n ids l k a i,
         (n, ids) ∈ toks -> tokensByNames p !! n = Some l ->
         l !! k = Some a -> ids !! k = Some i ->
         tokens (pool_of r) !! i = Some a /\
         (Find i (pool_of r)).2 = inr n /\
         ((forall b, live p b -> id_at p b = id_at p a -> b = a) ->
          tokens (pool_of r) !! id_at p a = None /\
          (Find (id_at p a) (pool_of r)).2 = inl (ErrNotExist (id_at p a)))) /\
      (forall k b,
         tokens p !! k = Some b ->
         (forall b', live p b' -> id_at p b' = k -> b' = b) ->
         ¬ restored p toks b ->
         tokens (pool_of r) !! k = Some b /\ id_at (pool_of r) b = k))) /\
  (err_of r ≠ None ->
     err_of r = Some ErrAccessed /\ kind ErrAccessed = AlreadyDirty /\ pool_of r = p) /\
  (forall toks',
     Restore toks' (pool_of r) = mkRet (pool_of r) (Some ErrAccessed) []).
Proof.
  intros p r.
  assert (Hr : reachable p) by (apply reachable_run; constructor).
  pose proof (reachable_wf p Hr) as Hwf.
  assert (Hdp : dirty p = negb (forallb is_AddListener ops)).
  { subst p. rewrite dirty_run.
    destruct (fresh_NewPool pathJoin NewTokenID cfg) as (_ & _ & _ & -> & _).
    reflexivity. }
  destruct (dirty p) eqn:Hd.
  - subst r. rewrite (Restore_dirty toks p Hd). cbn [pool_of err_of].
    split_and!; try discriminate.
    + split; [discriminate|]. intros H. rewrite H in Hdp. discriminate.
    + intros _. split_and!; reflexivity.
    + intros toks'. apply Restore_dirty. exact Hd.
  - assert (Hix : indexed (set_dirty true p)).
    { apply (wf_indexed _ (wf_set_dirty p Hwf)). }
    assert (Hq : quiet (set_dirty true p)) by apply (wf_quiet p Hwf Hd).
    pose proof (wf_Restore toks p Hwf) as Hwfq.
    subst r. rewrite (Restore_clean toks p Hd) in *. cbn [pool_of err_of] in *.
    set (q := foldl restoreName (set_dirty true p) toks) in *.
    destruct (restoreAll_keeps toks (set_dirty true p) Hix Hq)
      as (_ & _ & H3 & _ & H5 & H6 & H7 & _).
    fold q in H3, H5, H6, H7.
    split_and!.
    + split; [|reflexivity]. intros _.
      destruct (forallb is_AddListener ops); [reflexivity|discriminate].
    + intros _. split_and!; [exact H5 | exact H3 |].
      intros Hnd n ids l k a Hin Hl Ha.
      apply (restoreAll_sets toks (set_dirty true p) n ids l k a); auto.
    + intros _. split; [apply (wf_tokens q Hwfq)|].
      intros Hnn Hni Hu. split.
      * intros n ids l k a i Hin Hl Ha Hi.
        assert (Ho : owns q i a).
        { apply (owns_restoreAll_set toks (set_dirty true p) n ids l k a i); auto. }
        destruct Ho as [Ht Hone].
        destruct (byName_live (set_dirty true p) n l a Hix Hl
                    (list_elem_of_lookup_2 _ _ _ Ha)) as [Hla Hname].
        split_and!.
        -- exact Ht.
        -- unfold Find, find. cbn zeta. cbn [tokens set_dirty heap]. rewrite Ht.
           cbn [snd]. f_equal. fold (name_at q a). rewrite H7. exact Hname.
        -- intros Huniq.
           assert (Hgiven : i ∈ concat toks.*2).
           { apply (elem_of_concat_intro i ids).
             - eapply list_elem_of_lookup_2; eauto.
             - apply list_elem_of_fmap. exists (n, ids). auto. }
           assert (Hnone : tokens q !! id_at p a = None).
           { destruct (tokens q !! id_at p a) as [b|] eqn:Hb; [|reflexivity].
             exfalso. destruct (wf_tokens q Hwfq _ b Hb) as [Hlb Hidb].
             apply H6 in Hlb.
             destruct (id_at_restoreAll_cases toks (set_dirty true p) b) as [E|E];
               fold q in E; rewrite Hidb in E.
             - assert (b = a) by (apply Huniq; [exact Hlb | symmetry; exact E]).
               subst b. destruct (wf_tokens q Hwfq i a Ht) as [_ Hia].
               apply (Hu i a Hgiven Hla). congruence.
             - apply (Hu (id_at p a) a E Hla). reflexivity. }
           split; [exact Hnone|].
           unfold Find, find. cbn zeta. cbn [tokens set_dirty heap].
           rewrite Hnone. reflexivity.
      * intros k b Hk Huniq Hnr.
        destruct (wf_tokens p Hwf k b Hk) as [Hlb Hidb].
        assert (Ho : owns q k b).
        { apply (owns_restoreAll_keep_take toks (set_dirty true p) k b); auto.
          - split; assumption.
          - intros Hin. apply (Hu k b Hin Hlb). exact Hidb. }
        destruct Ho as [Ht _]. split; [exact Ht|].
        destruct (wf_tokens q Hwfq k b Ht). assumption.
    + intros H. contradiction.
    + intros toks'. apply Restore_dirty. exact H5.
Qed.

(** [Restore_once] at the new pool: the second token of [d1/intel] becomes
    [Y], found under that id and no longer under [t1]; [t2] is kept. *)
Lemma Restore_once_witness :
  NoDup [("d1/intel", ["X"; "Y"])].*1 /\
  NoDup (concat [("d1/intel", ["X"; "Y"])].*2) /\
  unused demoNew (concat [("d1/intel", ["X"; "Y"])].*2) /\
  err_of (Restore [("d1/intel", ["X"; "Y"])] demoNew) = None /\
  heap (pool_of (Restore [("d1/intel", ["X"; "Y"])] demoNew)) !! 1
  = Some (mkToken "Y" "d1/intel" allocated) /\
  tokens (pool_of (Restore [("d1/intel", ["X"; "Y"])] demoNew)) !! "Y" = Some 1 /\
  (Find "Y" (pool_of (Restore [("d1/intel", ["X"; "Y"])] demoNew))).2
  = inr "d1/intel".
Proof.
  assert (Hnd : NoDup [("d1/intel", ["X"; "Y"])].*1).
  { cbn. apply NoDup_singleton. }
  assert (H2 : NoDup (concat [("d1/intel", ["X"; "Y"])].*2)).
  { cbn. apply NoDup_cons. split; [|apply NoDup_singleton].
    intros H. apply list_elem_of_singleton in H. discriminate. }
  assert (H3 : unused demoNew (concat [("d1/intel", ["X"; "Y"])].*2)).
  { intros j b Hj Hb. unfold live in Hb.
    change (length (heap demoNew)) with 8 in Hb. cbn in Hj.
    assert (Hj' : j = "X" \/ j = "Y").
    { apply elem_of_cons in Hj as [->|Hj]; [left; reflexivity|].
      apply list_elem_of_singleton in Hj. right. exact Hj. }
    do 8 (destruct b as [|b];
          [destruct Hj' as [-> | ->]; vm_compute; discriminate|]).
    lia. }
  split; [exact Hnd|]. split; [exact H2|]. split; [exact H3|].
  destruct (Restore_once demoJoin demoID demoCfg [] [("d1/intel", ["X"; "Y"])])
    as (Hiff & Hok & Hindex & _).
  assert (E : err_of (Restore [("d1/intel", ["X"; "Y"])] demoNew) = None).
  { apply Hiff. reflexivity. }
  split; [exact E|].
  destruct (Hok E) as (_ & _ & Hset).
  destruct (Hset Hnd "d1/intel" ["X"; "Y"] [0; 1] 1 1) as [Hid _];
    [left | reflexivity | reflexivity |].
  split; [apply Hid; reflexivity|].
  destruct (Hindex E) as (_ & Hfresh).
  destruct (Hfresh Hnd H2 H3) as (Hnew & _).
  destruct (Hnew "d1/intel" ["X"; "Y"] [0; 1] 1 1 "Y") as (Ht & Hf & _);
    [left | reflexivity | reflexivity | reflexivity |].
  split; [exact Ht | exact Hf].
Defined.

(** ** The names of the states *)

(** The value of [iota] for each state. *)
Definition state_code (s : state) : Z :=
  match s with free => 0 | allocated => 1 | inUse => 2 | closed => 3 end.

(** [func (ts state) String() string], on any value of the underlying
    [int]. *)
Definition state_String (ts : Z) : string :=
  if decide (ts < state_code free \/ state_code closed < ts)%Z
  then "invalid state"
  else default "" (["free"; "allocated"; "inUse"; "closed"] !! Z.to_nat ts).

(** X16: [String] names the four states by four different names, none of
    them the invalid-state text, and gives the invalid-state text for any
    other value. *)
Theorem state_String_names :
  (forall s1 s2, state_String (state_code s1) = state_String (state_code s2) -> s1 = s2) /\
  (forall ts, state_String ts = "invalid state" <-> (ts < 0 \/ 3 < ts)%Z).
Proof.
  split.
  - intros [] []; vm_compute; intros H; try reflexivity; discriminate.
  - intros ts. unfold state_String. cbn [state_code].
    destruct (decide (ts < 0 \/ 3 < ts)%Z) as [H|H]; [tauto|].
    split; [|tauto]. intros E. exfalso.
    assert (Hts : (ts = 0 \/ ts = 1 \/ ts = 2 \/ ts = 3)%Z) by lia.
    destruct Hts as [->|[->|[->| ->]]]; vm_compute in E; discriminate.
Qed.

(** ** The further theorems at the worked pools *)

(** [Find_agrees_with_Tokens] at [demoUsed], for [t0]. *)
Lemma Find_agrees_with_Tokens_witness :
  reachable demoUsed /\ (Find "t0" demoUsed).2 = inr "d1/intel" /\
  exists a l m,
    tokens demoUsed !! "t0" = Some a /\ name_at demoUsed a = "d1/intel" /\
    tokensByNames demoUsed !! "d1/intel" = Some l /\ a ∈ l /\
    (Tokens demoUsed).2 !! "d1/intel" = Some m /\ is_Some (m !! "t0").
Proof.
  split; [demo_reach|]. split; [reflexivity|].
  exact (Find_agrees_with_Tokens demoUsed "t0" "d1/intel" ltac:(demo_reach) eq_refl).
Defined.

(** [closed_until_owner_leaves] at [demoUsed]: [t2] when [t0] is stopped. *)
Lemma closed_until_owner_leaves_witness :
  reachable demoUsed /\ state_at demoUsed 2 = closed /\
  (state_at (step demoUsed (OpStopUsing "t0")) 2 = closed \/
   (state_at (step demoUsed (OpStopUsing "t0")) 2 = free /\
    exists i a, tokens demoUsed !! i = Some a /\ state_at demoUsed a = inUse /\
                2 ∈ closedBy demoUsed i /\ leaves i (OpStopUsing "t0"))).
Proof.
  split; [demo_reach|]. split; [reflexivity|].
  exact (closed_until_owner_leaves demoUsed (OpStopUsing "t0") 2
           ltac:(demo_reach) eq_refl).
Defined.

(** [Free_idempotent] at [demoUsed], for the in-use token [t0]. *)
Lemma Free_idempotent_witness :
  reachable demoUsed /\ tokens demoUsed !! "t0" = Some 0 /\
  Free "t0" (pool_of (Free "t0" demoUsed))
  = mkRet (pool_of (Free "t0" demoUsed)) None [].
Proof.
  split; [demo_reach|]. split; [reflexivity|].
  exact (Free_idempotent demoUsed "t0" 0 ltac:(demo_reach) eq_refl).
Defined.

(** [Allocate_then_Free] at [demoUsed], for the in-use token [t0]. *)
Lemma Allocate_then_Free_witness :
  reachable demoUsed /\ tokens demoUsed !! "t0" = Some 0 /\
  state_at demoUsed 0 ≠ closed /\
  state_at (pool_of (Free "t0" (pool_of (Allocate "t0" demoUsed)))) 0 = free.
Proof.
  assert (H : state_at demoUsed 0 ≠ closed) by (vm_compute; discriminate).
  split; [demo_reach|]. split; [reflexivity|]. split; [exact H|].
  destruct (Allocate_then_Free demoUsed "t0" 0 ltac:(demo_reach) eq_refl H)
    as (_ & _ & _ & E & _).
  exact E.
Defined.


(** [Restore_then_Find] at the new pool: [Y] is found under [d1/intel]. *)
Lemma Restore_then_Find_witness :
  reachable demoNew /\ dirty demoNew = false /\
  NoDup [("d1/intel", ["X"; "Y"])].*1 /\
  NoDup (concat [("d1/intel", ["X"; "Y"])].*2) /\
  unused demoNew (concat [("d1/intel", ["X"; "Y"])].*2) /\
  (Find "Y" (pool_of (Restore [("d1/intel", ["X"; "Y"])] demoNew))).2
  = inr "d1/intel".
Proof.
  assert (H1 : NoDup [("d1/intel", ["X"; "Y"])].*1).
  { cbn. apply NoDup_singleton. }
  assert (H2 : NoDup (concat [("d1/intel", ["X"; "Y"])].*2)).
  { cbn. apply NoDup_cons. split; [|apply NoDup_singleton].
    intros H. apply list_elem_of_singleton in H. discriminate. }
  assert (H3 : unused demoNew (concat [("d1/intel", ["X"; "Y"])].*2)).
  { intros j b Hj Hb. unfold live in Hb.
    change (length (heap demoNew)) with 8 in Hb. cbn in Hj.
    assert (Hj' : j = "X" \/ j = "Y").
    { apply elem_of_cons in Hj as [->|Hj]; [left; reflexivity|].
      apply list_elem_of_singleton in Hj. right. exact Hj. }
    do 8 (destruct b as [|b];
          [destruct Hj' as [-> | ->]; vm_compute; discriminate|]).
    lia. }
  split; [demo_reach|]. split; [reflexivity|].
  split; [exact H1|]. split; [exact H2|]. split; [exact H3|].
  destruct (Restore_then_Find demoNew [("d1/intel", ["X"; "Y"])] "d1/intel"
              ["X"; "Y"] [0; 1] 1 1 "Y" ltac:(demo_reach) eq_refl H1 H2 H3)
    as (_ & _ & E).
  - left.
  - reflexivity.
  - reflexivity.
  - reflexivity.
  - exact E.
Defined.

(** ** The indices and the tokens in use *)

(** X17: in every reachable pool the index by id only holds tokens that
    carry the id they are filed under, every token of the arena is filed
    under its own name and under no other, and no name list holds a token
    twice. *)
Theorem indices_consistent p :
  reachable p ->
  (forall k a, tokens p !! k = Some a -> live p a /\ id_at p a = k) /\
  (forall a, live p a -> a ∈ slice_at (tokensByNames p) (name_at p a)) /\
  (forall n a, a ∈ slice_at (tokensByNames p) n -> live p a /\ name_at p a = n) /\
  (forall n, NoDup (slice_at (tokensByNames p) n)).
Proof.
  intros Hr. pose proof (reachable_wf p Hr) as Hwf. split_and!.
  - apply (wf_tokens p Hwf).
  - apply (reachable_listed p Hr).
  - intros n a Ha. apply elem_of_slice_at in Ha as (l & Hl & Ha).
    apply (wf_byName p Hwf n l a Hl Ha).
  - intros n. unfold slice_at. destruct (tokensByNames p !! n) as [l|] eqn:Hl; cbn.
    + apply (wf_byName_nodup p Hwf n l Hl).
    + constructor.
Qed.

Lemma closeAll_keeps_inUse a names p b :
  state_at p b = inUse -> state_at (foldl (closeFor a) p names) b = inUse.
Proof.
  revert p. induction names as [|n names IH]; intros p Hb; [exact Hb|].
  cbn [foldl]. apply IH.
  destruct (closeFor_cases a p n) as [[-> _]|(x & _ & Hf & ->)]; [exact Hb|].
  rewrite state_at_closeOne_ne; [exact Hb|].
  apply findToClose_Some in Hf as [_ Hx]. intros ->. destruct Hx; congruence.
Qed.

Lemma unwind_keeps_inUse i a p b :
  wf p -> state_at p b = inUse -> b ≠ a ->
  state_at (unwind i a (set_dirty true p)) b = inUse.
Proof.
  intros Hwf Hb Hne.
  rewrite (state_at_unwind_other i a (set_dirty true p) b); auto.
  apply (not_in_closedBy p i b Hwf). congruence.
Qed.

(** X18: in a reachable pool a token in use stays in use through every
    public operation other than [StopUsing], [Free] or [Allocate] of its
    own id; in particular no operation on another id, and no [Use], takes
    it out of use. *)
Theorem inUse_until_left p o b :
  reachable p -> state_at p b = inUse ->
  state_at (step p o) b = inUse \/
  (exists i, tokens p !! i = Some b /\ leaves i o).
Proof.
  intros Hr Hb. pose proof (reachable_wf p Hr) as Hwf.
  pose proof (wf_set_dirty p Hwf) as Hwd.
  destruct o as [toks|l| |i|i|i|i names|i]; cbn [step].
  - left. rewrite Restore_dirty; [exact Hb|].
    apply (reachable_dirty p b Hr). congruence.
  - left. exact Hb.
  - left. exact Hb.
  - left. unfold Find. cbn zeta. destruct (find _ i); exact Hb.
  - destruct (tokens p !! i) as [a|] eqn:Hi.
    + destruct (decide (a = b)) as [->|Hne].
      { right. exists i. split; [exact Hi | right; right; reflexivity]. }
      left. destruct (state_cases (state_at p a)) as [Hst|[Hst|Hst]].
      * rewrite (Allocate_plain i a p Hi Hst). cbn [pool_of].
        rewrite state_at_set_state_ne; auto.
      * rewrite (Allocate_inUse i a p Hi Hst).
        rewrite (stopUsing_wf_inUse i a (set_dirty true p) Hwd Hi Hst). cbn [pool_of].
        apply unwind_keeps_inUse; auto.
      * rewrite (Allocate_closed i a p Hi Hst). exact Hb.
    + left. rewrite (Allocate_unknown i p Hi). exact Hb.
  - destruct (tokens p !! i) as [a|] eqn:Hi.
    + destruct (decide (a = b)) as [->|Hne].
      { right. exists i. split; [exact Hi | right; left; reflexivity]. }
      left. destruct (state_cases (state_at p a)) as [Hst|[Hst|Hst]].
      * rewrite (Free_plain i a p Hi Hst). cbn [pool_of].
        rewrite state_at_set_state_ne; auto.
      * rewrite (Free_inUse i a p Hi Hst). cbn zeta.
        rewrite (stopUsing_wf_inUse i a (set_dirty true p) Hwd Hi Hst). cbn [pool_of].
        rewrite state_at_set_state_ne by exact Hne.
        apply unwind_keeps_inUse; auto.
      * rewrite (Free_closed i a p Hi Hst). exact Hb.
    + left. rewrite (Free_unknown i p Hi). exact Hb.
  - left. destruct (tokens p !! i) as [a|] eqn:Hi.
    + destruct (decide (state_at p a = inUse \/ state_at p a = closed)) as [Hbad|Hg].
      * rewrite (Use_bad i a names p Hi Hbad). exact Hb.
      * rewrite (Use_good i a names p Hi) by tauto. cbn [pool_of].
        apply closeAll_keeps_inUse.
        rewrite state_at_set_state_ne; [exact Hb|]. intros ->. tauto.
    + rewrite (Use_unknown i names p Hi). exact Hb.
  - unfold StopUsing. destruct (tokens p !! i) as [a|] eqn:Hi.
    + destruct (decide (a = b)) as [->|Hne].
      { right. exists i. split; [exact Hi | left; reflexivity]. }
      left. destruct (decide (state_at p a = inUse)) as [Hst|Hst].
      * rewrite (stopUsing_wf_inUse i a (set_dirty true p) Hwd Hi Hst). cbn [pool_of].
        apply unwind_keeps_inUse; auto.
      * rewrite (stopUsing_not_inUse i a (set_dirty true p) Hi Hst). exact Hb.
    + left. rewrite (stopUsing_unknown i (set_dirty true p) Hi). exact Hb.
Qed.

(** [indices_consistent] at [demoUsed]. *)
Lemma indices_consistent_witness :
  reachable demoUsed /\ NoDup (slice_at (tokensByNames demoUsed) "d1/intel").
Proof.
  split; [demo_reach|].
  destruct (indices_consistent demoUsed ltac:(demo_reach)) as (_ & _ & _ & H).
  exact (H "d1/intel").
Defined.

(** [inUse_until_left] at [demoUsed]: [t0] through a [Use] of [t1]. *)
Lemma inUse_until_left_witness :
  reachable demoUsed /\ state_at demoUsed 0 = inUse /\
  (state_at (step demoUsed (OpUse "t1" demoNames)) 0 = inUse \/
   exists i, tokens demoUsed !! i = Some 0 /\ leaves i (OpUse "t1" demoNames)).
Proof.
  split; [demo_reach|]. split; [reflexivity|].
  exact (inUse_until_left demoUsed (OpUse "t1" demoNames) 0 ltac:(demo_reach) eq_refl).
Defined.

End Token.

(** * The token client

    [tokenClient.Request] and [tokenClient.Close] of the [multitoken]
    package.  The [tokenConfig] behind [c.config], the rest of the chain
    behind [next.Client(ctx)] and the key [common.DeviceTokenIDKey] are not
    part of the sources at hand; they are the variables of the section.
    The calls made on the configuration are logged, so that a release can
    be told from its absence. *)
Module TokenClient.

(** [networkservice.Mechanism], [Connection] and [NetworkServiceRequest],
    with the fields the client reads or writes; a Go map that may be [nil]
    is an [option]. *)
Record Mechanism := mkMechanism {
  Parameters : option (gmap string string)
}.

Record Connection := mkConnection {
  Id : string;
  Labels : option (gmap string string)
}.

Record NetworkServiceRequest := mkRequest {
  GetConnection : Connection;
  GetMechanismPreferences : list Mechanism
}.

Definition sriovTokenLabel : string := "sriovToken".
Definition serviceDomainLabel : string := "serviceDomain".

(** [strings.Split(tokenName, "/")[0]]: the text before the first slash. *)
Fixpoint firstSegment (s : string) : string :=
  match s with
  | EmptyString => EmptyString
  | String c s' => if decide (c = "/"%char) then EmptyString
                   else String c (firstSegment s')
  end.

(** The calls the client makes on its configuration. *)
Inductive call :=
| CallGet (conn : Connection)
| CallAssign (tokenName : string) (conn : Connection)
| CallRelease (conn : Connection).

Section Client.

(** The states of the [tokenConfig] and its three methods. *)
Variable Cfg : Type.
Variable get : Cfg -> Connection -> string.
Variable assign : string -> Connection -> Cfg -> string * Cfg.
Variable release : Connection -> Cfg -> Cfg.

(** The errors of the rest of the chain, its [Request] (which is handed
    the request by pointer, and so also gives it back as it left it) and
    its [Close]. *)
Variable NextErr : Type.
Variable next_Request :
  NetworkServiceRequest -> NetworkServiceRequest * option Connection * option NextErr.
Variable next_Close : Connection -> option NextErr.

Variable DeviceTokenIDKey : string.

Inductive cerror :=
| ErrNoFreeToken (tokenName : string)       (* "no free token for the name: %v" *)
| ErrNext (e : NextErr).

(** How a call ends: with the returned connection and error, or in a
    run-time panic (an entry assigned in a [nil] map). *)
Inductive outcome :=
| Returned (conn : option Connection) (err : option cerror)
| Panicked.

(** The configuration and the log of the calls made on it. *)
Definition cstate : Type := Cfg * list call.

(** The request handed down when the label is there: a clone with the
    token label removed, the service domain set, and the token id put in
    the parameters of every mechanism preference. *)
Definition withToken (tokenName tokenID : string) (ls : gmap string string)
           (request : NetworkServiceRequest) : NetworkServiceRequest :=
  let ls' := <[serviceDomainLabel := firstSegment tokenName]>
               (delete sriovTokenLabel ls) in
  mkRequest
    (mkConnection (Id (GetConnection request)) (Some ls'))
    ((fun mech =>
        mkMechanism (Some (<[DeviceTokenIDKey := tokenID]>
                             (default ∅ (Parameters mech)))))
       <$> GetMechanismPreferences request).

(** The tail of [Request], from the call of the next client on. *)
Definition forward (isEstablished : bool) (tokenName tokenID : string)
           (request : NetworkServiceRequest) (st : cstate) : cstate * outcome :=
  let '(request, conn, err) := next_Request request in
  let st :=
    if bool_decide (err ≠ None) && bool_decide (tokenID ≠ "") && negb isEstablished
    then (release (GetConnection request) st.1,
          st.2 ++ [CallRelease (GetConnection request)])
    else st in
  if bool_decide (err = None) && bool_decide (tokenName ≠ "")
  then
    match conn with
    | Some cn =>
        match Labels cn with
        | Some ls =>
            (st, Returned
                   (Some (mkConnection (Id cn)
                            (Some (<[sriovTokenLabel := tokenName]>
                                     (delete serviceDomainLabel ls)))))
                   (ErrNext <$> err))
        | None => (st, Panicked)
        end
    | None => (st, Panicked)
    end
  else (st, Returned conn (ErrNext <$> err)).

Definition Request (request : NetworkServiceRequest) (st : cstate) : cstate * outcome :=
  let conn := GetConnection request in
  let isEstablished := bool_decide (get st.1 conn ≠ "") in
  let st := (st.1, st.2 ++ [CallGet conn]) in
  match Labels conn with
  | Some ls =>
      match ls !! sriovTokenLabel with
      | Some tokenName =>
          let '(tokenID, cfg) := assign tokenName conn st.1 in
          let st := (cfg, st.2 ++ [CallAssign tokenName conn]) in
          if decide (tokenID = "")
          then (st, Returned None (Some (ErrNoFreeToken tokenName)))
          else forward isEstablished tokenName tokenID
                       (withToken tokenName tokenID ls request) st
      | None => forward isEstablished "" "" request st
      end
  | None => forward isEstablished "" "" request st
  end.

Definition Close (conn : Connection) (st : cstate) : cstate * option NextErr :=
  let st := (release conn st.1, st.2 ++ [CallRelease conn]) in
  (st, next_Close conn).

(** The releases among the calls of a log. *)
Definition releases (log : list call) : list Connection :=
  omap (fun c => match c with CallRelease conn => Some conn | _ => None end) log.

(** C8: when the request carries the token label, a token id is assigned
    and the call of the next client fails, the client returns that failure
    and releases the token exactly when the configuration held no entry for
    the connection before the assignment; [Close] always releases. *)
Theorem release_on_error request cfg ls tokenName tokenID cfg1 request2 conn e :
  Labels (GetConnection request) = Some ls ->
  ls !! sriovTokenLabel = Some tokenName ->
  assign tokenName (GetConnection request) cfg = (tokenID, cfg1) ->
  tokenID ≠ "" ->
  next_Request (withToken tokenName tokenID ls request) = (request2, conn, Some e) ->
  let r := Request request (cfg, []) in
  r.2 = Returned conn (Some (ErrNext e)) /\
  (get cfg (GetConnection request) = "" ->
     releases r.1.2 = [GetConnection request2] /\
     r.1.1 = release (GetConnection request2) cfg1) /\
  (get cfg (GetConnection request) ≠ "" ->
     releases r.1.2 = [] /\ r.1.1 = cfg1) /\
  (releases r.1.2 ≠ [] <-> get cfg (GetConnection request) = "") /\
  (forall c st, releases (Close c st).1.2 = releases st.2 ++ [c] /\
                (Close c st).1.1 = release c st.1).
Proof.
  intros Hls Htok Hassign Hid Hnext r. subst r.
  unfold Request. cbn zeta. cbn [fst snd]. rewrite Hls, Htok, Hassign.
  destruct (decide (tokenID = "")) as [|_]; [contradiction|].
  unfold forward. rewrite Hnext. cbn [fst snd].
  rewrite (bool_decide_eq_true_2 (Some e ≠ None)) by discriminate.
  rewrite (bool_decide_eq_true_2 (tokenID ≠ "")) by assumption.
  rewrite (bool_decide_eq_false_2 (Some e = None)) by discriminate.
  cbn [andb].
  destruct (decide (get cfg (GetConnection request) = "")) as [Hnew|Hold].
  - rewrite (bool_decide_eq_false_2 _ (fun H => H Hnew)). cbn [negb fst snd].
    split_and!; try reflexivity.
    + intros _. split; reflexivity.
    + intros H. contradiction.
    + split; [intros _; exact Hnew | intros _; discriminate].
    + intros c st. unfold Close, releases. cbn [fst snd].
      rewrite omap_app. split; reflexivity.
  - rewrite (bool_decide_eq_true_2 _ Hold). cbn [negb fst snd].
    split_and!; try reflexivity.
    + intros H. contradiction.
    + intros _. split; reflexivity.
    + split; [intros H; exfalso; apply H; reflexivity | intros H; contradiction].
    + intros c st. unfold Close, releases. cbn [fst snd].
      rewrite omap_app. split; reflexivity.
Qed.

(** *** More on [Request] *)

(** X10: when the label is there and no token can be assigned, [Request]
    fails with the no-free-token error, returns no connection, releases
    nothing and leaves the configuration as [assign] left it; the next
    client has no part in the result. *)
Theorem no_free_token request st ls tokenName cfg1 :
  Labels (GetConnection request) = Some ls ->
  ls !! sriovTokenLabel = Some tokenName ->
  assign tokenName (GetConnection request) st.1 = ("", cfg1) ->
  let r := Request request st in
  r.2 = Returned None (Some (ErrNoFreeToken tokenName)) /\
  r.1.1 = cfg1 /\
  r.1.2 = st.2 ++ [CallGet (GetConnection request);
                   CallAssign tokenName (GetConnection request)] /\
  releases r.1.2 = releases st.2.
Proof.
  intros Hls Htok Hassign r. subst r. unfold Request. cbn zeta. cbn [fst snd].
  rewrite Hls, Htok, Hassign.
  destruct (decide ("" = "")) as [_|H]; [|contradiction]. cbn [fst snd].
  split_and!; try reflexivity.
  - rewrite <- app_assoc. reflexivity.
  - unfold releases. rewrite !omap_app. cbn. rewrite !app_nil_r. reflexivity.
Qed.

(** X11: when the connection has no label map, or the map has no token
    label, [Request] hands the request on as it is and returns what the
    next client returns; the configuration is only read, whatever the next
    client answers. *)
Theorem no_label_passes_through request st request2 conn err :
  (Labels (GetConnection request) = None \/
   exists ls, Labels (GetConnection request) = Some ls /\
              ls !! sriovTokenLabel = None) ->
  next_Request request = (request2, conn, err) ->
  let r := Request request st in
  r.2 = Returned conn (ErrNext <$> err) /\
  r.1.1 = st.1 /\
  r.1.2 = st.2 ++ [CallGet (GetConnection request)].
Proof.
  intros Hlab Hnext r. subst r. unfold Request. cbn zeta. cbn [fst snd].
  assert (E : match Labels (GetConnection request) with
              | Some ls =>
                  match ls !! sriovTokenLabel with
                  | Some _ => False
                  | None => True
                  end
              | None => True
              end).
  { destruct Hlab as [->|(ls & -> & ->)]; exact I. }
  assert (Hfw : forall b,
            forward b "" "" request (st.1, st.2 ++ [CallGet (GetConnection request)])
            = ((st.1, st.2 ++ [CallGet (GetConnection request)]),
               Returned conn (ErrNext <$> err))).
  { intros b. unfold forward. rewrite Hnext.
    rewrite (bool_decide_eq_false_2 ("" ≠ "")) by (intros H; apply H; reflexivity).
    rewrite !andb_false_r. reflexivity. }
  destruct (Labels (GetConnection request)) as [ls|].
  - destruct (ls !! sriovTokenLabel) as [tn|]; [contradiction|].
    rewrite Hfw. split_and!; reflexivity.
  - rewrite Hfw. split_and!; reflexivity.
Qed.

Lemma releases_forward b tokenName tokenID request st :
  releases (forward b tokenName tokenID request st).1.2 = releases st.2 \/
  (b = false /\ tokenID ≠ "" /\
   exists rq conn e,
     next_Request request = (rq, conn, Some e) /\
     (forward b tokenName tokenID request st).2 = Returned conn (Some (ErrNext e)) /\
     releases (forward b tokenName tokenID request st).1.2
     = releases st.2 ++ [GetConnection rq]).
Proof.
  unfold forward. destruct (next_Request request) as [[rq conn] err] eqn:Hnext.
  destruct err as [e|].
  - rewrite (bool_decide_eq_true_2 (Some e ≠ None)) by discriminate.
    rewrite (bool_decide_eq_false_2 (Some e = None)) by discriminate.
    cbn [andb]. destruct (decide (tokenID = "")) as [->|Hid].
    + rewrite (bool_decide_eq_false_2 ("" ≠ "")) by (intros H; apply H; reflexivity).
      left. reflexivity.
    + rewrite (bool_decide_eq_true_2 _ Hid). destruct b; cbn [andb negb fst snd].
      * left. reflexivity.
      * right. split_and!; auto. exists rq, conn, e. split_and!; auto.
        unfold releases. rewrite omap_app. reflexivity.
  - rewrite (bool_decide_eq_false_2 (None ≠ None)) by (intros H; apply H; reflexivity).
    cbn [andb]. left.
    destruct (bool_decide (None = None) && bool_decide (tokenName ≠ ""));
      [|reflexivity].
    destruct conn as [cn|]; [|reflexivity]. destruct (Labels cn); reflexivity.
Qed.

(** X12: [Request] releases at most one token, and only when the
    configuration held no entry for the connection when the call began and
    a failure of the next client is returned; in particular the token of an
    established connection is never released by [Request]. *)
Theorem Request_releases_only_new request st :
  let r := Request request st in
  releases r.1.2 = releases st.2 \/
  (get st.1 (GetConnection request) = "" /\
   exists rc conn e,
     r.2 = Returned conn (Some (ErrNext e)) /\
     releases r.1.2 = releases st.2 ++ [rc]).
Proof.
  cbn zeta. unfold Request. cbn zeta. cbn [fst snd].
  set (st1 := (st.1, st.2 ++ [CallGet (GetConnection request)])).
  assert (H1 : releases st1.2 = releases st.2).
  { unfold st1, releases. cbn [snd]. rewrite omap_app. cbn. apply app_nil_r. }
  assert (Hfw : forall tn ti rq s,
            releases s.2 = releases st.2 ->
            let r := forward (bool_decide (get st.1 (GetConnection request) ≠ ""))
                             tn ti rq s in
            releases r.1.2 = releases st.2 \/
            (get st.1 (GetConnection request) = "" /\
             exists rc conn e,
               r.2 = Returned conn (Some (ErrNext e)) /\
               releases r.1.2 = releases st.2 ++ [rc])).
  { intros tn ti rq s Hs. cbn zeta.
    destruct (releases_forward (bool_decide (get st.1 (GetConnection request) ≠ ""))
                tn ti rq s) as [E|(Hb & _ & rq2 & conn & e & _ & Eo & El)].
    - left. rewrite E. exact Hs.
    - right. split.
      + apply bool_decide_eq_false in Hb.
        destruct (decide (get st.1 (GetConnection request) = "")); [assumption|].
        contradiction.
      + exists (GetConnection rq2), conn, e. split; [exact Eo|].
        rewrite El, Hs. reflexivity. }
  destruct (Labels (GetConnection request)) as [ls|]; [|apply Hfw; exact H1].
  destruct (ls !! sriovTokenLabel) as [tokenName|]; [|apply Hfw; exact H1].
  destruct (assign tokenName (GetConnection request) st.1) as [tokenID cfg1].
  assert (H2 : releases (cfg1, st1.2 ++ [CallAssign tokenName (GetConnection request)]).2
               = releases st.2).
  { unfold releases. cbn [snd]. rewrite omap_app. cbn. rewrite app_nil_r. exact H1. }
  destruct (decide (tokenID = "")) as [->|Hid].
  - left. exact H2.
  - apply Hfw. exact H2.
Qed.

(** What [withToken] does to the labels and to the mechanism
    preferences. *)
Lemma withToken_rewrites tokenName tokenID ls request :
  let rq := withToken tokenName tokenID ls request in
  Id (GetConnection rq) = Id (GetConnection request) /\
  (exists ls', Labels (GetConnection rq) = Some ls' /\
     ls' !! sriovTokenLabel = None /\
     ls' !! serviceDomainLabel = Some (firstSegment tokenName) /\
     forall k, k ≠ sriovTokenLabel -> k ≠ serviceDomainLabel -> ls' !! k = ls !! k) /\
  length (GetMechanismPreferences rq) = length (GetMechanismPreferences request) /\
  (forall j mech, GetMechanismPreferences request !! j = Some mech ->
     exists ps, GetMechanismPreferences rq !! j = Some (mkMechanism (Some ps)) /\
       ps !! DeviceTokenIDKey = Some tokenID /\
       forall k, k ≠ DeviceTokenIDKey ->
                 ps !! k = default ∅ (Parameters mech) !! k).
Proof.
  cbn zeta. unfold withToken. cbn [GetConnection GetMechanismPreferences Id Labels].
  split_and!.
  - reflexivity.
  - eexists. split; [reflexivity|]. split_and!.
    + rewrite lookup_insert_ne by discriminate. apply lookup_delete_eq.
    + apply lookup_insert_eq.
    + intros k Hk1 Hk2. rewrite lookup_insert_ne by auto.
      apply lookup_delete_ne. auto.
  - apply length_fmap.
  - intros j mech Hj. eexists. split.
    + rewrite list_lookup_fmap, Hj. reflexivity.
    + split; [apply lookup_insert_eq|].
      intros k Hk. apply lookup_insert_ne. auto.
Qed.

(** X13: when the request carries the token label and a token is
    assigned, there is one request [rq] that [Request] hands to the next
    client: whatever the next client answers at [rq] is what [Request]
    returns (its failure with its connection, or on success its connection
    under the same id).  That request keeps the connection id, has lost the
    token label, has the service-domain label set to the text before the
    first slash of the token name, keeps every other label of the incoming
    connection, and carries the token id under the device-token key in
    every mechanism preference, beside the parameters each had. *)
Theorem Request_hands_on_rewritten request cfg ls tokenName tokenID cfg1 :
  Labels (GetConnection request) = Some ls ->
  ls !! sriovTokenLabel = Some tokenName ->
  assign tokenName (GetConnection request) cfg = (tokenID, cfg1) ->
  tokenID ≠ "" ->
  exists rq,
    (forall rq2 conn e,
       next_Request rq = (rq2, conn, Some e) ->
       (Request request (cfg, [])).2 = Returned conn (Some (ErrNext e))) /\
    (forall rq2 cn ls2,
       next_Request rq = (rq2, Some cn, None) -> Labels cn = Some ls2 ->
       exists ls', (Request request (cfg, [])).2
                   = Returned (Some (mkConnection (Id cn) (Some ls'))) None) /\
    Id (GetConnection rq) = Id (GetConnection request) /\
    (exists ls', Labels (GetConnection rq) = Some ls' /\
       ls' !! sriovTokenLabel = None /\
       ls' !! serviceDomainLabel = Some (firstSegment tokenName) /\
       forall k, k ≠ sriovTokenLabel -> k ≠ serviceDomainLabel -> ls' !! k = ls !! k) /\
    length (GetMechanismPreferences rq) = length (GetMechanismPreferences request) /\
    (forall j mech, GetMechanismPreferences request !! j = Some mech ->
       exists ps, GetMechanismPreferences rq !! j = Some (mkMechanism (Some ps)) /\
         ps !! DeviceTokenIDKey = Some tokenID /\
         forall k, k ≠ DeviceTokenIDKey ->
                   ps !! k = default ∅ (Parameters mech) !! k).
Proof.
  intros Hls Htok Hassign Hid.
  exists (withToken tokenName tokenID ls request).
  assert (Hreq : Request request (cfg, [])
                 = forward (bool_decide (get cfg (GetConnection request) ≠ ""))
                           tokenName tokenID (withToken tokenName tokenID ls request)
                           (cfg1, [CallGet (GetConnection request);
                                   CallAssign tokenName (GetConnection request)])).
  { unfold Request. cbn zeta. cbn [fst snd]. rewrite Hls, Htok, Hassign.
    destruct (decide (tokenID = "")) as [|_]; [contradiction|]. reflexivity. }
  split; [|split; [|exact (withToken_rewrites tokenName tokenID ls request)]].
  - intros rq2 conn e Hnext. rewrite Hreq. unfold forward. rewrite Hnext.
    rewrite (bool_decide_eq_false_2 (Some e = None)) by discriminate.
    cbn [andb]. reflexivity.
  - intros rq2 cn ls2 Hnext Hl2. rewrite Hreq. unfold forward. rewrite Hnext.
    rewrite (bool_decide_eq_false_2 (None ≠ None)) by (intros H; apply H; reflexivity).
    cbn [andb]. rewrite Hl2.
    destruct (bool_decide (None = None) && bool_decide (tokenName ≠ "")); cbn [snd].
    + eexists. reflexivity.
    + exists ls2. destruct cn as [ci cl]. cbn in Hl2. subst cl. reflexivity.
Qed.

(** X14: when a token with a non-empty name was assigned and the next
    client succeeds, [Request] returns normally exactly when the returned
    connection has a label map (it panics on a [nil] connection or map);
    the connection it returns then carries the token label again with the
    token name, no service-domain label, and its other labels unchanged,
    and nothing is released. *)
Theorem success_restores_label request cfg ls tokenName tokenID cfg1 request2 conn :
  Labels (GetConnection request) = Some ls ->
  ls !! sriovTokenLabel = Some tokenName -> tokenName ≠ "" ->
  assign tokenName (GetConnection request) cfg = (tokenID, cfg1) ->
  tokenID ≠ "" ->
  next_Request (withToken tokenName tokenID ls request) = (request2, conn, None) ->
  let r := Request request (cfg, []) in
  r.1.1 = cfg1 /\ releases r.1.2 = [] /\
  (r.2 = Panicked <-> forall cn, conn = Some cn -> Labels cn = None) /\
  (forall cn ls2, conn = Some cn -> Labels cn = Some ls2 ->
     exists ls', r.2 = Returned (Some (mkConnection (Id cn) (Some ls'))) None /\
       ls' !! sriovTokenLabel = Some tokenName /\
       ls' !! serviceDomainLabel = None /\
       forall k, k ≠ sriovTokenLabel -> k ≠ serviceDomainLabel -> ls' !! k = ls2 !! k).
Proof.
  intros Hls Htok Hname Hassign Hid Hnext r. subst r.
  unfold Request. cbn zeta. cbn [fst snd]. rewrite Hls, Htok, Hassign.
  destruct (decide (tokenID = "")) as [|_]; [contradiction|].
  unfold forward. rewrite Hnext. cbn [fst snd].
  rewrite (bool_decide_eq_false_2 (None ≠ None)) by (intros H; apply H; reflexivity).
  rewrite (bool_decide_eq_true_2 (None = None)) by reflexivity.
  rewrite (bool_decide_eq_true_2 _ Hname). cbn [andb].
  destruct conn as [cn|]; [destruct (Labels cn) as [ls2|] eqn:Hl2|]; cbn [fst snd].
  - split_and!; try reflexivity.
    + split; [discriminate|]. intros H. specialize (H cn eq_refl). congruence.
    + intros cn' ls2' [= <-] Hl. rewrite Hl2 in Hl. injection Hl as <-.
      eexists. split; [reflexivity|]. split_and!.
      * apply lookup_insert_eq.
      * rewrite lookup_insert_ne by discriminate. apply lookup_delete_eq.
      * intros k Hk1 Hk2. rewrite lookup_insert_ne by auto.
        apply lookup_delete_ne. auto.
  - split_and!; try reflexivity.
    + split; [|reflexivity]. intros _ cn' [= <-]. exact Hl2.
    + intros cn' ls2' [= <-] Hl. congruence.
  - split_and!; try reflexivity.
    + split; [|reflexivity]. intros _ cn' [=].
    + intros cn' ls2' [=].
Qed.

End Client.

(** A configuration that keeps one token id per connection id, with a
    single token [tok-1] to give away, and a next client that always
    fails. *)
Definition demoGet (cfg : gmap string string) (conn : Connection) : string :=
  default "" (cfg !! Id conn).
Definition demoAssign (tokenName : string) (conn : Connection)
           (cfg : gmap string string) : string * gmap string string :=
  ("tok-1", <[Id conn := "tok-1"]> cfg).
Definition demoRelease (conn : Connection) (cfg : gmap string string)
  : gmap string string := delete (Id conn) cfg.
Definition demoNext (request : NetworkServiceRequest)
  : NetworkServiceRequest * option Connection * option unit :=
  (request, None, Some tt).
Definition demoRequest : NetworkServiceRequest :=
  mkRequest (mkConnection "conn-1" (Some {[ sriovTokenLabel := "d1/intel" ]}))
            [mkMechanism None].

(** [release_on_error] for a new connection: the token given is released again. *)
Lemma release_on_error_witness :
  let r := Request (gmap string string) demoGet demoAssign demoRelease unit
                   demoNext "deviceTokenID" demoRequest (∅, []) in
  demoGet ∅ (GetConnection demoRequest) = "" /\
  r.2 = Returned unit None (Some (ErrNext unit tt)) /\
  r.1.1 = ∅.
Proof.
  cbn zeta. split; [reflexivity|].
  destruct (release_on_error (gmap string string) demoGet demoAssign demoRelease
              unit demoNext (fun _ => None) "deviceTokenID" demoRequest ∅
              {[ sriovTokenLabel := "d1/intel" ]} "d1/intel" "tok-1"
              {[ "conn-1" := "tok-1" ]}
              (withToken "deviceTokenID" "d1/intel" "tok-1"
                         {[ sriovTokenLabel := "d1/intel" ]} demoRequest)
              None tt eq_refl eq_refl eq_refl ltac:(discriminate) eq_refl)
    as (E & Hnew & _).
  split; [exact E|].
  destruct (Hnew eq_refl) as [_ ->]. vm_compute. reflexivity.
Defined.


(** *** The service domain of a token name *)

Fixpoint noSlash (s : string) : bool :=
  match s with
  | EmptyString => true
  | String c s' => if decide (c = "/"%char) then false else noSlash s'
  end.

(** X15: [firstSegment] returns a slash-free prefix of its argument; on a
    name made of a slash-free service domain, a slash and a capability it
    returns the service domain, and a name without a slash is returned
    whole. *)
Theorem firstSegment_is_service_domain :
  (forall s, noSlash (firstSegment s) = true /\
             exists rest, s = firstSegment s +:+ rest) /\
  (forall d c, noSlash d = true -> firstSegment (d +:+ "/" +:+ c) = d) /\
  (forall s, noSlash s = true -> firstSegment s = s).
Proof.
  split_and!.
  - induction s as [|ch s [IH1 [rest IH2]]]; cbn.
    + split; [reflexivity|]. exists "". reflexivity.
    + destruct (decide (ch = "/"%char)) as [->|Hne]; cbn.
      * split; [reflexivity|]. exists (String "/" s). reflexivity.
      * destruct (decide (ch = "/"%char)); [contradiction|].
        split; [exact IH1|]. exists rest.
        change (String ch s = String ch (firstSegment s +:+ rest)).
        f_equal. exact IH2.
  - induction d as [|ch d IH]; intros c Hd.
    + reflexivity.
    + cbn [noSlash] in Hd.
      destruct (decide (ch = "/"%char)) as [|Hne]; [discriminate|].
      change (firstSegment (String ch (d +:+ "/" +:+ c)) = String ch d).
      cbn [firstSegment].
      destruct (decide (ch = "/"%char)); [contradiction|].
      f_equal. apply IH. exact Hd.
  - induction s as [|ch s IH]; cbn; [reflexivity|].
    destruct (decide (ch = "/"%char)); [discriminate|].
    intros Hs. f_equal. apply IH. exact Hs.
Qed.

(** *** The theorems at worked requests *)

Definition demoAssignNone (tokenName : string) (conn : Connection)
           (cfg : gmap string string) : string * gmap string string :=
  ("", cfg).
Definition demoPlain : NetworkServiceRequest :=
  mkRequest (mkConnection "conn-2" None) [mkMechanism None].
Definition demoNextOk (request : NetworkServiceRequest)
  : NetworkServiceRequest * option Connection * option unit :=
  (request, Some (GetConnection request), None).

(** [no_free_token] for a configuration with nothing to assign. *)
Lemma no_free_token_witness :
  Labels (GetConnection demoRequest) = Some {[ sriovTokenLabel := "d1/intel" ]} /\
  demoAssignNone "d1/intel" (GetConnection demoRequest) ∅ = ("", ∅) /\
  (Request (gmap string string) demoGet demoAssignNone demoRelease unit
           demoNext "deviceTokenID" demoRequest (∅, [])).2
  = Returned unit None (Some (ErrNoFreeToken unit "d1/intel")).
Proof.
  split; [reflexivity|]. split; [reflexivity|].
  destruct (no_free_token (gmap string string) demoGet demoAssignNone demoRelease
              unit demoNext "deviceTokenID" demoRequest (∅, [])
              {[ sriovTokenLabel := "d1/intel" ]} "d1/intel" ∅
              eq_refl eq_refl eq_refl) as [E _].
  exact E.
Defined.

(** [no_label_passes_through] for a connection without a label map. *)
Lemma no_label_passes_through_witness :
  Labels (GetConnection demoPlain) = None /\
  (Request (gmap string string) demoGet demoAssign demoRelease unit
           demoNext "deviceTokenID" demoPlain (∅, [])).1.2
  = [CallGet (GetConnection demoPlain)].
Proof.
  split; [reflexivity|].
  destruct (no_label_passes_through (gmap string string) demoGet demoAssign
              demoRelease unit demoNext "deviceTokenID" demoPlain (∅, [])
              demoPlain None (Some tt) (or_introl eq_refl) eq_refl) as (_ & _ & E).
  exact E.
Defined.

(** [success_restores_label] when the next client hands the connection
    back. *)
Lemma success_restores_label_witness :
  Labels (GetConnection demoRequest) = Some {[ sriovTokenLabel := "d1/intel" ]} /\
  "d1/intel" ≠ "" /\ "tok-1" ≠ "" /\
  releases (Request (gmap string string) demoGet demoAssign demoRelease unit
                    demoNextOk "deviceTokenID" demoRequest (∅, [])).1.2 = [].
Proof.
  split; [reflexivity|]. split; [discriminate|]. split; [discriminate|].
  destruct (success_restores_label (gmap string string) demoGet demoAssign
              demoRelease unit demoNextOk "deviceTokenID" demoRequest ∅
              {[ sriovTokenLabel := "d1/intel" ]} "d1/intel" "tok-1"
              {[ "conn-1" := "tok-1" ]}
              (withToken "deviceTokenID" "d1/intel" "tok-1"
                         {[ sriovTokenLabel := "d1/intel" ]} demoRequest)
              (Some (GetConnection
                       (withToken "deviceTokenID" "d1/intel" "tok-1"
                                  {[ sriovTokenLabel := "d1/intel" ]} demoRequest)))
              eq_refl eq_refl ltac:(discriminate) eq_refl ltac:(discriminate) eq_refl)
    as (_ & E & _).
  exact E.
Defined.

(** [Request_hands_on_rewritten] for the worked request: the next client
    is asked with the label map rewritten. *)
Lemma Request_hands_on_rewritten_witness :
  Labels (GetConnection demoRequest) = Some {[ sriovTokenLabel := "d1/intel" ]} /\
  demoAssign "d1/intel" (GetConnection demoRequest) ∅
  = ("tok-1", {[ "conn-1" := "tok-1" ]}) /\
  "tok-1" ≠ "" /\
  exists rq,
    (Request (gmap string string) demoGet demoAssign demoRelease unit
             demoNext "deviceTokenID" demoRequest (∅, [])).2
    = Returned unit (demoNext rq).1.2 (ErrNext unit <$> (demoNext rq).2) /\
    exists ls', Labels (GetConnection rq) = Some ls' /\
                ls' !! serviceDomainLabel = Some "d1".
Proof.
  split; [reflexivity|]. split; [reflexivity|]. split; [discriminate|].
  destruct (Request_hands_on_rewritten (gmap string string) demoGet demoAssign
              demoRelease unit demoNext "deviceTokenID" demoRequest ∅
              {[ sriovTokenLabel := "d1/intel" ]} "d1/intel" "tok-1"
              {[ "conn-1" := "tok-1" ]}
              eq_refl eq_refl eq_refl ltac:(discriminate))
    as (rq & Herr & _ & _ & (ls' & Hl & _ & Hsd & _) & _).
  exists rq. split.
  - apply (Herr rq None tt). reflexivity.
  - exists ls'. split; [exact Hl | exact Hsd].
Defined.

End TokenClient.
